(** * msse_plugin_md: a Lennard-Jones force plugin and its MD engine

    A shallow embedding of [plugin/src/plugin.cpp] (the force kernel and the
    two plugin entry points) and of [executable/src/main.cpp] (the
    [MDSimulation] class: construction and the integration loop).

    Numbers.  The program computes with C++ [double].  The embedding has
    two readings of it.

    In the modules [Plugin] and [MDSimulation] every [double] is an exact
    rational ([Q]): the arithmetic operators are the field operations,
    comparisons are the order of [Q], and results are compared with [==]
    ([Qeq]).  Rounding is outside this reading; it is used for what the
    program computes up to rounding: formulas, the order of the updates,
    bounds that have slack.

    In the module [Rounded] every arithmetic operation on a [double] is
    followed by a rounding [rnd].  The statements hold for every [rnd]
    with the properties [rounding]: it respects [==], is monotone,
    idempotent and odd, doubles and halves a double exactly within the
    normal range, and does not round a non-zero sum of two doubles to
    zero.  [binary64], the rounding to the nearest double with ties to
    even, is proved to have them, and is checked against the machine's
    doubles.  This reading is used where the last bit decides: whether a
    coordinate ends inside the cell, whether two squared separations are
    identical, whether forces cancel.  Each operation is rounded on its
    own (no fused multiply-add); overflow, results below the normal
    range, infinities and NaN are outside both readings.

    The one operation of the program that has no rational value is the
    division by a zero squared separation ([1 / 0] is [0] in [Q]); a
    statement whose truth depends on that value excludes coincident
    particles by a hypothesis.  [int] is read as [Z]; no [int]
    of the program can overflow for a particle count that fits one.  A
    counted loop [for (int i = 0; i < n; ++i)] runs [Z.to_nat n] times, so a
    non-positive bound runs it zero times, as in the program.  An array is
    a [list]; the program never indexes outside [0 .. nparticles - 1], and
    the statements take arrays of [nparticles] elements. *)

From Stdlib Require Import ZArith QArith Qabs Qpower Qround Lia Lqa List.
From Stdlib Require Import PrimFloat SpecFloat FloatOps.
From stdpp Require Import base list strings gmap.

Local Open Scope Q_scope.

(** ** Comparisons on doubles, as the C++ operators *)

Definition Qltb (a b : Q) : bool := negb (Qle_bool b a).   (* a <  b *)
Definition Qgtb (a b : Q) : bool := Qltb b a.              (* a >  b *)
Definition Qgeb (a b : Q) : bool := Qle_bool b a.          (* a >= b *)

(** ** Counted loops *)

(** [for (int i = 0; i < n; ++i) body], threading the mutated state. *)
Definition for_loop {S : Type} (n : nat) (body : nat -> S -> S) (s : S) : S :=
  fold_left (fun acc i => body i acc) (seq 0 n) s.

(** ** Particle vectors: [std::array<double, 3>] *)

Record vec3 : Type := V3 { c0 : Q; c1 : Q; c2 : Q }.

Definition vzero : vec3 := V3 0 0 0.

#[global] Instance vec3_inhabited : Inhabited vec3 := populate vzero.

(** Component-wise equality of the rationals held by two vectors. *)
Definition veq (u v : vec3) : Prop :=
  c0 u == c0 v /\ c1 u == c1 v /\ c2 u == c2 v.

(** * The standard library's random numbers

    [std::mt19937] as the C++ standard fixes it (word size 32, state size
    624, shift size 397, mask bits 31, xor mask 0x9908b0df, tempering
    (11, 0xffffffff), (7, 0x9d2c5680), (15, 0xefc60000), 18, initialization
    multiplier 1812433253), and [std::uniform_real_distribution<double>]
    through [std::generate_canonical<double, 53>], which draws two 32-bit
    words, the low one first, and divides their 64-bit value by [2^64].  The
    division and the scaling to [[a, b)] are exact here. *)

Module StdRandom.

Local Open Scope Z_scope.

Definition uint32 (x : Z) : Z := x mod 2 ^ 32.

Definition state_size : nat := 624.
Definition shift_size : nat := 397.

(** The state words and the index of the next word to hand out. *)
Record mersenne_twister : Type := Engine { mt_x : list Z; mt_p : nat }.

(** [std::mt19937 gen(value)]. *)
Definition seed (value : Z) : mersenne_twister :=
  let x :=
    for_loop (state_size - 1) (fun k x =>
      let prev := x !!! k in
      x ++ [uint32 (1812433253 * Z.lxor prev (Z.shiftr prev 30)
                    + Z.of_nat (S k))])
      [uint32 value] in
  Engine x state_size.

(** The regeneration of the whole state, in place, word by word. *)
Definition twist (x : list Z) : list Z :=
  for_loop state_size (fun k x =>
    let y := Z.lor (Z.land (x !!! k) 0x80000000)
                   (Z.land (x !!! ((k + 1) mod state_size)%nat) 0x7fffffff) in
    let xa := if Z.odd y then 0x9908b0df else 0 in
    <[k := Z.lxor (Z.lxor (x !!! ((k + shift_size) mod state_size)%nat)
                          (Z.shiftr y 1)) xa]> x)
    x.

Definition temper (z : Z) : Z :=
  let z := Z.lxor z (Z.land (Z.shiftr z 11) 0xffffffff) in
  let z := Z.lxor z (Z.land (Z.shiftl z 7) 0x9d2c5680) in
  let z := Z.lxor z (Z.land (Z.shiftl z 15) 0xefc60000) in
  let z := Z.lxor z (Z.shiftr z 18) in
  z.

(** [gen()]: one 32-bit word. *)
Definition next (g : mersenne_twister) : Z * mersenne_twister :=
  let g := if decide (state_size <= mt_p g)%nat
           then Engine (twist (mt_x g)) 0 else g in
  (uint32 (temper (mt_x g !!! mt_p g)), Engine (mt_x g) (S (mt_p g))).

(** [gen.discard(n)]. *)
Fixpoint discard (n : nat) (g : mersenne_twister) : mersenne_twister :=
  match n with
  | O => g
  | S n' => discard n' (snd (next g))
  end.

Definition generate_canonical (g : mersenne_twister)
    : Q * mersenne_twister :=
  let '(lo, g) := next g in
  let '(hi, g) := next g in
  ((inject_Z (lo + hi * 2 ^ 32) / inject_Z (2 ^ 64))%Q, g).

(** One call [dist(gen)] of a [uniform_real_distribution<double> dist(a, b)]. *)
Definition uniform_real (a b : Q) (g : mersenne_twister)
    : Q * mersenne_twister :=
  let '(u, g) := generate_canonical g in
  ((u * (b - a) + a)%Q, g).

End StdRandom.

(** * The plugin ([plugin.cpp]) *)

Module Plugin.

Definition lj_cutoff : Q := 5 # 2.                     (* 2.5 *)
Definition lj_cutoff2 : Q := lj_cutoff * lj_cutoff.

(** The one global that is written after start-up.  A zero-initialised
    namespace-scope [double], set by [initialize]. *)
Record globals : Type := Globals { lj_potential_at_cutoff : Q }.

Definition globals_at_load : globals := Globals 0.

Definition lj_potential (r2 : Q) : Q :=
  let inv_r2 := 1 / r2 in
  let inv_r6 := inv_r2 * inv_r2 * inv_r2 in
  4 * (inv_r6 * inv_r6 - inv_r6).

Definition lj_potential_with_cutoff (g : globals) (r2 : Q) : Q :=
  if Qltb r2 lj_cutoff2
  then lj_potential r2 - lj_potential_at_cutoff g
  else 0.

Definition lj_force (r2 : Q) : Q :=
  let inv_r2 := 1 / r2 in
  let inv_r6 := inv_r2 * inv_r2 * inv_r2 in
  24 * inv_r2 * (2 * inv_r6 * inv_r6 - inv_r6).

Definition lj_force_with_cutoff (r2 : Q) : Q :=
  if Qltb r2 lj_cutoff2 then lj_force r2 else 0.

(** The two lines the kernel repeats for each axis:
    [if (d > 0.5 * box_size) d -= box_size;]
    [if (d < -0.5 * box_size) d += box_size;] *)
Definition minimum_image (box_size d : Q) : Q :=
  let d := if Qgtb d ((1 # 2) * box_size) then d - box_size else d in
  let d := if Qltb d (- (1 # 2) * box_size) then d + box_size else d in
  d.

(** [dx], [dy], [dz] of the pair [(iparticle, jparticle)]. *)
Definition displacement (box_size : Q) (pi pj : vec3) : vec3 :=
  V3 (minimum_image box_size (c0 pi - c0 pj))
     (minimum_image box_size (c1 pi - c1 pj))
     (minimum_image box_size (c2 pi - c2 pj)).

Definition norm2 (d : vec3) : Q :=
  (c0 d * c0 d) + (c1 d * c1 d) + (c2 d * c2 d).

(** The body of the inner loop for one ordered pair, on the two outputs
    [potential_energy] and [forces]. *)
Definition pair_body (g : globals) (box_size : Q) (positions : list vec3)
    (iparticle jparticle : nat) (st : Q * list vec3) : Q * list vec3 :=
  let '(potential_energy, forces) := st in
  if decide (iparticle <> jparticle) then
    let d := displacement box_size (positions !!! iparticle)
                                   (positions !!! jparticle) in
    let r2 := norm2 d in
    let f := lj_force_with_cutoff r2 in
    let fi := forces !!! iparticle in
    let forces := <[iparticle := V3 (c0 fi + f * c0 d)
                                    (c1 fi + f * c1 d)
                                    (c2 fi + f * c2 d)]> forces in
    (potential_energy + (1 # 2) * lj_potential_with_cutoff g r2, forces)
  else st.

Definition evaluate_lj_forces (g : globals) (nparticles : Z)
    (potential_energy : Q) (box_size : Q) (positions : list vec3)
    (forces : list vec3) : Q * list vec3 :=
  for_loop (Z.to_nat nparticles) (fun iparticle =>
    for_loop (Z.to_nat nparticles) (fun jparticle =>
      pair_body g box_size positions iparticle jparticle))
    (potential_energy, forces).

(** What a [std::any] of the handle can hold. *)
Inductive any : Type :=
| AnyDouble (x : Q)
| AnyInt (n : Z)
| AnyVectors (v : list vec3).

(** [extern "C" void initialize(state)]: the handle is not touched. *)
Definition initialize (state : gmap string any) (g : globals)
    : gmap string any * globals :=
  (state, Globals (lj_potential lj_cutoff2)).

(** [extern "C" void evaluate_forces(state)]: the body is a comment. *)
Definition evaluate_forces (state : gmap string any) (g : globals)
    : gmap string any * globals :=
  (state, g).

End Plugin.

(** * The engine ([main.cpp]) *)

Module MDSimulation.

(** The data members of [class MDSimulation]. *)
Record t : Type := Make {
  box_size : Q;
  potential_energy : Q;
  kinetic_energy : Q;
  nparticles : Z;
  positions : list vec3;
  velocities : list vec3;
  forces : list vec3
}.

Definition set_positions (ps : list vec3) (s : t) : t :=
  Make (box_size s) (potential_energy s) (kinetic_energy s) (nparticles s)
       ps (velocities s) (forces s).
Definition set_velocities (vs : list vec3) (s : t) : t :=
  Make (box_size s) (potential_energy s) (kinetic_energy s) (nparticles s)
       (positions s) vs (forces s).
Definition set_forces (fs : list vec3) (s : t) : t :=
  Make (box_size s) (potential_energy s) (kinetic_energy s) (nparticles s)
       (positions s) (velocities s) fs.
Definition set_potential_energy (e : Q) (s : t) : t :=
  Make (box_size s) e (kinetic_energy s) (nparticles s)
       (positions s) (velocities s) (forces s).
Definition set_kinetic_energy (e : Q) (s : t) : t :=
  Make (box_size s) (potential_energy s) e (nparticles s)
       (positions s) (velocities s) (forces s).

(** ** Construction *)

(** [std::ceil(std::pow(nparticles, 1.0/3.0))] converted to [int], in
    exact arithmetic: the least [p >= 0] with [nparticles <= p^3]. *)
Fixpoint ceil_cbrt_from (fuel : nat) (n p : Z) : Z :=
  match fuel with
  | O => p
  | S fuel' => if (n <=? p * p * p)%Z then p
               else ceil_cbrt_from fuel' n (p + 1)%Z
  end.

Definition ceil_cbrt (n : Z) : Z := ceil_cbrt_from (Z.to_nat n) n 0%Z.

(** The body of the placement loop: the grid slot of [iparticle] ... *)
Definition grid_slot (particles_per_side iparticle : Z) : Z * Z * Z :=
  let ix := Z.rem iparticle particles_per_side in
  let iy := Z.rem (Z.quot iparticle particles_per_side) particles_per_side in
  let iz := Z.quot iparticle (particles_per_side * particles_per_side) in
  (ix, iy, iz).

(** ... and the position pushed for it. *)
Definition grid_position (particle_spacing : Q) (slot : Z * Z * Z) : vec3 :=
  let '(ix, iy, iz) := slot in
  V3 (particle_spacing * inject_Z ix + ((1 # 2) * particle_spacing))
     (particle_spacing * inject_Z iy + ((1 # 2) * particle_spacing))
     (particle_spacing * inject_Z iz + ((1 # 2) * particle_spacing)).

Section Construction.

(** The standard library's generator, as the constructor uses it:
    [std::mt19937 gen(seed)] builds an engine from a seed, and one call
    [random_vel(gen)] of a
    [std::uniform_real_distribution<double> random_vel(-0.5, 0.5)]
    returns a number and advances the engine. *)
Context {engine : Type}.
Variable mt19937 : Z -> engine.
Variable random_vel : engine -> Q * engine.

(** The body of the velocity loop: a fresh engine seeded with the
    particle index, and three successive draws from it. *)
Definition random_velocity (iparticle : Z) : vec3 :=
  let gen := mt19937 iparticle in
  let '(vx, gen) := random_vel gen in
  let '(vy, gen) := random_vel gen in
  let '(vz, gen) := random_vel gen in
  V3 vx vy vz.

(** [MDSimulation::MDSimulation(box_size_in, nparticles_in)].  The two
    energies are left indeterminate by the constructor and assigned by
    [run] before they are read; they are read as [0] here.  The plugin's
    [initialize] is not called: that line of the constructor is a
    comment. *)
Definition MDSimulation (box_size_in : Q) (nparticles_in : Z) : t :=
  let box_size := box_size_in in
  let nparticles := nparticles_in in
  let particles_per_side := ceil_cbrt nparticles in
  let particle_spacing := box_size / inject_Z (particles_per_side + 1) in
  let positions :=
    for_loop (Z.to_nat nparticles) (fun iparticle positions =>
      positions ++ [grid_position particle_spacing
                      (grid_slot particles_per_side (Z.of_nat iparticle))])
      [] in
  let velocities :=
    for_loop (Z.to_nat nparticles) (fun iparticle velocities =>
      velocities ++ [random_velocity (Z.of_nat iparticle)])
      [] in
  let forces :=
    for_loop (Z.to_nat nparticles) (fun iparticle forces =>
      forces ++ [V3 0 0 0])
      [] in
  Make box_size 0 0 nparticles positions velocities forces.

End Construction.

(** ** The integration loop *)

(** What [run] prints. *)
Inductive output : Type :=
| Iteration (istep : Z) (potential kinetic total : Q)
| Completed.

(** The two lines of the periodic wrap, for one coordinate:
    [if (p < 0.0) p += box_size;  if (p >= box_size) p -= box_size;] *)
Definition wrap (box_size p : Q) : Q :=
  let p := if Qltb p 0 then p + box_size else p in
  let p := if Qgeb p box_size then p - box_size else p in
  p.

(** The three position assignments of the first particle loop ... *)
Definition drift (dt : Q) (p v : vec3) : vec3 :=
  V3 (c0 p + c0 v * dt) (c1 p + c1 v * dt) (c2 p + c2 v * dt).

(** ... and its inner loop over [idimension = 0, 1, 2]. *)
Definition wrap3 (box_size : Q) (p : vec3) : vec3 :=
  V3 (wrap box_size (c0 p)) (wrap box_size (c1 p)) (wrap box_size (c2 p)).

Definition update_position (dt : Q) (iparticle : nat) (s : t) : t :=
  let p := drift dt (positions s !!! iparticle) (velocities s !!! iparticle) in
  let p := wrap3 (box_size s) p in
  set_positions (<[iparticle := p]> (positions s)) s.

Definition zero_force (iparticle : nat) (s : t) : t :=
  set_forces (<[iparticle := V3 0 0 0]> (forces s)) s.

Definition add_kinetic (iparticle : nat) (s : t) : t :=
  let v := velocities s !!! iparticle in
  let s := set_kinetic_energy (kinetic_energy s + (1 # 2) * c0 v * c0 v) s in
  let s := set_kinetic_energy (kinetic_energy s + (1 # 2) * c1 v * c1 v) s in
  let s := set_kinetic_energy (kinetic_energy s + (1 # 2) * c2 v * c2 v) s in
  s.

(** The three velocity assignments of the last particle loop. *)
Definition kick (dt : Q) (v f : vec3) : vec3 :=
  V3 (c0 v + c0 f * dt) (c1 v + c1 f * dt) (c2 v + c2 f * dt).

Definition update_velocity (dt : Q) (iparticle : nat) (s : t) : t :=
  let v := kick dt (velocities s !!! iparticle) (forces s !!! iparticle) in
  set_velocities (<[iparticle := v]> (velocities s)) s.

(** One pass of the main loop, without the printing.  Between zeroing the
    forces and the kinetic energy the program has only the comment
    [// Call the plugin evaluate_forces function here]. *)
Definition step (dt : Q) (s : t) : t :=
  let n := Z.to_nat (nparticles s) in
  let s := for_loop n (update_position dt) s in
  let s := set_potential_energy 0 s in
  let s := set_kinetic_energy 0 s in
  let s := for_loop n zero_force s in
  let s := for_loop n add_kinetic s in
  let s := for_loop n (update_velocity dt) s in
  s.

Definition print_step (istep : nat) (s : t) : output :=
  Iteration (Z.of_nat istep) (potential_energy s) (kinetic_energy s)
            (potential_energy s + kinetic_energy s).

(** [MDSimulation::run(nsteps, dt)]: the final state and everything
    printed, in order. *)
Definition run (nsteps : Z) (dt : Q) (s : t) : t * list output :=
  let '(s, out) :=
    for_loop (Z.to_nat nsteps) (fun istep '(s, out) =>
      let s := step dt s in
      (s, out ++ [print_step istep s]))
      (s, []) in
  (s, out ++ [Completed]).

(** The constructor with the generator of the program. *)
Definition create : Q -> Z -> t :=
  MDSimulation StdRandom.seed (StdRandom.uniform_real (- (1 # 2)) (1 # 2)).

(** [main]: [MDSimulation mysimulation(20.0, 1000); mysimulation.run(100, 0.005);] *)
Definition main : t * list output := run 100 (5 # 1000) (create 20 1000).

End MDSimulation.

Import Plugin MDSimulation.

(** * Rounding

    The largest double and the smallest normal one. *)
Definition max_double : Q := inject_Z (2 ^ 53 - 1) * 2 ^ 971.
Definition min_normal : Q := 2 ^ (-1022).

(** What the statements use of a rounding function.  The conditions of
    [rnd_double] and [rnd_half] keep the result in the normal range. *)
Record rounding (rnd : Q -> Q) : Prop := {
  rnd_proper : forall x y, x == y -> rnd x == rnd y;
  rnd_monotone : forall x y, x <= y -> rnd x <= rnd y;
  rnd_idempotent : forall x, rnd (rnd x) == rnd x;
  rnd_opp : forall x, rnd (- x) == - rnd x;
  rnd_double : forall x,
    rnd x == x -> 2 * Qabs x <= max_double -> rnd (2 * x) == 2 * x;
  rnd_half : forall x,
    rnd x == x -> min_normal <= (1 # 2) * Qabs x ->
    rnd ((1 # 2) * x) == (1 # 2) * x;
  rnd_sum_nonzero : forall x y,
    rnd x == x -> rnd y == y -> rnd (x + y) == 0 -> x + y == 0
}.

(** A box size whose half and whose double are normal doubles. *)
Definition normal_box (L : Q) : Prop :=
  2 * min_normal <= L /\ 2 * L <= max_double.

(** The nearest integer, ties to even. *)
Definition round_half_even (q : Q) : Z :=
  let z := Qfloor (q + (1 # 2)) in
  if Qeq_bool (q + (1 # 2)) (inject_Z z) && Z.odd z then (z - 1)%Z else z.

(** The exponent [e] with [2^e <= |q| < 2^(e+1)], for [q <> 0]. *)
Definition binade (q : Q) : Z :=
  let e := (Z.log2 (Z.abs (Qnum q)) - Z.log2 (Z.pos (Qden q)))%Z in
  if Qle_bool (2 ^ e) (Qabs q) then e else (e - 1)%Z.

(** The double nearest to [q], ties to even: 53 significant bits, the
    exponent unbounded. *)
Definition binary64 (q : Q) : Q :=
  if Qeq_bool q 0 then 0
  else let ulp := 2 ^ (binade q - 52) in
       inject_Z (round_half_even (q / ulp)) * ulp.

(** [z] is an integer nearest to [q], and even if [q] is half-way. *)
Definition nearest_even (q : Q) (z : Z) : Prop :=
  inject_Z z - (1 # 2) <= q /\ q <= inject_Z z + (1 # 2)
  /\ (q == inject_Z z - (1 # 2) \/ q == inject_Z z + (1 # 2) ->
      Z.even z = true).

(** The value of a machine double ([PrimFloat.float], the kernel's IEEE 754
    binary64), for checking [binary64] against the machine. *)
Definition double_value (x : float) : Q :=
  match Prim2SF x with
  | S754_finite s m e =>
      (if s then - inject_Z (Z.pos m) else inject_Z (Z.pos m)) * 2 ^ e
  | _ => 0
  end.

(** * The program in rounded arithmetic

    The same two source files, with every arithmetic operation on a
    [double] followed by a rounding [rnd].  The literals of the program
    ([0.0], [0.5], [1.0], [2.0], [2.5], [4.0], [24.0]) are doubles and are
    not rounded; comparisons are exact.  With [rnd := binary64] this is the
    arithmetic of the program as long as no result overflows or falls
    below the normal range; with [rnd := fun q => q] it is the exact
    reading of the modules [Plugin] and [MDSimulation] above. *)

Module Rounded.

Section Arithmetic.

Variable rnd : Q -> Q.

Definition add (x y : Q) : Q := rnd (x + y).
Definition sub (x y : Q) : Q := rnd (x - y).
Definition mul (x y : Q) : Q := rnd (x * y).
Definition div (x y : Q) : Q := rnd (x / y).

Local Infix "+!" := add (at level 50, left associativity).
Local Infix "-!" := sub (at level 50, left associativity).
Local Infix "*!" := mul (at level 40, left associativity).
Local Infix "/!" := div (at level 40, left associativity).

(** ** [plugin.cpp] *)

Definition lj_cutoff : Q := 5 # 2.
Definition lj_cutoff2 : Q := lj_cutoff *! lj_cutoff.

Definition lj_potential (r2 : Q) : Q :=
  let inv_r2 := 1 /! r2 in
  let inv_r6 := inv_r2 *! inv_r2 *! inv_r2 in
  4 *! (inv_r6 *! inv_r6 -! inv_r6).

Definition lj_potential_with_cutoff (g : globals) (r2 : Q) : Q :=
  if Qltb r2 lj_cutoff2
  then lj_potential r2 -! lj_potential_at_cutoff g
  else 0.

Definition lj_force (r2 : Q) : Q :=
  let inv_r2 := 1 /! r2 in
  let inv_r6 := inv_r2 *! inv_r2 *! inv_r2 in
  24 *! inv_r2 *! (2 *! inv_r6 *! inv_r6 -! inv_r6).

Definition lj_force_with_cutoff (r2 : Q) : Q :=
  if Qltb r2 lj_cutoff2 then lj_force r2 else 0.

Definition minimum_image (box_size d : Q) : Q :=
  let d := if Qgtb d ((1 # 2) *! box_size) then d -! box_size else d in
  let d := if Qltb d (- (1 # 2) *! box_size) then d +! box_size else d in
  d.

Definition displacement (box_size : Q) (pi pj : vec3) : vec3 :=
  V3 (minimum_image box_size (c0 pi -! c0 pj))
     (minimum_image box_size (c1 pi -! c1 pj))
     (minimum_image box_size (c2 pi -! c2 pj)).

Definition norm2 (d : vec3) : Q :=
  (c0 d *! c0 d) +! (c1 d *! c1 d) +! (c2 d *! c2 d).

Definition pair_body (g : globals) (box_size : Q) (positions : list vec3)
    (iparticle jparticle : nat) (st : Q * list vec3) : Q * list vec3 :=
  let '(potential_energy, forces) := st in
  if decide (iparticle <> jparticle) then
    let d := displacement box_size (positions !!! iparticle)
                                   (positions !!! jparticle) in
    let r2 := norm2 d in
    let f := lj_force_with_cutoff r2 in
    let fi := forces !!! iparticle in
    let forces := <[iparticle := V3 (c0 fi +! f *! c0 d)
                                    (c1 fi +! f *! c1 d)
                                    (c2 fi +! f *! c2 d)]> forces in
    (potential_energy +! (1 # 2) *! lj_potential_with_cutoff g r2, forces)
  else st.

Definition evaluate_lj_forces (g : globals) (nparticles : Z)
    (potential_energy : Q) (box_size : Q) (positions : list vec3)
    (forces : list vec3) : Q * list vec3 :=
  for_loop (Z.to_nat nparticles) (fun iparticle =>
    for_loop (Z.to_nat nparticles) (fun jparticle =>
      pair_body g box_size positions iparticle jparticle))
    (potential_energy, forces).

Definition initialize (state : gmap string any) (g : globals)
    : gmap string any * globals :=
  (state, Globals (lj_potential lj_cutoff2)).

(** ** [main.cpp]: the integration loop *)

Definition wrap (box_size p : Q) : Q :=
  let p := if Qltb p 0 then p +! box_size else p in
  let p := if Qgeb p box_size then p -! box_size else p in
  p.

Definition drift (dt : Q) (p v : vec3) : vec3 :=
  V3 (c0 p +! c0 v *! dt) (c1 p +! c1 v *! dt) (c2 p +! c2 v *! dt).

Definition wrap3 (box_size : Q) (p : vec3) : vec3 :=
  V3 (wrap box_size (c0 p)) (wrap box_size (c1 p)) (wrap box_size (c2 p)).

Definition update_position (dt : Q) (iparticle : nat) (s : t) : t :=
  let p := drift dt (positions s !!! iparticle) (velocities s !!! iparticle) in
  let p := wrap3 (box_size s) p in
  set_positions (<[iparticle := p]> (positions s)) s.

Definition add_kinetic (iparticle : nat) (s : t) : t :=
  let v := velocities s !!! iparticle in
  let s := set_kinetic_energy (kinetic_energy s +! (1 # 2) *! c0 v *! c0 v) s in
  let s := set_kinetic_energy (kinetic_energy s +! (1 # 2) *! c1 v *! c1 v) s in
  let s := set_kinetic_energy (kinetic_energy s +! (1 # 2) *! c2 v *! c2 v) s in
  s.

Definition kick (dt : Q) (v f : vec3) : vec3 :=
  V3 (c0 v +! c0 f *! dt) (c1 v +! c1 f *! dt) (c2 v +! c2 f *! dt).

Definition update_velocity (dt : Q) (iparticle : nat) (s : t) : t :=
  let v := kick dt (velocities s !!! iparticle) (forces s !!! iparticle) in
  set_velocities (<[iparticle := v]> (velocities s)) s.

Definition step (dt : Q) (s : t) : t :=
  let n := Z.to_nat (nparticles s) in
  let s := for_loop n (update_position dt) s in
  let s := set_potential_energy 0 s in
  let s := set_kinetic_energy 0 s in
  let s := for_loop n zero_force s in
  let s := for_loop n add_kinetic s in
  let s := for_loop n (update_velocity dt) s in
  s.

Definition print_step (istep : nat) (s : t) : output :=
  Iteration (Z.of_nat istep) (potential_energy s) (kinetic_energy s)
            (potential_energy s +! kinetic_energy s).

Definition run (nsteps : Z) (dt : Q) (s : t) : t * list output :=
  let '(s, out) :=
    for_loop (Z.to_nat nsteps) (fun istep '(s, out) =>
      let s := step dt s in
      (s, out ++ [print_step istep s]))
      (s, []) in
  (s, out ++ [Completed]).

End Arithmetic.

End Rounded.

(** * Quantities the statements are written with *)

(** The three components of a vector, by index. *)
Inductive axis : Type := Axis0 | Axis1 | Axis2.

Definition coord (k : axis) (v : vec3) : Q :=
  match k with Axis0 => c0 v | Axis1 => c1 v | Axis2 => c2 v end.

Definition vadd (u w : vec3) : vec3 :=
  V3 (c0 u + c0 w) (c1 u + c1 w) (c2 u + c2 w).

(** The component-wise sum of an array of vectors. *)
Definition total (fs : list vec3) : vec3 := fold_right vadd vzero fs.

(** [a 0 + ... + a (n-1)]. *)
Definition Qsum (n : nat) (a : nat -> Q) : Q :=
  for_loop n (fun i acc => acc + a i) 0.

(** What the ordered pair [(i, j)] adds to [forces[i]] ... *)
Definition pair_force (L : Q) (ps : list vec3) (i j : nat) : vec3 :=
  let d := displacement L (ps !!! i) (ps !!! j) in
  let f := lj_force_with_cutoff (norm2 d) in
  V3 (f * c0 d) (f * c1 d) (f * c2 d).

(** ... and to the potential energy. *)
Definition pair_energy (g : globals) (L : Q) (ps : list vec3) (i j : nat) : Q :=
  (1 # 2) * lj_potential_with_cutoff g
              (norm2 (displacement L (ps !!! i) (ps !!! j))).

(** The inner loop of particle [i], on its force vector and on the energy. *)
Definition force_row (L : Q) (ps : list vec3) (i m : nat) (v : vec3) : vec3 :=
  for_loop m (fun j v =>
    if decide (i <> j) then vadd v (pair_force L ps i j) else v) v.

Definition energy_row (g : globals) (L : Q) (ps : list vec3) (i m : nat)
    (e : Q) : Q :=
  for_loop m (fun j e =>
    if decide (i <> j) then e + pair_energy g L ps i j else e) e.

(** The force factor as the specification writes it, in negative powers of
    the squared separation. *)
Definition f_LJ (r2 : Q) : Q := 24 * r2 ^ (-1) * (2 * r2 ^ (-6) - r2 ^ (-3)).

(** The potential with the powers that the specification prints,
    [4 (r2^-6 r2^-6 - r2^-6)] ... *)
Definition V_LJ_as_printed (r2 : Q) : Q :=
  4 * (r2 ^ (-6) * r2 ^ (-6) - r2 ^ (-6)).

(** ... and with the powers of the program, where [inv_r6] is [r2^-3]:
    this is [4 (r^-12 - r^-6)]. *)
Definition V_LJ (r2 : Q) : Q := 4 * (r2 ^ (-3) * r2 ^ (-3) - r2 ^ (-3)).

(** The kinetic energy accumulated over the first [n] particles. *)
Definition kinetic_upto (vs : list vec3) (n : nat) (e : Q) : Q :=
  for_loop n (fun i e =>
    let v := vs !!! i in
    e + (1 # 2) * c0 v * c0 v + (1 # 2) * c1 v * c1 v + (1 # 2) * c2 v * c2 v) e.

(** The sum of [0.5 * v * v] over all velocity components. *)
Definition half_squares (vs : list vec3) : Q :=
  fold_right (fun v acc =>
    (1 # 2) * (c0 v * c0 v) + (1 # 2) * (c1 v * c1 v)
    + (1 # 2) * (c2 v * c2 v) + acc) 0 vs.

(** The steps that [run] printed. *)
Definition is_iteration (o : output) : bool :=
  match o with Iteration _ _ _ _ => true | Completed => false end.

Definition iterations (out : list output) : nat :=
  length (List.filter is_iteration out).

(** ** Small configurations *)

(** Two particles two units apart along [x], and a third one that makes a
    triangle with them. *)
Definition two_particles : list vec3 := [V3 1 1 1; V3 3 1 1].
Definition three_particles : list vec3 := [V3 1 1 1; V3 3 1 1; V3 2 2 1].

(** [two_particles] in a cell of edge 20, moving. *)
Definition moving : t :=
  Make 20 0 0 2 two_particles [V3 1 0 0; V3 0 (- (2)) 0] [vzero; vzero].

(** ** Well-formed states *)

(** The three arrays have [nparticles] elements. *)
Definition well_formed (s : t) : Prop :=
  length (positions s) = Z.to_nat (nparticles s)
  /\ length (velocities s) = Z.to_nat (nparticles s)
  /\ length (forces s) = Z.to_nat (nparticles s).

(** Every coordinate of every position is in [[0, box_size)]. *)
Definition in_box (s : t) : Prop :=
  forall i p k, positions s !! i = Some p ->
    0 <= coord k p /\ coord k p < box_size s.

(** The number of ordered pairs [(i, j)], [i <> j], of the first [n]
    particles that the kernel finds within the cutoff. *)
Definition pairs_within_cutoff (L : Q) (ps : list vec3) (n : nat) : Q :=
  Qsum n (fun i => Qsum n (fun j =>
    if decide (i <> j)
    then if Qltb (norm2 (displacement L (ps !!! i) (ps !!! j))) lj_cutoff2
         then 1 else 0
    else 0)).

(** * Comparisons and loops *)

Lemma Qltb_lt (a b : Q) : Qltb a b = true <-> a < b.
Proof.
  unfold Qltb. rewrite negb_true_iff, <- not_true_iff_false, Qle_bool_iff.
  split; [apply Qnot_le_lt | apply Qlt_not_le].
Qed.

Lemma Qltb_ge (a b : Q) : Qltb a b = false <-> b <= a.
Proof.
  unfold Qltb. rewrite negb_false_iff. apply Qle_bool_iff.
Qed.

Lemma Qgeb_ge (a b : Q) : Qgeb a b = true <-> b <= a.
Proof. apply Qle_bool_iff. Qed.

Lemma Qgeb_lt (a b : Q) : Qgeb a b = false <-> a < b.
Proof.
  unfold Qgeb. rewrite <- not_true_iff_false, Qle_bool_iff.
  split; [apply Qnot_le_lt | apply Qlt_not_le].
Qed.

(** Split on every comparison of the goal and keep the order facts. *)
Ltac cmp_cases :=
  repeat match goal with
  | |- context [Qgtb ?a ?b] => unfold Qgtb
  | |- context [Qltb ?a ?b] =>
      let E := fresh "E" in
      destruct (Qltb a b) eqn:E;
      [apply Qltb_lt in E | apply Qltb_ge in E]
  | |- context [Qgeb ?a ?b] =>
      let E := fresh "E" in
      destruct (Qgeb a b) eqn:E;
      [apply Qgeb_ge in E | apply Qgeb_lt in E]
  end.

Lemma for_loop_0 {S : Type} (body : nat -> S -> S) (s : S) :
  for_loop 0 body s = s.
Proof. reflexivity. Qed.

Lemma for_loop_S {S : Type} (n : nat) (body : nat -> S -> S) (s : S) :
  for_loop (Datatypes.S n) body s = body n (for_loop n body s).
Proof.
  unfold for_loop. rewrite seq_S, fold_left_app. reflexivity.
Qed.

(** The loop invariant rule. *)
Lemma for_loop_invariant {S : Type} (P : nat -> S -> Prop)
    (n : nat) (body : nat -> S -> S) (s : S) :
  P 0%nat s ->
  (forall i acc, (i < n)%nat -> P i acc -> P (Datatypes.S i) (body i acc)) ->
  P n (for_loop n body s).
Proof.
  intros H0 Hstep. induction n as [|n IH].
  - exact H0.
  - rewrite for_loop_S. apply Hstep; [lia|]. apply IH.
    intros i acc Hi. apply Hstep. lia.
Qed.

Lemma for_loop_ext {S : Type} (n : nat) (f g : nat -> S -> S) (s : S) :
  (forall i acc, (i < n)%nat -> f i acc = g i acc) ->
  for_loop n f s = for_loop n g s.
Proof.
  intros H. induction n as [|n IH]; [reflexivity|].
  rewrite !for_loop_S, IH by (intros; apply H; lia). apply H. lia.
Qed.

(** A loop that rewrites slot [i] of an array from its old content. *)
Lemma for_loop_update {A : Type} `{Inhabited A} (g : nat -> A -> A)
    (n : nat) (l : list A) :
  (n <= length l)%nat ->
  for_loop n (fun i acc => <[i := g i (acc !!! i)]> acc) l
  = imap g (take n l) ++ drop n l.
Proof.
  induction n as [|n IH]; intros Hn.
  - rewrite take_0, drop_0. reflexivity.
  - rewrite for_loop_S, IH by lia.
    destruct (lookup_lt_is_Some_2 l n) as [x Hx]; [lia|].
    assert (Hlen : length (imap g (take n l)) = n)
      by (rewrite length_imap, length_take; lia).
    rewrite (take_S_r l n x Hx), imap_app, (drop_S l x n Hx).
    rewrite length_take, Nat.min_l by lia. simpl.
    rewrite <- (Nat.add_0_r n) at 1 2.
    rewrite <- Hlen at 1 3.
    rewrite list_lookup_total_middle by lia.
    rewrite insert_app_r. simpl.
    rewrite Nat.add_0_r, <- app_assoc. reflexivity.
Qed.

Lemma for_loop_update_all {A : Type} `{Inhabited A} (g : nat -> A -> A)
    (l : list A) :
  for_loop (length l) (fun i acc => <[i := g i (acc !!! i)]> acc) l
  = imap g l.
Proof.
  rewrite for_loop_update by lia.
  rewrite firstn_all, drop_all, app_nil_r. reflexivity.
Qed.

(** A loop that pushes one element per pass. *)
Lemma for_loop_push {A : Type} (g : nat -> A) (n : nat) :
  for_loop n (fun i acc => acc ++ [g i]) [] = map g (seq 0 n).
Proof.
  induction n as [|n IH]; [reflexivity|].
  rewrite for_loop_S, IH, seq_S, map_app. reflexivity.
Qed.

(** * The integration step, loop by loop *)

Lemma update_position_loop (dt : Q) (n : nat) (s : t) :
  for_loop n (update_position dt) s
  = set_positions
      (for_loop n (fun i ps =>
         <[i := wrap3 (box_size s) (drift dt (ps !!! i) (velocities s !!! i))]> ps)
         (positions s)) s.
Proof.
  induction n as [|n IH].
  - destruct s; reflexivity.
  - rewrite !for_loop_S, IH. reflexivity.
Qed.

Lemma zero_force_loop (n : nat) (s : t) :
  for_loop n zero_force s
  = set_forces
      (for_loop n (fun i fs => <[i := (fun _ _ => V3 0 0 0) i (fs !!! i)]> fs)
         (forces s)) s.
Proof.
  induction n as [|n IH].
  - destruct s; reflexivity.
  - rewrite !for_loop_S, IH. reflexivity.
Qed.

Lemma update_velocity_loop (dt : Q) (n : nat) (s : t) :
  for_loop n (update_velocity dt) s
  = set_velocities
      (for_loop n (fun i vs => <[i := kick dt (vs !!! i) (forces s !!! i)]> vs)
         (velocities s)) s.
Proof.
  induction n as [|n IH].
  - destruct s; reflexivity.
  - rewrite !for_loop_S, IH. reflexivity.
Qed.

Lemma add_kinetic_loop (n : nat) (s : t) :
  for_loop n add_kinetic s
  = set_kinetic_energy (kinetic_upto (velocities s) n (kinetic_energy s)) s.
Proof.
  unfold kinetic_upto. induction n as [|n IH].
  - destruct s; reflexivity.
  - rewrite !for_loop_S, IH. reflexivity.
Qed.

Lemma kinetic_upto_take (vs : list vec3) (n : nat) (e : Q) :
  (n <= length vs)%nat ->
  kinetic_upto vs n e == e + half_squares (take n vs).
Proof.
  unfold kinetic_upto. induction n as [|n IH]; intros Hn.
  - rewrite take_0. unfold for_loop, half_squares. simpl fold_left. simpl fold_right. ring.
  - rewrite for_loop_S, IH by lia.
    destruct (lookup_lt_is_Some_2 vs n) as [v Hv]; [lia|].
    rewrite (take_S_r vs n v Hv), (list_lookup_total_correct vs n v Hv).
    clear IH Hv Hn. generalize (take n vs) as l. intros l.
    unfold half_squares.
    induction l as [|u l IHl].
    + simpl app. simpl fold_right. ring.
    + change ((u :: l) ++ [v]) with (u :: (l ++ [v])).
      simpl fold_right. simpl fold_right in IHl. lra.
Qed.

(** What one step leaves in each field, for arrays of [nparticles]
    elements. *)
Lemma step_unfold (dt : Q) (s : t) :
  let n := Z.to_nat (nparticles s) in
  let ps := for_loop n (fun i ps =>
              <[i := wrap3 (box_size s)
                       (drift dt (ps !!! i) (velocities s !!! i))]> ps)
              (positions s) in
  let fs := for_loop n (fun i fs =>
              <[i := (fun _ _ => V3 0 0 0) i (fs !!! i)]> fs) (forces s) in
  let vs := for_loop n (fun i vs =>
              <[i := kick dt (vs !!! i) (fs !!! i)]> vs) (velocities s) in
  step dt s
  = Make (box_size s) 0 (kinetic_upto (velocities s) n 0) (nparticles s)
         ps vs fs.
Proof.
  unfold step.
  rewrite update_velocity_loop, add_kinetic_loop, zero_force_loop,
    update_position_loop.
  reflexivity.
Qed.

Lemma step_box_size (dt : Q) (s : t) : box_size (step dt s) = box_size s.
Proof. rewrite step_unfold. reflexivity. Qed.

Lemma step_nparticles (dt : Q) (s : t) :
  nparticles (step dt s) = nparticles s.
Proof. rewrite step_unfold. reflexivity. Qed.

Lemma step_potential_energy (dt : Q) (s : t) :
  potential_energy (step dt s) = 0.
Proof. rewrite step_unfold. reflexivity. Qed.

Lemma step_positions (dt : Q) (s : t) :
  length (positions s) = Z.to_nat (nparticles s) ->
  positions (step dt s)
  = imap (fun i p => wrap3 (box_size s) (drift dt p (velocities s !!! i)))
         (positions s).
Proof.
  intros Hp. rewrite step_unfold. simpl. rewrite <- Hp.
  apply (for_loop_update_all
    (fun i p => wrap3 (box_size s) (drift dt p (velocities s !!! i)))).
Qed.

Lemma step_forces (dt : Q) (s : t) :
  length (forces s) = Z.to_nat (nparticles s) ->
  forces (step dt s) = replicate (Z.to_nat (nparticles s)) (V3 0 0 0).
Proof.
  intros Hf. rewrite step_unfold. simpl. rewrite <- Hf.
  rewrite (for_loop_update_all (fun _ _ => V3 0 0 0)).
  generalize (forces s) as l. intros l. unfold imap.
  generalize 0%nat as k.
  induction l as [|x l IH]; intros k; simpl; [reflexivity|].
  f_equal. apply IH.
Qed.

Lemma step_velocities (dt : Q) (s : t) :
  length (velocities s) = Z.to_nat (nparticles s) ->
  velocities (step dt s)
  = imap (fun i v => kick dt v (forces (step dt s) !!! i)) (velocities s).
Proof.
  intros Hv. rewrite step_unfold. simpl. rewrite <- Hv.
  apply (for_loop_update_all (fun i v => kick dt v (_ !!! i))).
Qed.

Lemma step_kinetic_energy (dt : Q) (s : t) :
  length (velocities s) = Z.to_nat (nparticles s) ->
  kinetic_energy (step dt s) == half_squares (velocities s).
Proof.
  intros Hv. rewrite step_unfold. simpl.
  rewrite kinetic_upto_take by lia.
  rewrite <- Hv, firstn_all. ring.
Qed.

(** * Construction *)

Lemma ceil_cbrt_from_spec (fuel : nat) (n p : Z) :
  (0 <= p)%Z ->
  (forall q, 0 <= q < p -> q * q * q < n)%Z ->
  (n <= p + Z.of_nat fuel)%Z ->
  let r := ceil_cbrt_from fuel n p in
  (p <= r /\ n <= r * r * r /\ forall q, 0 <= q < r -> q * q * q < n)%Z.
Proof.
  revert p. induction fuel as [|fuel IH]; intros p Hp Hbelow Hfuel; simpl.
  - split; [lia|]. split; [nia|]. exact Hbelow.
  - destruct (Z.leb_spec n (p * p * p)) as [Hle|Hgt].
    + split; [lia|]. split; [exact Hle|exact Hbelow].
    + destruct (IH (p + 1)%Z) as (H1 & H2 & H3); [lia| |lia|].
      * intros q Hq. destruct (Z.eq_dec q p) as [->|Hne]; [exact Hgt|].
        apply Hbelow. lia.
      * split; [lia|]. split; [exact H2|exact H3].
Qed.

(** [ceil_cbrt n] is the ceiling of the cube root of [n]. *)
Lemma ceil_cbrt_spec (n : Z) :
  (0 < n)%Z ->
  let p := ceil_cbrt n in
  (0 < p /\ (p - 1) * (p - 1) * (p - 1) < n <= p * p * p)%Z.
Proof.
  intros Hn. unfold ceil_cbrt.
  destruct (ceil_cbrt_from_spec (Z.to_nat n) n 0) as (H1 & H2 & H3);
    [lia|lia|lia|].
  simpl. set (r := ceil_cbrt_from (Z.to_nat n) n 0) in *.
  assert (0 < r)%Z by nia.
  split; [assumption|]. split; [|exact H2]. apply H3. lia.
Qed.

Lemma ceil_cbrt_nonpos (n : Z) : (n <= 0)%Z -> ceil_cbrt n = 0%Z.
Proof.
  intros Hn. unfold ceil_cbrt.
  replace (Z.to_nat n) with 0%nat by lia. reflexivity.
Qed.

(** The slot of particle [i] in a grid with [p] slots per side, [i < p^3]:
    each index is below [p], and [x] runs fastest. *)
Lemma grid_slot_spec (p i : Z) :
  (0 < p)%Z -> (0 <= i < p * p * p)%Z ->
  exists ix iy iz,
    grid_slot p i = (ix, iy, iz)
    /\ (0 <= ix < p /\ 0 <= iy < p /\ 0 <= iz < p)%Z
    /\ (i = ix + p * iy + p * p * iz)%Z.
Proof.
  intros Hp Hi. unfold grid_slot.
  exists (Z.rem i p), (Z.rem (Z.quot i p) p), (Z.quot i (p * p)).
  split; [reflexivity|].
  rewrite !Z.rem_mod_nonneg, !Z.quot_div_nonneg by
    (try rewrite Z.quot_div_nonneg by lia;
     try apply Z.div_pos; nia).
  assert (Hq : (i / (p * p) = i / p / p)%Z)
    by (rewrite Z.div_div by lia; reflexivity).
  pose proof (Z.mod_pos_bound i p Hp).
  pose proof (Z.mod_pos_bound (i / p) p Hp).
  pose proof (Z.div_mod i p ltac:(lia)) as E1.
  pose proof (Z.div_mod (i / p) p ltac:(lia)) as E2.
  assert (0 <= i / p / p)%Z by (apply Z.div_pos; [apply Z.div_pos|]; lia).
  assert (i / p / p < p)%Z.
  { apply Z.div_lt_upper_bound; [lia|].
    apply Z.div_lt_upper_bound; [lia|]. nia. }
  rewrite Hq. split; [lia|]. nia.
Qed.

Lemma grid_slot_injective (p i j : Z) :
  (0 < p)%Z -> (0 <= i < p * p * p)%Z -> (0 <= j < p * p * p)%Z ->
  grid_slot p i = grid_slot p j -> i = j.
Proof.
  intros Hp Hi Hj E.
  destruct (grid_slot_spec p i Hp Hi) as (ix & iy & iz & Ei & _ & Si).
  destruct (grid_slot_spec p j Hp Hj) as (jx & jy & jz & Ej & _ & Sj).
  rewrite Ei, Ej in E. injection E as -> -> ->. lia.
Qed.

(** A coordinate of a grid position lies strictly inside the cell. *)
Lemma grid_coordinate_inside (L : Q) (p k : Z) :
  0 < L -> (0 <= k < p)%Z ->
  let spacing := L / inject_Z (p + 1) in
  0 < spacing * inject_Z k + (1 # 2) * spacing
  /\ spacing * inject_Z k + (1 # 2) * spacing < L.
Proof.
  intros HL Hk spacing.
  assert (Hp1 : 0 < inject_Z (p + 1))
    by (rewrite <- (Zlt_Qlt 0); lia).
  assert (Hs : 0 < spacing)
    by (apply Qlt_shift_div_l; [exact Hp1 | lra]).
  assert (HsL : spacing * inject_Z (p + 1) == L)
    by (unfold spacing; field; lra).
  assert (Hk0 : 0 <= inject_Z k) by (rewrite <- (Zle_Qle 0); lia).
  assert (Hk1 : inject_Z k + 1 <= inject_Z (p + 1) - 1).
  { rewrite inject_Z_plus. 
    assert (inject_Z k + 1 <= inject_Z p).
    { change 1 with (inject_Z 1). rewrite <- inject_Z_plus, <- Zle_Qle. lia. }
    change (inject_Z 1) with 1. lra. }
  split; [nra|]. rewrite <- HsL. nra.
Qed.

Section ConstructionFacts.

Context {engine : Type}.
Variable mt19937 : Z -> engine.
Variable random_vel : engine -> Q * engine.

Local Abbreviation construct := (MDSimulation.MDSimulation mt19937 random_vel).
Local Abbreviation velocity_of := (random_velocity mt19937 random_vel).

Lemma construct_positions (L : Q) (n : Z) :
  positions (construct L n)
  = map (fun i => grid_position (L / inject_Z (ceil_cbrt n + 1))
                    (grid_slot (ceil_cbrt n) (Z.of_nat i)))
        (seq 0 (Z.to_nat n)).
Proof.
  unfold MDSimulation.MDSimulation. simpl.
  apply (for_loop_push (fun i =>
    grid_position (L / inject_Z (ceil_cbrt n + 1))
      (grid_slot (ceil_cbrt n) (Z.of_nat i)))).
Qed.

Lemma construct_velocities (L : Q) (n : Z) :
  velocities (construct L n)
  = map (fun i => velocity_of (Z.of_nat i)) (seq 0 (Z.to_nat n)).
Proof.
  unfold MDSimulation.MDSimulation. simpl.
  apply (for_loop_push (fun i => velocity_of (Z.of_nat i))).
Qed.

Lemma construct_forces (L : Q) (n : Z) :
  forces (construct L n) = map (fun _ => V3 0 0 0) (seq 0 (Z.to_nat n)).
Proof.
  unfold MDSimulation.MDSimulation. simpl.
  apply (for_loop_push (fun _ => V3 0 0 0)).
Qed.

Lemma lookup_map_seq {A : Type} (g : nat -> A) (n i : nat) :
  (i < n)%nat -> map g (seq 0 n) !! i = Some (g i).
Proof.
  intros Hi. change (map g (seq 0 n)) with (g <$> seq 0 n).
  rewrite list_lookup_fmap, lookup_seq_lt by lia. reflexivity.
Qed.

End ConstructionFacts.

(** * The kernel *)

Lemma Qltb_comp (a a' b b' : Q) :
  a == a' -> b == b' -> Qltb a b = Qltb a' b'.
Proof. intros Ha Hb. unfold Qltb. rewrite Ha, Hb. reflexivity. Qed.

#[local] Instance Qltb_proper : Proper (Qeq ==> Qeq ==> eq) Qltb.
Proof. intros a a' Ha b b' Hb. apply Qltb_comp; assumption. Qed.

#[local] Instance minimum_image_proper :
  Proper (Qeq ==> Qeq ==> Qeq) minimum_image.
Proof.
  intros L L' HL d d' Hd. unfold minimum_image, Qgtb.
  rewrite (Qltb_comp ((1 # 2) * L) ((1 # 2) * L') d d')
    by (rewrite ?HL, ?Hd; reflexivity).
  destruct (Qltb ((1 # 2) * L') d').
  - rewrite (Qltb_comp (d - L) (d' - L') (- (1 # 2) * L) (- (1 # 2) * L'))
      by (rewrite ?HL, ?Hd; reflexivity).
    destruct (Qltb (d' - L') (- (1 # 2) * L')); rewrite HL, Hd; reflexivity.
  - rewrite (Qltb_comp d d' (- (1 # 2) * L) (- (1 # 2) * L'))
      by (rewrite ?HL, ?Hd; reflexivity).
    destruct (Qltb d' (- (1 # 2) * L')); rewrite ?HL, Hd; reflexivity.
Qed.

(** What the two tests select, for a cell of positive edge. *)
Lemma minimum_image_cases (L d : Q) :
  0 <= L ->
  ((1 # 2) * L < d /\ minimum_image L d == d - L)
  \/ (d < - (1 # 2) * L /\ minimum_image L d == d + L)
  \/ (- (1 # 2) * L <= d <= (1 # 2) * L /\ minimum_image L d == d).
Proof.
  intros HL. unfold minimum_image. cmp_cases;
    first [ exfalso; lra
          | left; split; [lra | reflexivity]
          | right; left; split; [lra | reflexivity]
          | right; right; split; [lra | reflexivity] ].
Qed.

(** The displacement of [(j, i)] is the negation of that of [(i, j)]. *)
Lemma minimum_image_opp (L d : Q) :
  0 <= L -> minimum_image L (- d) == - minimum_image L d.
Proof.
  intros HL.
  destruct (minimum_image_cases L d HL) as [[H E]|[[H E]|[H E]]];
  destruct (minimum_image_cases L (- d) HL) as [[H' E']|[[H' E']|[H' E']]];
  rewrite E, E'; lra.
Qed.

#[local] Instance lj_potential_proper : Proper (Qeq ==> Qeq) lj_potential.
Proof. intros a b E. unfold lj_potential. rewrite E. reflexivity. Qed.

#[local] Instance lj_force_proper : Proper (Qeq ==> Qeq) lj_force.
Proof. intros a b E. unfold lj_force. rewrite E. reflexivity. Qed.

#[local] Instance lj_force_with_cutoff_proper :
  Proper (Qeq ==> Qeq) lj_force_with_cutoff.
Proof.
  intros a b E. unfold lj_force_with_cutoff.
  rewrite (Qltb_comp a b lj_cutoff2 lj_cutoff2 E) by reflexivity.
  destruct (Qltb b lj_cutoff2); [rewrite E|]; reflexivity.
Qed.

Lemma lj_potential_with_cutoff_comp (g : globals) (a b : Q) :
  a == b -> lj_potential_with_cutoff g a == lj_potential_with_cutoff g b.
Proof.
  intros E. unfold lj_potential_with_cutoff.
  rewrite (Qltb_comp a b lj_cutoff2 lj_cutoff2 E) by reflexivity.
  destruct (Qltb b lj_cutoff2); [rewrite E|]; reflexivity.
Qed.

(** The two formulas, in powers of the inverse squared separation. *)
Lemma lj_force_formula (r2 : Q) :
  lj_force r2 == 24 * / r2 * (2 * (/ r2) ^ 6 - (/ r2) ^ 3).
Proof. unfold lj_force, Qdiv. simpl. ring. Qed.

Lemma lj_potential_formula (r2 : Q) :
  lj_potential r2 == 4 * ((/ r2) ^ 3 * (/ r2) ^ 3 - (/ r2) ^ 3).
Proof. unfold lj_potential, Qdiv. simpl. ring. Qed.

Lemma displacement_opp (L : Q) (p q : vec3) :
  0 <= L ->
  veq (displacement L q p)
      (V3 (- c0 (displacement L p q)) (- c1 (displacement L p q))
          (- c2 (displacement L p q))).
Proof.
  intros HL. unfold veq, displacement. simpl.
  rewrite <- !minimum_image_opp by exact HL.
  repeat split; apply minimum_image_proper; try reflexivity; ring.
Qed.

Lemma norm2_displacement_sym (L : Q) (p q : vec3) :
  0 <= L -> norm2 (displacement L q p) == norm2 (displacement L p q).
Proof.
  intros HL. destruct (displacement_opp L p q HL) as (E0 & E1 & E2).
  unfold norm2. rewrite E0, E1, E2. simpl. ring.
Qed.

(** ** The loops *)

Lemma pair_body_unfold (g : globals) (L : Q) (ps : list vec3) (i j : nat)
    (e : Q) (fs : list vec3) :
  pair_body g L ps i j (e, fs)
  = if decide (i <> j)
    then (e + pair_energy g L ps i j,
          <[i := vadd (fs !!! i) (pair_force L ps i j)]> fs)
    else (e, fs).
Proof. unfold pair_body. destruct (decide (i <> j)); reflexivity. Qed.

Lemma inner_loop (g : globals) (L : Q) (ps : list vec3) (i m : nat)
    (e : Q) (fs : list vec3) :
  (i < length fs)%nat ->
  for_loop m (pair_body g L ps i) (e, fs)
  = (energy_row g L ps i m e, <[i := force_row L ps i m (fs !!! i)]> fs).
Proof.
  intros Hi. unfold energy_row, force_row. induction m as [|m IH].
  - rewrite !for_loop_0, list_insert_id; [reflexivity|].
    apply list_lookup_lookup_total_lt. exact Hi.
  - rewrite !for_loop_S, IH, pair_body_unfold.
    destruct (decide (i <> m)); [|reflexivity].
    rewrite list_lookup_total_insert_eq by exact Hi.
    rewrite list_insert_insert_eq. reflexivity.
Qed.

Lemma for_loop_update_length {A : Type} `{Inhabited A} (g : nat -> A -> A)
    (n : nat) (l : list A) :
  length (for_loop n (fun i acc => <[i := g i (acc !!! i)]> acc) l)
  = length l.
Proof.
  induction n as [|n IH]; [reflexivity|].
  rewrite for_loop_S, length_insert. exact IH.
Qed.

Lemma outer_loop (g : globals) (L : Q) (ps : list vec3) (n m : nat)
    (e : Q) (fs : list vec3) :
  (m <= length fs)%nat ->
  for_loop m (fun i => for_loop n (pair_body g L ps i)) (e, fs)
  = (for_loop m (fun i e => energy_row g L ps i n e) e,
     for_loop m (fun i fs => <[i := force_row L ps i n (fs !!! i)]> fs) fs).
Proof.
  intros Hm. induction m as [|m IH]; [reflexivity|].
  rewrite !for_loop_S, IH by lia. apply inner_loop.
  rewrite (for_loop_update_length (fun i v => force_row L ps i n v)). lia.
Qed.

(** The kernel's two results, for arrays of at least [nparticles]
    elements. *)
Lemma evaluate_lj_forces_loops (g : globals) (nparticles : Z) (e L : Q)
    (ps fs : list vec3) :
  let n := Z.to_nat nparticles in
  (n <= length fs)%nat ->
  evaluate_lj_forces g nparticles e L ps fs
  = (for_loop n (fun i e => energy_row g L ps i n e) e,
     imap (fun i v => force_row L ps i n v) (take n fs) ++ drop n fs).
Proof.
  intros n Hn. unfold evaluate_lj_forces. fold n.
  rewrite outer_loop by exact Hn.
  rewrite (for_loop_update (fun i v => force_row L ps i n v)) by exact Hn.
  reflexivity.
Qed.

(** ** Sums *)

Lemma Qsum_0 (a : nat -> Q) : Qsum 0 a = 0.
Proof. reflexivity. Qed.

Lemma Qsum_S (n : nat) (a : nat -> Q) : Qsum (S n) a = Qsum n a + a n.
Proof. unfold Qsum. rewrite for_loop_S. reflexivity. Qed.

Lemma Qsum_ext (n : nat) (a b : nat -> Q) :
  (forall i, (i < n)%nat -> a i == b i) -> Qsum n a == Qsum n b.
Proof.
  intros H. induction n as [|n IH]; [reflexivity|].
  rewrite !Qsum_S, IH, H by (intros; try apply H; lia). reflexivity.
Qed.

Lemma Qsum_plus (n : nat) (a b : nat -> Q) :
  Qsum n (fun i => a i + b i) == Qsum n a + Qsum n b.
Proof.
  induction n as [|n IH]; [reflexivity|].
  rewrite !Qsum_S, IH. ring.
Qed.

(** A double sum of antisymmetric terms vanishes. *)
Lemma Qsum_antisymmetric (n : nat) (a : nat -> nat -> Q) :
  (forall i j, (i < n)%nat -> (j < n)%nat -> a i j == - a j i) ->
  Qsum n (fun i => Qsum n (fun j => a i j)) == 0.
Proof.
  induction n as [|n IH]; intros Ha; [reflexivity|].
  rewrite Qsum_S.
  rewrite (Qsum_ext n _ (fun i => Qsum n (fun j => a i j) + a i n))
    by (intros; rewrite Qsum_S; reflexivity).
  rewrite Qsum_plus, IH by (intros; apply Ha; lia).
  rewrite Qsum_S.
  rewrite (Qsum_ext n (fun i => a i n) (fun i => - a n i))
    by (intros; apply Ha; lia).
  assert (Hnn : a n n == 0) by (pose proof (Ha n n ltac:(lia) ltac:(lia)); lra).
  assert (Hopp : forall m, Qsum m (fun i => - a n i)
                           == - Qsum m (fun j => a n j)).
  { intros m. induction m as [|m IHm]; [reflexivity|].
    rewrite !Qsum_S, IHm. ring. }
  rewrite Hopp, Hnn. ring.
Qed.

Lemma veq_coord (u v : vec3) : veq u v <-> forall k, coord k u == coord k v.
Proof.
  split.
  - intros (E0 & E1 & E2) [| |]; assumption.
  - intros E. exact (conj (E Axis0) (conj (E Axis1) (E Axis2))).
Qed.

Lemma coord_vadd (k : axis) (u w : vec3) :
  coord k (vadd u w) = coord k u + coord k w.
Proof. destruct k; reflexivity. Qed.

Lemma force_row_coord (k : axis) (L : Q) (ps : list vec3) (i m : nat)
    (v : vec3) :
  coord k (force_row L ps i m v)
  == coord k v
     + Qsum m (fun j => if decide (i <> j)
                        then coord k (pair_force L ps i j) else 0).
Proof.
  unfold force_row. induction m as [|m IH].
  - rewrite for_loop_0, Qsum_0. ring.
  - rewrite for_loop_S, Qsum_S.
    destruct (decide (i <> m)).
    + rewrite coord_vadd, IH. ring.
    + rewrite IH. ring.
Qed.

Lemma energy_row_sum (g : globals) (L : Q) (ps : list vec3) (i m : nat)
    (e : Q) :
  energy_row g L ps i m e
  == e + Qsum m (fun j => if decide (i <> j)
                          then pair_energy g L ps i j else 0).
Proof.
  unfold energy_row. induction m as [|m IH].
  - rewrite for_loop_0, Qsum_0. ring.
  - rewrite for_loop_S, Qsum_S.
    destruct (decide (i <> m)); rewrite IH; ring.
Qed.

Lemma energy_rows_sum (g : globals) (L : Q) (ps : list vec3) (n m : nat)
    (e : Q) :
  for_loop m (fun i e => energy_row g L ps i n e) e
  == e + Qsum m (fun i => Qsum n (fun j =>
           if decide (i <> j) then pair_energy g L ps i j else 0)).
Proof.
  induction m as [|m IH].
  - rewrite for_loop_0, Qsum_0. ring.
  - rewrite for_loop_S, Qsum_S, energy_row_sum, IH. ring.
Qed.

Lemma total_snoc (k : axis) (fs : list vec3) (v : vec3) :
  coord k (total (fs ++ [v])) == coord k (total fs) + coord k v.
Proof.
  unfold total. induction fs as [|u fs IH].
  - simpl app. simpl fold_right. rewrite !coord_vadd. destruct k; simpl; ring.
  - change ((u :: fs) ++ [v]) with (u :: (fs ++ [v])). simpl fold_right.
    rewrite !coord_vadd, IH. ring.
Qed.

Lemma total_coord (k : axis) (fs : list vec3) :
  coord k (total fs) == Qsum (length fs) (fun i => coord k (fs !!! i)).
Proof.
  induction fs as [|v fs IH] using rev_ind.
  - destruct k; reflexivity.
  - rewrite total_snoc, length_app, Nat.add_1_r, Qsum_S, IH.
    rewrite list_lookup_total_middle by reflexivity.
    apply Qplus_inj_r. apply Qsum_ext. intros i Hi.
    rewrite lookup_total_app_l by exact Hi. reflexivity.
Qed.

(** The pair terms are antisymmetric in a cell of non-negative edge. *)
Lemma pair_force_antisymmetric (k : axis) (L : Q) (ps : list vec3)
    (i j : nat) :
  0 <= L ->
  coord k (pair_force L ps j i) == - coord k (pair_force L ps i j).
Proof.
  intros HL. unfold pair_force.
  pose proof (norm2_displacement_sym L (ps !!! i) (ps !!! j) HL) as Er.
  destruct (displacement_opp L (ps !!! i) (ps !!! j) HL) as (E0 & E1 & E2).
  simpl in E0, E1, E2.
  destruct k; simpl; rewrite Er, ?E0, ?E1, ?E2; ring.
Qed.

(** * The generator of the program *)

(** The check value that the C++ standard gives for [mt19937]: the 10000th
    word of an engine seeded with the default seed 5489. *)
Example mt19937_10000th_word :
  (StdRandom.next
     (StdRandom.discard (Z.to_nat 9999) (StdRandom.seed 5489))).1
  = 4123659995%Z.
Proof. vm_compute. reflexivity. Qed.

Lemma next_range (g : StdRandom.mersenne_twister) :
  (0 <= (StdRandom.next g).1 < 2 ^ 32)%Z.
Proof. unfold StdRandom.next. simpl. apply Z.mod_pos_bound. lia. Qed.

Lemma generate_canonical_range (g : StdRandom.mersenne_twister) :
  0 <= (StdRandom.generate_canonical g).1
  /\ (StdRandom.generate_canonical g).1 < 1.
Proof.
  unfold StdRandom.generate_canonical.
  pose proof (next_range g) as Hlo.
  destruct (StdRandom.next g) as [lo g1].
  pose proof (next_range g1) as Hhi.
  destruct (StdRandom.next g1) as [hi g2]. simpl in *.
  assert (H64 : 0 < inject_Z (2 ^ 64)) by reflexivity.
  split.
  - apply Qle_shift_div_l; [exact H64|].
    rewrite Qmult_0_l, <- (Zle_Qle 0). lia.
  - apply Qlt_shift_div_r; [exact H64|].
    rewrite Qmult_1_l, <- Zlt_Qlt. lia.
Qed.

Lemma uniform_real_range (g : StdRandom.mersenne_twister) :
  - (1 # 2) <= (StdRandom.uniform_real (- (1 # 2)) (1 # 2) g).1
  /\ (StdRandom.uniform_real (- (1 # 2)) (1 # 2) g).1 < 1 # 2.
Proof.
  unfold StdRandom.uniform_real.
  pose proof (generate_canonical_range g) as [H0 H1].
  destruct (StdRandom.generate_canonical g) as [u g1]. simpl in *.
  split; lra.
Qed.

(** * Rounding to the nearest double *)

Lemma inject_Z_pred (z : Z) : inject_Z (z - 1) == inject_Z z - 1.
Proof.
  unfold Z.sub. rewrite inject_Z_plus, inject_Z_opp. reflexivity.
Qed.

Lemma inject_Z_succ (z : Z) : inject_Z (z + 1) == inject_Z z + 1.
Proof. rewrite inject_Z_plus. reflexivity. Qed.

Lemma round_half_even_spec (q : Q) : nearest_even q (round_half_even q).
Proof.
  unfold round_half_even, nearest_even.
  set (z := Qfloor (q + (1 # 2))).
  pose proof (Qfloor_le (q + (1 # 2))) as Hlo.
  pose proof (Qlt_floor (q + (1 # 2))) as Hhi.
  fold z in Hlo, Hhi. rewrite inject_Z_succ in Hhi.
  destruct (Qeq_bool (q + (1 # 2)) (inject_Z z)) eqn:Etie; simpl.
  - apply Qeq_bool_iff in Etie.
    destruct (Z.odd z) eqn:Eodd.
    + rewrite inject_Z_pred. split; [lra|]. split; [lra|].
      intros _. rewrite Z.even_sub, <- Z.negb_odd, Eodd. reflexivity.
    + split; [lra|]. split; [lra|].
      intros _. rewrite <- Z.negb_odd, Eodd. reflexivity.
  - apply Qeq_bool_neq in Etie.
    split; [lra|]. split; [lra|].
    intros [H|H]; exfalso; [apply Etie; lra | lra].
Qed.

Lemma nearest_even_unique (q : Q) (z z' : Z) :
  nearest_even q z -> nearest_even q z' -> z = z'.
Proof.
  intros (Hlo & Hhi & Hev) (Hlo' & Hhi' & Hev').
  assert (H1 : (z <= z' + 1)%Z).
  { rewrite Zle_Qle, inject_Z_succ. lra. }
  assert (H2 : (z' <= z + 1)%Z).
  { rewrite Zle_Qle, inject_Z_succ. lra. }
  destruct (Z.eq_dec z z') as [E|NE]; [exact E|exfalso].
  assert (Hcase : z' = (z + 1)%Z \/ z = (z' + 1)%Z) by lia.
  destruct Hcase as [E|E].
  - subst z'. rewrite inject_Z_succ in *.
    assert (Ez : Z.even z = true) by (apply Hev; right; lra).
    assert (Ez' : Z.even (z + 1) = true) by (apply Hev'; left; lra).
    rewrite Z.even_add, Ez in Ez'. discriminate.
  - subst z. rewrite inject_Z_succ in *.
    assert (Ez : Z.even z' = true) by (apply Hev'; right; lra).
    assert (Ez' : Z.even (z' + 1) = true) by (apply Hev; left; lra).
    rewrite Z.even_add, Ez in Ez'. discriminate.
Qed.

Lemma round_half_even_comp (q q' : Q) :
  q == q' -> round_half_even q = round_half_even q'.
Proof.
  intros E. apply (nearest_even_unique q'); [|apply round_half_even_spec].
  destruct (round_half_even_spec q) as (Hlo & Hhi & Hev).
  split; [lra|]. split; [lra|].
  intros [H|H]; apply Hev; [left|right]; lra.
Qed.

Lemma round_half_even_Z (z : Z) : round_half_even (inject_Z z) = z.
Proof.
  apply (nearest_even_unique (inject_Z z)); [apply round_half_even_spec|].
  split; [lra|]. split; [lra|]. intros [H|H]; exfalso; lra.
Qed.

Lemma round_half_even_opp (q : Q) :
  round_half_even (- q) = (- round_half_even q)%Z.
Proof.
  apply (nearest_even_unique (- q)); [apply round_half_even_spec|].
  destruct (round_half_even_spec q) as (Hlo & Hhi & Hev).
  unfold nearest_even. rewrite inject_Z_opp.
  split; [lra|]. split; [lra|].
  intros [H|H]; rewrite Z.even_opp; apply Hev; [right|left]; lra.
Qed.

Lemma round_half_even_monotone (q q' : Q) :
  q <= q' -> (round_half_even q <= round_half_even q')%Z.
Proof.
  intros Hle.
  destruct (round_half_even_spec q) as (Hlo & Hhi & Hev).
  destruct (round_half_even_spec q') as (Hlo' & Hhi' & Hev').
  set (z := round_half_even q) in *. set (z' := round_half_even q') in *.
  destruct (Z_le_gt_dec z z') as [H|H]; [exact H|exfalso].
  assert (H1 : (z <= z' + 1)%Z).
  { rewrite Zle_Qle, inject_Z_succ. lra. }
  assert (E : z = (z' + 1)%Z) by lia.
  rewrite E, inject_Z_succ in *.
  assert (Ez : Z.even (z' + 1) = true) by (apply Hev; left; lra).
  assert (Ez' : Z.even z' = true) by (apply Hev'; right; lra).
  rewrite Z.even_add, Ez' in Ez. discriminate.
Qed.

(** ** Powers of two and binades *)

Lemma pow2_pos (e : Z) : 0 < 2 ^ e.
Proof. apply Qpower_0_lt. reflexivity. Qed.

Lemma pow2_plus (a b : Z) : 2 ^ (a + b) == 2 ^ a * 2 ^ b.
Proof. apply Qpower_plus. discriminate. Qed.

Lemma pow2_succ (e : Z) : 2 ^ (e + 1) == 2 * 2 ^ e.
Proof. rewrite pow2_plus. change (2 ^ 1) with 2. ring. Qed.

Lemma pow2_pred (e : Z) : 2 ^ (e - 1) == (1 # 2) * 2 ^ e.
Proof.
  assert (H : 2 ^ e == 2 * 2 ^ (e - 1)).
  { rewrite <- pow2_succ. replace (e - 1 + 1)%Z with e by lia. reflexivity. }
  rewrite H. ring.
Qed.

Lemma pow2_le (a b : Z) : (a <= b)%Z -> 2 ^ a <= 2 ^ b.
Proof. intros H. apply Qpower_le_compat_l; [exact H|discriminate]. Qed.

Lemma pow2_inject (a : Z) : (0 <= a)%Z -> inject_Z (2 ^ a) == 2 ^ a.
Proof. intros H. rewrite Zpower_Qpower by exact H. reflexivity. Qed.

(** A positive number lies in one binade only. *)
Lemma binade_unique (v : Q) (b b' : Z) :
  2 ^ b <= v -> v < 2 ^ (b + 1) ->
  2 ^ b' <= v -> v < 2 ^ (b' + 1) -> b = b'.
Proof.
  intros Hlo Hhi Hlo' Hhi'.
  destruct (Z.lt_trichotomy b b') as [H|[H|H]]; [exfalso|exact H|exfalso].
  - pose proof (pow2_le (b + 1) b' ltac:(lia)). lra.
  - pose proof (pow2_le (b' + 1) b ltac:(lia)). lra.
Qed.

Lemma Qabs_make (q : Q) :
  Qabs q * inject_Z (Z.pos (Qden q)) == inject_Z (Z.abs (Qnum q)).
Proof.
  destruct q as [n d]. unfold Qabs. simpl Qnum. simpl Qden.
  rewrite (Qmake_Qdiv (Z.abs n) d). field.
  intros H. discriminate.
Qed.

Lemma binade_spec (q : Q) :
  ~ q == 0 -> 2 ^ binade q <= Qabs q /\ Qabs q < 2 ^ (binade q + 1).
Proof.
  intros Hq. unfold binade.
  set (N := Z.abs (Qnum q)). set (D := Z.pos (Qden q)).
  assert (HN : (0 < N)%Z).
  { unfold N. destruct q as [[|n|n] d]; simpl; try lia.
    exfalso. apply Hq. reflexivity. }
  assert (HD : (0 < D)%Z) by (unfold D; lia).
  pose proof (Z.log2_spec N HN) as [Ha1 Ha2].
  pose proof (Z.log2_spec D HD) as [Hc1 Hc2].
  pose proof (Z.log2_nonneg N) as Ha0.
  pose proof (Z.log2_nonneg D) as Hc0.
  set (a := Z.log2 N) in *. set (c := Z.log2 D) in *.
  pose proof (Qabs_make q) as Hv. fold N D in Hv.
  set (v := Qabs q) in *.
  rewrite Zle_Qle, pow2_inject in Ha1, Hc1 by lia.
  rewrite Zlt_Qlt, pow2_inject in Ha2, Hc2 by lia.
  replace (Z.succ a) with (a + 1)%Z in Ha2 by lia.
  replace (Z.succ c) with (c + 1)%Z in Hc2 by lia.
  rewrite pow2_succ in Ha2, Hc2.
  assert (Ea : 2 ^ a == 2 ^ (a - c) * 2 ^ c).
  { rewrite <- pow2_plus. replace (a - c + c)%Z with a by lia. reflexivity. }
  pose proof (pow2_pos (a - c)) as Hp. pose proof (pow2_pos c) as Hpc.
  pose proof (pow2_pos a) as Hpa.
  set (P := 2 ^ (a - c)) in *. set (C := 2 ^ c) in *. set (A := 2 ^ a) in *.
  set (n := inject_Z N) in *. set (d := inject_Z D) in *.
  assert (Hv0 : 0 <= v) by apply Qabs_nonneg.
  assert (Hupper : v < 2 * P).
  { destruct (Qlt_le_dec v (2 * P)) as [H|H]; [exact H|exfalso].
    assert (2 * P * C <= v * d) by nra. nra. }
  assert (Hlower : (1 # 2) * P < v).
  { destruct (Qlt_le_dec ((1 # 2) * P) v) as [H|H]; [exact H|exfalso].
    assert (v * d <= (1 # 2) * P * d) by nra. nra. }
  destruct (Qle_bool P v) eqn:E.
  - apply Qle_bool_iff in E. rewrite pow2_succ. fold P. split; lra.
  - assert (E' : v < P).
    { apply Qnot_le_lt. intros H. apply Qle_bool_iff in H. congruence. }
    replace (a - c - 1 + 1)%Z with (a - c)%Z by lia.
    rewrite pow2_pred. fold P. split; lra.
Qed.

Lemma binade_eq (q : Q) (b : Z) :
  2 ^ b <= Qabs q -> Qabs q < 2 ^ (b + 1) -> binade q = b.
Proof.
  intros Hlo Hhi.
  assert (Hq : ~ q == 0).
  { intros E. rewrite E in Hlo. pose proof (pow2_pos b).
    change (Qabs 0) with 0 in Hlo. lra. }
  destruct (binade_spec q Hq) as [Hlo' Hhi'].
  exact (binade_unique (Qabs q) _ _ Hlo' Hhi' Hlo Hhi).
Qed.

Lemma binade_comp (q q' : Q) :
  ~ q == 0 -> q == q' -> binade q = binade q'.
Proof.
  intros Hq E.
  assert (Hq' : ~ q' == 0) by (rewrite <- E; exact Hq).
  destruct (binade_spec q' Hq') as [Hlo Hhi].
  apply binade_eq; rewrite E; assumption.
Qed.

Lemma binade_opp (q : Q) : ~ q == 0 -> binade (- q) = binade q.
Proof.
  intros Hq. destruct (binade_spec q Hq) as [Hlo Hhi].
  apply binade_eq; rewrite Qabs_opp; assumption.
Qed.

(** ** The double nearest to a rational *)

(** For [q <> 0] the result is an integer of 53 bits times the unit in the
    last place of [q]. *)
Lemma binary64_nonzero_unfold (q : Q) :
  ~ q == 0 ->
  binary64 q
  = inject_Z (round_half_even (q / 2 ^ (binade q - 52))) * 2 ^ (binade q - 52).
Proof.
  intros Hq. unfold binary64.
  destruct (Qeq_bool q 0) eqn:E; [|reflexivity].
  apply Qeq_bool_iff in E. contradiction.
Qed.

Lemma binary64_zero (q : Q) : q == 0 -> binary64 q = 0.
Proof.
  intros Hq. unfold binary64.
  destruct (Qeq_bool q 0) eqn:E; [reflexivity|].
  apply Qeq_bool_neq in E. contradiction.
Qed.

Lemma scaled_range (q : Q) :
  0 < q ->
  inject_Z (2 ^ 52) <= q / 2 ^ (binade q - 52)
  /\ q / 2 ^ (binade q - 52) < inject_Z (2 ^ 53).
Proof.
  intros Hq.
  assert (Hq0 : ~ q == 0) by lra.
  destruct (binade_spec q Hq0) as [Hlo Hhi].
  rewrite Qabs_pos in Hlo, Hhi by lra.
  rewrite pow2_succ in Hhi.
  assert (E : 2 ^ binade q == 2 ^ 52 * 2 ^ (binade q - 52)).
  { rewrite <- pow2_plus.
    replace (52 + (binade q - 52))%Z with (binade q) by lia.
    reflexivity. }
  pose proof (pow2_pos (binade q - 52)) as Hu.
  set (u := 2 ^ (binade q - 52)) in *.
  rewrite E in Hlo, Hhi.
  change (inject_Z (2 ^ 52)) with (2 ^ 52).
  change (inject_Z (2 ^ 53)) with (2 * 2 ^ 52).
  split.
  - apply Qle_shift_div_l; [exact Hu|exact Hlo].
  - apply Qlt_shift_div_r; [exact Hu|lra].
Qed.

Lemma significand_range (q : Q) :
  0 < q ->
  (2 ^ 52 <= round_half_even (q / 2 ^ (binade q - 52)) <= 2 ^ 53)%Z.
Proof.
  intros Hq. destruct (scaled_range q Hq) as [Hlo Hhi].
  split.
  - rewrite <- (round_half_even_Z (2 ^ 52)%Z).
    apply round_half_even_monotone. exact Hlo.
  - rewrite <- (round_half_even_Z (2 ^ 53)%Z).
    apply round_half_even_monotone. lra.
Qed.

Lemma binary64_opp (q : Q) : binary64 (- q) == - binary64 q.
Proof.
  destruct (Qeq_dec q 0) as [E|NE].
  - rewrite (binary64_zero q E), (binary64_zero (- q)) by lra. reflexivity.
  - assert (NE' : ~ - q == 0) by lra.
    rewrite (binary64_nonzero_unfold q NE), (binary64_nonzero_unfold _ NE').
    rewrite (binade_opp q NE).
    assert (Hdiv : - q / 2 ^ (binade q - 52) == - (q / 2 ^ (binade q - 52))).
    { field. pose proof (pow2_pos (binade q - 52)). lra. }
    rewrite (round_half_even_comp _ _ Hdiv), round_half_even_opp.
    rewrite inject_Z_opp. ring.
Qed.

(** An integer of 53 bits times a power of two is a double. *)
Lemma binary64_representable (m e : Z) :
  (2 ^ 52 <= m <= 2 ^ 53)%Z ->
  binary64 (inject_Z m * 2 ^ e) == inject_Z m * 2 ^ e.
Proof.
  intros [Hlo Hhi].
  pose proof (pow2_pos e) as Hu.
  assert (Hm : inject_Z (2 ^ 52) <= inject_Z m)
    by (rewrite <- Zle_Qle; exact Hlo).
  assert (Hm' : inject_Z m <= inject_Z (2 ^ 53))
    by (rewrite <- Zle_Qle; exact Hhi).
  change (inject_Z (2 ^ 52)) with (2 ^ 52) in Hm.
  change (inject_Z (2 ^ 53)) with (2 * 2 ^ 52) in Hm'.
  assert (H52 : 0 < 2 ^ 52) by reflexivity.
  set (x := inject_Z m * 2 ^ e).
  assert (Hx : 0 < x) by (unfold x; nra).
  assert (NE : ~ x == 0) by lra.
  rewrite (binary64_nonzero_unfold x NE).
  destruct (Z.eq_dec m (2 ^ 53)%Z) as [Etop|Ntop].
  - assert (Eb : binade x = (e + 53)%Z).
    { apply binade_eq; rewrite Qabs_pos by lra; unfold x; subst m.
      - rewrite pow2_plus. change (inject_Z (2 ^ 53)) with (2 ^ 53). lra.
      - rewrite pow2_succ, pow2_plus. change (inject_Z (2 ^ 53)) with (2 ^ 53).
        nra. }
    rewrite Eb. replace (e + 53 - 52)%Z with (e + 1)%Z by lia.
    assert (Hdiv : x / 2 ^ (e + 1) == inject_Z (2 ^ 52)).
    { unfold x. subst m. rewrite pow2_succ.
      change (inject_Z (2 ^ 53)) with (2 * inject_Z (2 ^ 52)). field. lra. }
    rewrite (round_half_even_comp _ _ Hdiv), round_half_even_Z.
    unfold x. subst m. rewrite pow2_succ.
    change (inject_Z (2 ^ 53)) with (2 * inject_Z (2 ^ 52)). ring.
  - assert (Hlt : inject_Z m < 2 * 2 ^ 52).
    { change (2 * 2 ^ 52) with (inject_Z (2 ^ 53)). rewrite <- Zlt_Qlt. lia. }
    assert (Eb : binade x = (e + 52)%Z).
    { apply binade_eq; rewrite Qabs_pos by lra; unfold x.
      - rewrite pow2_plus. nra.
      - rewrite pow2_succ, pow2_plus. nra. }
    rewrite Eb. replace (e + 52 - 52)%Z with e by lia.
    assert (Hdiv : x / 2 ^ e == inject_Z m) by (unfold x; field; lra).
    rewrite (round_half_even_comp _ _ Hdiv), round_half_even_Z.
    reflexivity.
Qed.

Lemma binary64_comp (x y : Q) : x == y -> binary64 x == binary64 y.
Proof.
  intros E.
  destruct (Qeq_dec x 0) as [Z0|NE].
  - rewrite (binary64_zero x Z0), (binary64_zero y) by lra. reflexivity.
  - assert (NE' : ~ y == 0) by lra.
    rewrite (binary64_nonzero_unfold x NE), (binary64_nonzero_unfold y NE').
    rewrite <- (binade_comp x y NE E).
    assert (Hdiv : x / 2 ^ (binade x - 52) == y / 2 ^ (binade x - 52))
      by (unfold Qdiv; apply Qmult_comp; [exact E|reflexivity]).
    rewrite (round_half_even_comp _ _ Hdiv). reflexivity.
Qed.

Lemma binary64_positive (q : Q) : 0 < q -> 0 < binary64 q.
Proof.
  intros Hq. rewrite binary64_nonzero_unfold by lra.
  pose proof (significand_range q Hq) as [Hlo _].
  pose proof (pow2_pos (binade q - 52)) as Hu.
  assert (0 < inject_Z (round_half_even (q / 2 ^ (binade q - 52)))).
  { change 0 with (inject_Z 0). rewrite <- Zlt_Qlt. lia. }
  nra.
Qed.

Lemma binary64_idempotent_pos (q : Q) :
  0 < q -> binary64 (binary64 q) == binary64 q.
Proof.
  intros Hq. rewrite (binary64_nonzero_unfold q) by lra.
  apply binary64_representable. apply significand_range. exact Hq.
Qed.

Lemma binary64_monotone_pos (x y : Q) :
  0 < x -> x <= y -> binary64 x <= binary64 y.
Proof.
  intros Hx Hxy.
  assert (Hy : 0 < y) by lra.
  destruct (binade_spec x ltac:(lra)) as [Hxlo Hxhi].
  destruct (binade_spec y ltac:(lra)) as [Hylo Hyhi].
  rewrite Qabs_pos in Hxlo, Hxhi, Hylo, Hyhi by lra.
  assert (Hb : (binade x <= binade y)%Z).
  { destruct (Z_le_gt_dec (binade x) (binade y)) as [H|H]; [exact H|exfalso].
    pose proof (pow2_le (binade y + 1) (binade x) ltac:(lia)). lra. }
  rewrite (binary64_nonzero_unfold x), (binary64_nonzero_unfold y) by lra.
  pose proof (significand_range x Hx) as [_ Hmx].
  pose proof (significand_range y Hy) as [Hmy _].
  pose proof (pow2_pos (binade x - 52)) as Hux.
  pose proof (pow2_pos (binade y - 52)) as Huy.
  destruct (Z.eq_dec (binade x) (binade y)) as [E|NE].
  - rewrite E in *.
    assert (Hq : x / 2 ^ (binade y - 52) <= y / 2 ^ (binade y - 52)).
    { apply Qmult_le_compat_r; [exact Hxy|].
      apply Qlt_le_weak, Qinv_lt_0_compat. exact Huy. }
    apply round_half_even_monotone in Hq. rewrite Zle_Qle in Hq.
    apply Qmult_le_compat_r; [exact Hq|lra].
  - rewrite Zle_Qle in Hmx, Hmy.
    change (inject_Z (2 ^ 53)) with (2 * 2 ^ 52) in Hmx.
    change (inject_Z (2 ^ 52)) with (2 ^ 52) in Hmy.
    assert (Hstep : 2 * 2 ^ 52 * 2 ^ (binade x - 52)
                    <= 2 ^ 52 * 2 ^ (binade y - 52)).
    { assert (E1 : 2 * 2 ^ 52 * 2 ^ (binade x - 52) == 2 ^ (binade x + 1)).
      { rewrite pow2_succ.
        replace (binade x) with (52 + (binade x - 52))%Z at 2 by lia.
        rewrite pow2_plus. ring. }
      assert (E2 : 2 ^ 52 * 2 ^ (binade y - 52) == 2 ^ binade y).
      { replace (binade y) with (52 + (binade y - 52))%Z at 2 by lia.
        rewrite pow2_plus. reflexivity. }
      rewrite E1, E2. apply pow2_le. lia. }
    set (mx := inject_Z (round_half_even (x / 2 ^ (binade x - 52)))) in *.
    set (my := inject_Z (round_half_even (y / 2 ^ (binade y - 52)))) in *.
    assert (H52 : 0 < 2 ^ 52) by reflexivity.
    apply Qle_trans with (2 * 2 ^ 52 * 2 ^ (binade x - 52)); [nra|].
    apply Qle_trans with (2 ^ 52 * 2 ^ (binade y - 52)); [exact Hstep|nra].
Qed.

Lemma binary64_monotone (x y : Q) : x <= y -> binary64 x <= binary64 y.
Proof.
  intros Hxy.
  destruct (Q_dec 0 y) as [[Hy|Hy]|Hy].
  - destruct (Qlt_le_dec 0 x) as [Hx|Hx].
    + apply binary64_monotone_pos; assumption.
    + pose proof (binary64_positive y Hy).
      destruct (Qeq_dec x 0) as [E|NE].
      * rewrite (binary64_zero x E). lra.
      * pose proof (binary64_positive (- x) ltac:(lra)) as H1.
        rewrite binary64_opp in H1. lra.
  - pose proof (binary64_monotone_pos (- y) (- x) ltac:(lra) ltac:(lra)) as H.
    rewrite !binary64_opp in H. lra.
  - rewrite (binary64_zero y) by lra.
    destruct (Qeq_dec x 0) as [E|NE].
    + rewrite (binary64_zero x E). lra.
    + pose proof (binary64_positive (- x) ltac:(lra)) as H1.
      rewrite binary64_opp in H1. lra.
Qed.

Lemma binary64_idempotent (q : Q) : binary64 (binary64 q) == binary64 q.
Proof.
  destruct (Q_dec 0 q) as [[Hq|Hq]|Hq].
  - apply binary64_idempotent_pos. exact Hq.
  - pose proof (binary64_idempotent_pos (- q) ltac:(lra)) as H.
    rewrite (binary64_comp _ _ (binary64_opp q)), binary64_opp in H.
    rewrite binary64_opp in H. lra.
  - rewrite (binary64_zero q) by lra. reflexivity.
Qed.

(** A double other than zero, taken apart. *)
Lemma binary64_decompose (x : Q) :
  0 < x -> binary64 x == x ->
  exists m e, (2 ^ 52 <= m <= 2 ^ 53)%Z /\ x == inject_Z m * 2 ^ e.
Proof.
  intros Hx E.
  exists (round_half_even (x / 2 ^ (binade x - 52))), (binade x - 52)%Z.
  split; [apply significand_range; exact Hx|].
  rewrite <- E at 1. rewrite binary64_nonzero_unfold by lra. reflexivity.
Qed.

Lemma binary64_scale_pos (x : Q) (k : Z) :
  0 < x -> binary64 x == x -> binary64 (2 ^ k * x) == 2 ^ k * x.
Proof.
  intros Hx E.
  destruct (binary64_decompose x Hx E) as (m & e & Hm & Ex).
  assert (E2 : 2 ^ k * x == inject_Z m * 2 ^ (e + k)).
  { rewrite Ex, pow2_plus. ring. }
  rewrite (binary64_comp _ _ E2), E2.
  apply binary64_representable. exact Hm.
Qed.

Lemma binary64_scale (x : Q) (k : Z) :
  binary64 x == x -> binary64 (2 ^ k * x) == 2 ^ k * x.
Proof.
  intros E.
  destruct (Q_dec 0 x) as [[Hx|Hx]|Hx].
  - apply binary64_scale_pos; assumption.
  - assert (E' : binary64 (- x) == - x)
      by (rewrite binary64_opp, E; reflexivity).
    pose proof (binary64_scale_pos (- x) k ltac:(lra) E') as H.
    assert (E2 : 2 ^ k * - x == - (2 ^ k * x)) by ring.
    rewrite (binary64_comp _ _ E2), binary64_opp in H. lra.
  - rewrite (binary64_zero (2 ^ k * x)) by (rewrite <- Hx; ring).
    rewrite <- Hx. ring.
Qed.

Lemma binary64_not_zero (x : Q) : binary64 x == 0 -> x == 0.
Proof.
  intros E.
  destruct (Q_dec 0 x) as [[Hx|Hx]|Hx].
  - pose proof (binary64_positive x Hx). lra.
  - pose proof (binary64_positive (- x) ltac:(lra)) as H.
    rewrite binary64_opp in H. lra.
  - symmetry. exact Hx.
Qed.

(** Rounding to the nearest double has the properties the statements
    use. *)
Lemma binary64_rounding : rounding binary64.
Proof.
  split.
  - apply binary64_comp.
  - apply binary64_monotone.
  - apply binary64_idempotent.
  - apply binary64_opp.
  - intros x E _. apply (binary64_scale x 1 E).
  - intros x E _. apply (binary64_scale x (-1) E).
  - intros x y _ _. apply binary64_not_zero.
Qed.

(** So has no rounding at all. *)
Lemma exact_rounding : rounding (fun q => q).
Proof.
  split; intros; try assumption; try reflexivity.
Qed.

(** [binary64] gives what the machine gives on the roundings that decide
    the counterexamples below (a tie that goes to the even neighbour, two
    sums that round up to a power of two and to the box size) and on a
    product and two quotients. *)
Example binary64_is_the_rounding_of_the_machine :
  double_value (0x1p-51 - 0x1.6000000000001p+2)%float
  == binary64 ((1 # 2 ^ 51) - ((11 # 2) + (1 # 2 ^ 50)))
  /\ double_value (0x1.fffffffffffffp-1 + 1)%float
     == binary64 ((1 - (1 # 2 ^ 53)) + 1)
  /\ double_value (- 0x1p-60 + 20)%float == binary64 (- (1 # 2 ^ 60) + 20)
  /\ double_value (0x1.3ffffffffffffp+1 * 0x1.3ffffffffffffp+1)%float
     == binary64 (((5 # 2) - (1 # 2 ^ 51)) * ((5 # 2) - (1 # 2 ^ 51)))
  /\ double_value (1 / 2.25)%float == binary64 (1 / (9 # 4))
  /\ double_value (1 / 3)%float == binary64 (1 / 3)
  /\ double_value 0x1.3ffffffffffffp+1%float == (5 # 2) - (1 # 2 ^ 51)
  /\ double_value 0x1.6000000000001p+2%float == (11 # 2) + (1 # 2 ^ 50).
Proof. vm_compute. repeat split. Qed.

(** * The program in rounded arithmetic: results *)

Section RoundedFacts.

Variable rnd : Q -> Q.
Hypothesis Hrnd : rounding rnd.

Lemma rnd_zero : rnd 0 == 0.
Proof.
  pose proof (rnd_opp rnd Hrnd 0) as H.
  rewrite (rnd_proper rnd Hrnd (- 0) 0) in H by reflexivity. lra.
Qed.

Lemma rnd_nonneg (x : Q) : 0 <= x -> 0 <= rnd x.
Proof.
  intros H. rewrite <- rnd_zero. apply (rnd_monotone rnd Hrnd). exact H.
Qed.

Lemma rnd_nonpos (x : Q) : x <= 0 -> rnd x <= 0.
Proof.
  intros H. rewrite <- rnd_zero. apply (rnd_monotone rnd Hrnd). exact H.
Qed.

Lemma rnd_le_double (x y : Q) : rnd y == y -> x <= y -> rnd x <= y.
Proof.
  intros Hy H. rewrite <- Hy. apply (rnd_monotone rnd Hrnd). exact H.
Qed.

Lemma rnd_ge_double (x y : Q) : rnd y == y -> y <= x -> y <= rnd x.
Proof.
  intros Hy H. rewrite <- Hy. apply (rnd_monotone rnd Hrnd). exact H.
Qed.

Lemma rnd_opp_double (x : Q) : rnd x == x -> rnd (- x) == - x.
Proof. intros H. rewrite (rnd_opp rnd Hrnd), H. reflexivity. Qed.

Lemma min_normal_pos : 0 < min_normal.
Proof. reflexivity. Qed.

Lemma normal_box_pos (L : Q) : normal_box L -> 0 < L.
Proof. intros [H _]. pose proof min_normal_pos. lra. Qed.

(** ** The periodic wrap *)

(** A double within one box length of the cell is wrapped into it. *)
Lemma rounded_wrap_range (L q : Q) :
  0 < L -> 2 * min_normal <= L -> rnd L == L -> rnd q == q ->
  - L <= q -> q < 2 * L ->
  0 <= Rounded.wrap rnd L q /\ Rounded.wrap rnd L q < L.
Proof.
  intros HL Hmin HrL Hrq Hlo Hhi. unfold Rounded.wrap, Rounded.add, Rounded.sub.
  destruct (Qltb q 0) eqn:E1; [apply Qltb_lt in E1 | apply Qltb_ge in E1].
  - assert (H0 : 0 <= rnd (q + L)) by (apply rnd_nonneg; lra).
    assert (H1 : rnd (q + L) <= L) by (apply rnd_le_double; [exact HrL|lra]).
    destruct (Qgeb (rnd (q + L)) L) eqn:E2;
      [apply Qgeb_ge in E2 | apply Qgeb_lt in E2].
    + rewrite (rnd_proper rnd Hrnd (rnd (q + L) - L) 0) by lra.
      rewrite rnd_zero. lra.
    + lra.
  - destruct (Qgeb q L) eqn:E2; [apply Qgeb_ge in E2 | apply Qgeb_lt in E2].
    + split; [apply rnd_nonneg; lra|].
      assert (Hhalf : rnd ((1 # 2) * q) == (1 # 2) * q).
      { apply (rnd_half rnd Hrnd q Hrq). rewrite Qabs_pos by lra. lra. }
      assert (rnd (q - L) <= (1 # 2) * q)
        by (apply rnd_le_double; [exact Hhalf|lra]).
      lra.
    + lra.
Qed.

(** A double farther away than one box length is not. *)
Lemma rounded_wrap_outside (L q : Q) :
  0 < L -> rnd L == L -> rnd q == q ->
  (q < - L -> Rounded.wrap rnd L q < 0)
  /\ (2 * L <= q -> L <= Rounded.wrap rnd L q).
Proof.
  intros HL HrL Hrq. unfold Rounded.wrap, Rounded.add, Rounded.sub. split.
  - intros Hq.
    rewrite (proj2 (Qltb_lt q 0)) by lra.
    assert (H1 : rnd (q + L) <= 0) by (apply rnd_nonpos; lra).
    assert (H2 : ~ rnd (q + L) == 0).
    { intros E. apply (rnd_sum_nonzero rnd Hrnd q L Hrq HrL) in E. lra. }
    rewrite (proj2 (Qgeb_lt (rnd (q + L)) L)) by lra. lra.
  - intros Hq.
    rewrite (proj2 (Qltb_ge q 0)) by lra.
    rewrite (proj2 (Qgeb_ge q L)) by lra.
    apply rnd_ge_double; [exact HrL|lra].
Qed.

(** The sum [p + v * dt] of a position in the cell and of a displacement
    smaller than the box, both doubles, stays within one box length of the
    cell. *)
Lemma rounded_drift_range (L p d : Q) :
  0 < L -> 2 * L <= max_double ->
  rnd L == L -> rnd p == p -> rnd d == d ->
  0 <= p -> p < L -> - L < d -> d < L ->
  - L <= rnd (p + d) /\ rnd (p + d) < 2 * L.
Proof.
  intros HL Hmax HrL Hrp Hrd Hp0 Hp1 Hd0 Hd1. split.
  - apply rnd_ge_double; [apply rnd_opp_double; exact HrL|lra].
  - destruct (Qlt_le_dec p d) as [H|H].
    + assert (H2 : rnd (2 * d) == 2 * d).
      { apply (rnd_double rnd Hrnd d Hrd). rewrite Qabs_pos by lra. lra. }
      assert (rnd (p + d) <= 2 * d) by (apply rnd_le_double; [exact H2|lra]).
      lra.
    + assert (H2 : rnd (2 * p) == 2 * p).
      { apply (rnd_double rnd Hrnd p Hrp). rewrite Qabs_pos by lra. lra. }
      assert (rnd (p + d) <= 2 * p) by (apply rnd_le_double; [exact H2|lra]).
      lra.
Qed.

Lemma rounded_wrap_double (L q : Q) :
  rnd q == q -> rnd (Rounded.wrap rnd L q) == Rounded.wrap rnd L q.
Proof.
  intros Hq. unfold Rounded.wrap, Rounded.add, Rounded.sub.
  destruct (Qltb q 0);
    match goal with |- context [Qgeb ?a L] => destruct (Qgeb a L) end;
    first [exact Hq | apply (rnd_idempotent rnd Hrnd)].
Qed.

End RoundedFacts.

(** ** The integration step, loop by loop *)

Section RoundedStep.

Variable rnd : Q -> Q.

Lemma rounded_update_position_loop (dt : Q) (n : nat) (s : t) :
  for_loop n (Rounded.update_position rnd dt) s
  = set_positions
      (for_loop n (fun i ps =>
         <[i := Rounded.wrap3 rnd (box_size s)
                  (Rounded.drift rnd dt (ps !!! i) (velocities s !!! i))]> ps)
         (positions s)) s.
Proof.
  induction n as [|n IH].
  - destruct s; reflexivity.
  - rewrite !for_loop_S, IH. reflexivity.
Qed.

Lemma rounded_update_velocity_loop (dt : Q) (n : nat) (s : t) :
  for_loop n (Rounded.update_velocity rnd dt) s
  = set_velocities
      (for_loop n (fun i vs =>
         <[i := Rounded.kick rnd dt (vs !!! i) (forces s !!! i)]> vs)
         (velocities s)) s.
Proof.
  induction n as [|n IH].
  - destruct s; reflexivity.
  - rewrite !for_loop_S, IH. reflexivity.
Qed.

(** The kinetic-energy loop writes the kinetic energy only. *)
Lemma rounded_add_kinetic_loop (n : nat) (s : t) :
  exists e, for_loop n (Rounded.add_kinetic rnd) s = set_kinetic_energy e s.
Proof.
  induction n as [|n IH].
  - exists (kinetic_energy s). destruct s; reflexivity.
  - destruct IH as [e IH]. rewrite for_loop_S, IH.
    eexists. unfold Rounded.add_kinetic. destruct s; reflexivity.
Qed.

Lemma rounded_step_unfold (dt : Q) (s : t) :
  let n := Z.to_nat (nparticles s) in
  let ps := for_loop n (fun i ps =>
              <[i := Rounded.wrap3 rnd (box_size s)
                       (Rounded.drift rnd dt (ps !!! i)
                          (velocities s !!! i))]> ps)
              (positions s) in
  let fs := for_loop n (fun i fs =>
              <[i := (fun _ _ => V3 0 0 0) i (fs !!! i)]> fs) (forces s) in
  let vs := for_loop n (fun i vs =>
              <[i := Rounded.kick rnd dt (vs !!! i) (fs !!! i)]> vs)
              (velocities s) in
  exists ke,
    Rounded.step rnd dt s = Make (box_size s) 0 ke (nparticles s) ps vs fs.
Proof.
  unfold Rounded.step.
  rewrite rounded_update_position_loop.
  set (s1 := set_kinetic_energy 0 _).
  rewrite (zero_force_loop _ s1).
  set (s2 := set_forces _ s1).
  destruct (rounded_add_kinetic_loop (Z.to_nat (nparticles s)) s2) as [ke E].
  change (nparticles (set_positions _ s)) with (nparticles s).
  rewrite E, rounded_update_velocity_loop.
  exists ke. reflexivity.
Qed.

Lemma rounded_step_box_size (dt : Q) (s : t) :
  box_size (Rounded.step rnd dt s) = box_size s.
Proof. destruct (rounded_step_unfold dt s) as [ke ->]. reflexivity. Qed.

Lemma rounded_step_nparticles (dt : Q) (s : t) :
  nparticles (Rounded.step rnd dt s) = nparticles s.
Proof. destruct (rounded_step_unfold dt s) as [ke ->]. reflexivity. Qed.

Lemma rounded_step_positions (dt : Q) (s : t) :
  length (positions s) = Z.to_nat (nparticles s) ->
  positions (Rounded.step rnd dt s)
  = imap (fun i p => Rounded.wrap3 rnd (box_size s)
                       (Rounded.drift rnd dt p (velocities s !!! i)))
         (positions s).
Proof.
  intros Hp. destruct (rounded_step_unfold dt s) as [ke ->]. simpl.
  rewrite <- Hp.
  apply (for_loop_update_all
    (fun i p => Rounded.wrap3 rnd (box_size s)
                  (Rounded.drift rnd dt p (velocities s !!! i)))).
Qed.

Lemma rounded_step_well_formed (dt : Q) (s : t) :
  well_formed s -> well_formed (Rounded.step rnd dt s).
Proof.
  intros (Hp & Hv & Hf). destruct (rounded_step_unfold dt s) as [ke ->].
  unfold well_formed. simpl.
  rewrite (for_loop_update_length
             (fun i p => Rounded.wrap3 rnd (box_size s)
                           (Rounded.drift rnd dt p (velocities s !!! i)))).
  rewrite (for_loop_update_length (fun _ _ => V3 0 0 0)).
  rewrite (for_loop_update_length
             (fun i v => Rounded.kick rnd dt v (_ !!! i))).
  auto.
Qed.

Lemma rounded_run_state (nsteps : Z) (dt : Q) (s : t) :
  (Rounded.run rnd nsteps dt s).1
  = for_loop (Z.to_nat nsteps) (fun _ => Rounded.step rnd dt) s.
Proof.
  unfold Rounded.run.
  assert (H : forall n,
    (for_loop n (fun istep '(s, out) =>
       let s := Rounded.step rnd dt s in
       (s, out ++ [Rounded.print_step rnd istep s]))
       (s, [])).1
    = for_loop n (fun _ => Rounded.step rnd dt) s).
  { induction n as [|n IH]; [reflexivity|].
    rewrite !for_loop_S, <- IH.
    destruct (for_loop n _ (s, [])) as [s' out]. reflexivity. }
  specialize (H (Z.to_nat nsteps)).
  destruct (for_loop (Z.to_nat nsteps) _ (s, [])) as [s' out].
  exact H.
Qed.

End RoundedStep.

(** ** The kernel *)

Section RoundedKernel.

Variable rnd : Q -> Q.
Hypothesis Hrnd : rounding rnd.

#[local] Instance rnd_Proper : Proper (Qeq ==> Qeq) rnd := rnd_proper rnd Hrnd.

Lemma rounded_half_box (L : Q) :
  normal_box L -> rnd L == L ->
  Rounded.mul rnd (1 # 2) L == (1 # 2) * L
  /\ Rounded.mul rnd (- (1 # 2)) L == - ((1 # 2) * L).
Proof.
  intros HL HrL. unfold Rounded.mul.
  assert (Hh : rnd ((1 # 2) * L) == (1 # 2) * L).
  { apply (rnd_half rnd Hrnd L HrL).
    pose proof (normal_box_pos L HL). destruct HL as [Hmin _].
    rewrite Qabs_pos by lra. lra. }
  split; [exact Hh|].
  rewrite (rnd_proper rnd Hrnd (- (1 # 2) * L) (- ((1 # 2) * L))) by ring.
  rewrite (rnd_opp rnd Hrnd), Hh. reflexivity.
Qed.

(** The three cases of the minimum-image correction. *)
Lemma rounded_minimum_image_cases (L d : Q) :
  normal_box L -> rnd L == L ->
  ((1 # 2) * L < d /\ Rounded.minimum_image rnd L d == rnd (d - L))
  \/ (d < - ((1 # 2) * L) /\ Rounded.minimum_image rnd L d == rnd (d + L))
  \/ (- ((1 # 2) * L) <= d /\ d <= (1 # 2) * L
      /\ Rounded.minimum_image rnd L d == d).
Proof.
  intros HL HrL.
  destruct (rounded_half_box L HL HrL) as [Hh Hm].
  pose proof (normal_box_pos L HL) as HL0.
  assert (Hhalf : rnd ((1 # 2) * L) == (1 # 2) * L) by exact Hh.
  assert (Hmhalf : rnd (- ((1 # 2) * L)) == - ((1 # 2) * L))
    by (apply (rnd_opp_double rnd Hrnd); exact Hhalf).
  unfold Rounded.minimum_image, Qgtb.
  rewrite (Qltb_comp _ ((1 # 2) * L) d d Hh (Qeq_refl d)).
  destruct (Qltb ((1 # 2) * L) d) eqn:E1;
    [apply Qltb_lt in E1 | apply Qltb_ge in E1].
  - left. split; [exact E1|].
    assert (Hge : - ((1 # 2) * L) <= Rounded.sub rnd d L).
    { unfold Rounded.sub.
      apply (rnd_ge_double rnd Hrnd); [exact Hmhalf|lra]. }
    rewrite (Qltb_comp _ (Rounded.sub rnd d L) _ (- ((1 # 2) * L))
               (Qeq_refl _) Hm).
    rewrite (proj2 (Qltb_ge _ _)) by exact Hge. reflexivity.
  - rewrite (Qltb_comp d d _ (- ((1 # 2) * L)) (Qeq_refl d) Hm).
    destruct (Qltb d (- ((1 # 2) * L))) eqn:E2;
      [apply Qltb_lt in E2 | apply Qltb_ge in E2].
    + right. left. split; [exact E2|reflexivity].
    + right. right. split; [exact E2|]. split; [exact E1|reflexivity].
Qed.

Lemma rounded_minimum_image_comp (L d d' : Q) :
  d == d' -> Rounded.minimum_image rnd L d == Rounded.minimum_image rnd L d'.
Proof.
  intros E. unfold Rounded.minimum_image, Qgtb, Rounded.sub, Rounded.add.
  rewrite (Qltb_comp _ _ d d' (Qeq_refl _) E).
  destruct (Qltb _ d').
  - assert (E1 : rnd (d - L) == rnd (d' - L)) by (rewrite E; reflexivity).
    rewrite (Qltb_comp _ _ _ _ E1 (Qeq_refl _)).
    destruct (Qltb (rnd (d' - L)) _); rewrite E1; reflexivity.
  - rewrite (Qltb_comp _ _ _ _ E (Qeq_refl _)).
    destruct (Qltb d' _); rewrite E; reflexivity.
Qed.

(** The correction is odd in a cell whose edge is a positive double. *)
Lemma rounded_minimum_image_opp (L d : Q) :
  normal_box L -> rnd L == L ->
  Rounded.minimum_image rnd L (- d) == - Rounded.minimum_image rnd L d.
Proof.
  intros HL HrL. pose proof (normal_box_pos L HL) as HL0.
  destruct (rounded_minimum_image_cases L d HL HrL)
    as [[H E]|[[H E]|(H1 & H2 & E)]];
  destruct (rounded_minimum_image_cases L (- d) HL HrL)
    as [[H' E']|[[H' E']|(H1' & H2' & E')]];
  try (exfalso; lra); rewrite E, E'.
  - rewrite <- (rnd_opp rnd Hrnd). apply (rnd_proper rnd Hrnd). ring.
  - rewrite <- (rnd_opp rnd Hrnd). apply (rnd_proper rnd Hrnd). ring.
  - reflexivity.
Qed.

Lemma rounded_norm2_comp (d d' : vec3) :
  (forall k, coord k d * coord k d == coord k d' * coord k d') ->
  Rounded.norm2 rnd d == Rounded.norm2 rnd d'.
Proof.
  intros E. unfold Rounded.norm2, Rounded.add, Rounded.mul.
  pose proof (E Axis0) as E0. pose proof (E Axis1) as E1.
  pose proof (E Axis2) as E2. simpl in E0, E1, E2.
  rewrite E0, E1, E2. reflexivity.
Qed.

Lemma rounded_lj_force_comp (x y : Q) :
  x == y -> Rounded.lj_force rnd x == Rounded.lj_force rnd y.
Proof.
  intros E. unfold Rounded.lj_force, Rounded.mul, Rounded.sub, Rounded.div.
  rewrite E. reflexivity.
Qed.

Lemma rounded_lj_force_with_cutoff_comp (x y : Q) :
  x == y ->
  Rounded.lj_force_with_cutoff rnd x == Rounded.lj_force_with_cutoff rnd y.
Proof.
  intros E. unfold Rounded.lj_force_with_cutoff.
  rewrite (Qltb_comp x y _ _ E (Qeq_refl _)).
  destruct (Qltb y _); [apply rounded_lj_force_comp; exact E|reflexivity].
Qed.

(** The displacement of [(j, i)] is the negation of that of [(i, j)]. *)
Lemma rounded_displacement_opp (L : Q) (pi pj : vec3) (k : axis) :
  normal_box L -> rnd L == L ->
  coord k (Rounded.displacement rnd L pj pi)
  == - coord k (Rounded.displacement rnd L pi pj).
Proof.
  intros HL HrL.
  assert (H : forall a b,
    Rounded.minimum_image rnd L (Rounded.sub rnd b a)
    == - Rounded.minimum_image rnd L (Rounded.sub rnd a b)).
  { intros a b. rewrite <- (rounded_minimum_image_opp L _ HL HrL).
    apply rounded_minimum_image_comp. unfold Rounded.sub.
    rewrite <- (rnd_opp rnd Hrnd). apply (rnd_proper rnd Hrnd). ring. }
  destruct k; simpl; apply H.
Qed.

Lemma rounded_norm2_displacement_sym (L : Q) (pi pj : vec3) :
  normal_box L -> rnd L == L ->
  Rounded.norm2 rnd (Rounded.displacement rnd L pj pi)
  == Rounded.norm2 rnd (Rounded.displacement rnd L pi pj).
Proof.
  intros HL HrL. apply rounded_norm2_comp. intros k.
  rewrite (rounded_displacement_opp L pi pj k HL HrL). ring.
Qed.

(** What an ordered pair leaves in its slot of a zeroed force array. *)
Lemma rounded_pair_body_zeroed (g : globals) (L e : Q) (ps : list vec3)
    (n i j : nat) (k : axis) :
  (i < n)%nat -> i <> j ->
  let d := Rounded.displacement rnd L (ps !!! i) (ps !!! j) in
  coord k ((Rounded.pair_body rnd g L ps i j
              (e, replicate n (V3 0 0 0))).2 !!! i)
  == rnd (Rounded.lj_force_with_cutoff rnd (Rounded.norm2 rnd d) * coord k d).
Proof.
  intros Hi Hne d. unfold Rounded.pair_body.
  rewrite decide_True by exact Hne. simpl snd.
  rewrite list_lookup_total_insert_eq by (rewrite length_replicate; exact Hi).
  rewrite lookup_total_replicate_2 by exact Hi.
  fold d. unfold Rounded.add, Rounded.mul.
  destruct k; simpl; rewrite Qplus_0_l; apply (rnd_idempotent rnd Hrnd).
Qed.

End RoundedKernel.

(** * Construction: the results *)

Section ConstructionResults.

Context {engine : Type}.
Variable mt19937 : Z -> engine.
Variable random_vel : engine -> Q * engine.

Local Abbreviation construct := (MDSimulation.MDSimulation mt19937 random_vel).
Local Abbreviation velocity_of := (random_velocity mt19937 random_vel).

(** C8.  For a cell of positive edge [L] and [n] particles, construction
    places particle [i < n] at slot [(ix, iy, iz)] of a simple-cubic grid
    with [p = ceil (cbrt n)] slots per axis, where
    [i = ix + p * iy + p^2 * iz] ([x] fastest, then [y], then [z]); its
    coordinates are [s * k + s / 2] for the spacing [s = L / (p + 1)]; every
    coordinate lies strictly between [0] and [L]; and two different
    particles never share a slot. *)
Theorem lattice_placement (L : Q) (n : Z) :
  0 < L ->
  let p := ceil_cbrt n in
  let s := L / inject_Z (p + 1) in
  let ps := positions (construct L n) in
  length ps = Z.to_nat n
  /\ ((0 < n)%Z ->
      (0 < p /\ (p - 1) * (p - 1) * (p - 1) < n <= p * p * p)%Z)
  /\ (forall i, (i < Z.to_nat n)%nat ->
      exists ix iy iz,
        grid_slot p (Z.of_nat i) = (ix, iy, iz)
        /\ (0 <= ix < p /\ 0 <= iy < p /\ 0 <= iz < p)%Z
        /\ (Z.of_nat i = ix + p * iy + p * p * iz)%Z
        /\ ps !! i = Some (V3 (s * inject_Z ix + (1 # 2) * s)
                              (s * inject_Z iy + (1 # 2) * s)
                              (s * inject_Z iz + (1 # 2) * s))
        /\ (forall k, 0 < coord k (ps !!! i) /\ coord k (ps !!! i) < L))
  /\ (forall i j, (i < Z.to_nat n)%nat -> (j < Z.to_nat n)%nat -> i <> j ->
      grid_slot p (Z.of_nat i) <> grid_slot p (Z.of_nat j)).
Proof.
  intros HL p s ps.
  assert (Hps : ps = map (fun i => grid_position s (grid_slot p (Z.of_nat i)))
                         (seq 0 (Z.to_nat n)))
    by apply construct_positions.
  split; [rewrite Hps, length_map, length_seq; reflexivity|].
  split; [intros Hn; apply ceil_cbrt_spec; exact Hn|].
  split.
  - intros i Hi.
    destruct (ceil_cbrt_spec n ltac:(lia)) as (Hp & _ & Hn). fold p in Hp, Hn.
    destruct (grid_slot_spec p (Z.of_nat i) Hp ltac:(lia))
      as (ix & iy & iz & Eslot & (Hx & Hy & Hz) & Esum).
    exists ix, iy, iz.
    assert (Hlook : ps !! i = Some (grid_position s (ix, iy, iz))).
    { rewrite Hps, <- Eslot.
      apply (lookup_map_seq
        (fun i => grid_position s (grid_slot p (Z.of_nat i)))). exact Hi. }
    split; [exact Eslot|]. split; [exact (conj Hx (conj Hy Hz))|].
    split; [exact Esum|]. split; [exact Hlook|].
    rewrite (list_lookup_total_correct _ _ _ Hlook).
    intros [| |]; simpl.
    + apply (grid_coordinate_inside L p ix HL Hx).
    + apply (grid_coordinate_inside L p iy HL Hy).
    + apply (grid_coordinate_inside L p iz HL Hz).
  - intros i j Hi Hj Hne E.
    destruct (ceil_cbrt_spec n ltac:(lia)) as (Hp & _ & Hn). fold p in Hp, Hn.
    apply Hne, Nat2Z.inj.
    apply (grid_slot_injective p _ _ Hp); [lia|lia|exact E].
Qed.

Hypothesis random_vel_range :
  forall g, - (1 # 2) <= (random_vel g).1 /\ (random_vel g).1 < 1 # 2.

Lemma velocity_of_range (i : Z) (k : axis) :
  - (1 # 2) <= coord k (velocity_of i) /\ coord k (velocity_of i) < 1 # 2.
Proof.
  unfold random_velocity.
  pose proof (random_vel_range (mt19937 i)) as H1.
  destruct (random_vel (mt19937 i)) as [vx g1].
  pose proof (random_vel_range g1) as H2.
  destruct (random_vel g1) as [vy g2].
  pose proof (random_vel_range g2) as H3.
  destruct (random_vel g2) as [vz g3].
  destruct k; simpl in *; assumption.
Qed.

End ConstructionResults.

(** The velocity of a particle, draw by draw. *)
Lemma random_velocity_draws {engine : Type} (mt19937 : Z -> engine)
    (random_vel : engine -> Q * engine) (iparticle : Z) :
  let vx := random_vel (mt19937 iparticle) in
  let vy := random_vel vx.2 in
  let vz := random_vel vy.2 in
  random_velocity mt19937 random_vel iparticle = V3 vx.1 vy.1 vz.1.
Proof.
  unfold random_velocity.
  destruct (random_vel (mt19937 iparticle)) as [x g1]. simpl.
  destruct (random_vel g1) as [y g2]. simpl.
  destruct (random_vel g2) as [z g3]. reflexivity.
Qed.

(** C9.  Construction gives particle [i] the three successive draws of a
    [uniform_real_distribution<double>(-0.5, 0.5)] from a [std::mt19937]
    seeded with [i]; each draw is in [[-0.5, 0.5)].  No generator state
    passes from one particle to the next, so the velocity of a particle
    is a function of its index alone: it is the same for every cell size
    and every particle count. *)
Theorem velocities_seeded_by_index (L : Q) (n : Z) (i : nat) :
  (i < Z.to_nat n)%nat ->
  let random_vel := StdRandom.uniform_real (- (1 # 2)) (1 # 2) in
  let gen := StdRandom.seed (Z.of_nat i) in
  let vx := random_vel gen in
  let vy := random_vel vx.2 in
  let vz := random_vel vy.2 in
  velocities (create L n) !! i = Some (V3 vx.1 vy.1 vz.1)
  /\ (- (1 # 2) <= vx.1 /\ vx.1 < 1 # 2)
  /\ (- (1 # 2) <= vy.1 /\ vy.1 < 1 # 2)
  /\ (- (1 # 2) <= vz.1 /\ vz.1 < 1 # 2)
  /\ length (velocities (create L n)) = Z.to_nat n
  /\ forall L' n', (i < Z.to_nat n')%nat ->
       velocities (create L' n') !! i = velocities (create L n) !! i.
Proof.
  intros Hi random_vel gen vx vy vz.
  assert (Hvs : forall L' n',
    velocities (create L' n')
    = map (fun j => random_velocity StdRandom.seed random_vel (Z.of_nat j))
          (seq 0 (Z.to_nat n')))
    by (intros L' n'; apply construct_velocities).
  assert (Hlook : forall L' n', (i < Z.to_nat n')%nat ->
    velocities (create L' n') !! i = Some (V3 vx.1 vy.1 vz.1)).
  { intros L' n' Hi'. rewrite Hvs.
    rewrite (lookup_map_seq
               (fun j => random_velocity StdRandom.seed random_vel (Z.of_nat j))
               _ _ Hi').
    exact (f_equal Some
             (random_velocity_draws StdRandom.seed random_vel (Z.of_nat i))). }
  split; [apply Hlook; exact Hi|].
  split; [apply uniform_real_range|].
  split; [apply uniform_real_range|].
  split; [apply uniform_real_range|].
  split.
  - rewrite Hvs, length_map, length_seq. reflexivity.
  - intros L' n' Hi'. rewrite !Hlook by assumption. reflexivity.
Qed.

Lemma velocities_seeded_by_index_witness :
  (1 < Z.to_nat 2)%nat
  /\ length (velocities (create 6 2)) = Z.to_nat 2.
Proof.
  assert (Hi : (1 < Z.to_nat 2)%nat) by (simpl; lia).
  split; [exact Hi|].
  exact (proj1 (proj2 (proj2 (proj2 (proj2
           (velocities_seeded_by_index 6 2 1 Hi)))))).
Defined.

Lemma lattice_placement_witness :
  0 < 20
  /\ length (positions (create 20 8)) = Z.to_nat 8.
Proof.
  split; [reflexivity|].
  refine (proj1 (lattice_placement StdRandom.seed
                   (StdRandom.uniform_real (- (1 # 2)) (1 # 2)) 20 8 _)).
  reflexivity.
Defined.

(** * The kernel: the results *)

(** C5 (amended).  With every operation rounded, in a cell whose edge [L]
    is a double in the normal range: take two particles whose separation
    along one axis is [d], [0 <= d < L/2], and the same two particles with
    the separation [L - d] along that axis (either sign), the other two
    axes unchanged.  If [d] and [L - d] are doubles, so that neither
    coordinate difference is rounded, the squared minimum-image
    separation that the kernel computes is the same in both placements. *)
Theorem minimum_image_wraparound (rnd : Q -> Q) (L d : Q) (k : axis)
    (pi pj qi qj : vec3) :
  rounding rnd ->
  normal_box L -> rnd L == L ->
  0 <= d -> d < (1 # 2) * L ->
  rnd d == d -> rnd (L - d) == L - d ->
  (coord k pi - coord k pj == d \/ coord k pi - coord k pj == - d) ->
  (coord k qi - coord k qj == L - d \/ coord k qi - coord k qj == - (L - d)) ->
  (forall k', k' <> k ->
     coord k' qi - coord k' qj == coord k' pi - coord k' pj) ->
  Rounded.norm2 rnd (Rounded.displacement rnd L pi pj)
  == Rounded.norm2 rnd (Rounded.displacement rnd L qi qj).
Proof.
  intros Hrnd HL HrL Hd0 Hd Hrd HrLd Hdirect Hwrapped Hothers.
  pose proof (normal_box_pos L HL) as HL0.
  pose proof (rnd_proper rnd Hrnd) as Hp.
  assert (Hrd' : rnd (- d) == - d) by (apply rnd_opp_double; assumption).
  assert (HrLd' : rnd (- (L - d)) == - (L - d))
    by (apply rnd_opp_double; assumption).
  assert (Hdir : forall x, x == d \/ x == - d ->
            let m := Rounded.minimum_image rnd L (rnd x) in m * m == d * d).
  { intros x Hx m. unfold m.
    assert (Ex : rnd x == d \/ rnd x == - d).
    { destruct Hx as [Hx|Hx]; [left|right];
        rewrite (Hp _ _ Hx); assumption. }
    destruct (rounded_minimum_image_cases rnd Hrnd L (rnd x) HL HrL)
      as [[H E]|[[H E]|(H1 & H2 & E)]];
      try (exfalso; destruct Ex as [Ex|Ex]; rewrite Ex in *; lra).
    rewrite E. destruct Ex as [Ex|Ex]; rewrite Ex; ring. }
  assert (Hwrap : forall x, x == L - d \/ x == - (L - d) ->
            let m := Rounded.minimum_image rnd L (rnd x) in m * m == d * d).
  { intros x Hx m. unfold m.
    assert (Ex : rnd x == L - d \/ rnd x == - (L - d)).
    { destruct Hx as [Hx|Hx]; [left|right];
        rewrite (Hp _ _ Hx); assumption. }
    destruct (rounded_minimum_image_cases rnd Hrnd L (rnd x) HL HrL)
      as [[H E]|[[H E]|(H1 & H2 & E)]];
      try (exfalso; destruct Ex as [Ex|Ex]; rewrite Ex in *; lra).
    - destruct Ex as [Ex|Ex]; [|exfalso; rewrite Ex in H; lra].
      rewrite E, (Hp (rnd x - L) (- d)) by (rewrite Ex; ring).
      rewrite Hrd'. ring.
    - destruct Ex as [Ex|Ex]; [exfalso; rewrite Ex in H; lra|].
      rewrite E, (Hp (rnd x + L) d) by (rewrite Ex; ring).
      rewrite Hrd. reflexivity. }
  assert (Hsame : forall k', k' <> k ->
            Rounded.minimum_image rnd L (rnd (coord k' pi - coord k' pj))
            == Rounded.minimum_image rnd L (rnd (coord k' qi - coord k' qj))).
  { intros k' Hk'. apply (rounded_minimum_image_comp rnd Hrnd).
    apply Hp. symmetry. apply Hothers. exact Hk'. }
  apply (rounded_norm2_comp rnd Hrnd). intros k'.
  assert (Hcases : k' = k \/ k' <> k)
    by (destruct k, k'; (left; reflexivity) || (right; discriminate)).
  destruct Hcases as [->|Hk'].
  - pose proof (Hdir _ Hdirect) as H1. pose proof (Hwrap _ Hwrapped) as H2.
    destruct k; simpl in *; unfold Rounded.sub; rewrite H1, H2; reflexivity.
  - pose proof (Hsame k' Hk') as H.
    destruct k'; simpl in *; unfold Rounded.sub; rewrite H; reflexivity.
Qed.

Lemma minimum_image_wraparound_witness :
  rounding binary64
  /\ normal_box 8 /\ 0 <= 2 /\ 2 < (1 # 2) * 8
  /\ Rounded.norm2 binary64
       (Rounded.displacement binary64 8 (V3 3 1 1) (V3 1 1 1))
     == Rounded.norm2 binary64
          (Rounded.displacement binary64 8 (V3 7 1 1) (V3 1 1 1)).
Proof.
  assert (HL : normal_box 8) by (split; vm_compute; discriminate).
  split; [exact binary64_rounding|]. split; [exact HL|].
  split; [discriminate|]. split; [reflexivity|].
  refine (minimum_image_wraparound binary64 8 2 Axis0
            (V3 3 1 1) (V3 1 1 1) (V3 7 1 1) (V3 1 1 1)
            binary64_rounding HL _ _ _ _ _ _ _ _).
  - vm_compute. reflexivity.
  - discriminate.
  - reflexivity.
  - vm_compute. reflexivity.
  - vm_compute. reflexivity.
  - left. reflexivity.
  - left. reflexivity.
  - intros [| |] H; [contradiction|reflexivity|reflexivity].
Defined.

(** C5 as printed.  In a cell of edge 8 take [d = 2.5 - 2^-51].  Two
    particles at [x = 2^-51] and [x = 2.5] are [d] apart; the particles
    at [x = 2^-51] and [x = 5.5 + 2^-50] are exactly [L - d] apart, and
    all four coordinates are doubles inside the cell.  The difference of
    the second pair is not a double and is rounded to [5.5]; the kernel
    gets [r2 = 6.25] for it and a smaller [r2] for the first pair, so the
    first pair is inside the cutoff and feels a force, the second does
    not. *)
Lemma wraparound_changes_r2 :
  let L := 8 in
  let d := (5 # 2) - (1 # 2 ^ 51) in
  let pi := V3 (5 # 2) 1 1 in
  let pj := V3 (1 # 2 ^ 51) 1 1 in
  let qi := V3 ((11 # 2) + (1 # 2 ^ 50)) 1 1 in
  let qj := V3 (1 # 2 ^ 51) 1 1 in
  normal_box L /\ binary64 L == L
  /\ (0 <= d /\ d < (1 # 2) * L)
  /\ c0 pi - c0 pj == d
  /\ c0 qi - c0 qj == L - d
  /\ (forall k, k <> Axis0 ->
        coord k qi - coord k qj == coord k pi - coord k pj)
  /\ (forall p, p ∈ [pi; pj; qi; qj] -> forall k,
        binary64 (coord k p) == coord k p
        /\ 0 <= coord k p /\ coord k p < L)
  /\ ~ Rounded.norm2 binary64 (Rounded.displacement binary64 L pi pj)
       == Rounded.norm2 binary64 (Rounded.displacement binary64 L qi qj)
  /\ Rounded.norm2 binary64 (Rounded.displacement binary64 L qi qj)
     == 25 # 4
  /\ ~ Rounded.lj_force_with_cutoff binary64
         (Rounded.norm2 binary64 (Rounded.displacement binary64 L pi pj))
       == 0
  /\ Rounded.lj_force_with_cutoff binary64
       (Rounded.norm2 binary64 (Rounded.displacement binary64 L qi qj))
     == 0.
Proof.
  intros L d pi pj qi qj.
  split; [split; vm_compute; discriminate|].
  split; [vm_compute; reflexivity|].
  split; [split; [discriminate|reflexivity]|].
  split; [reflexivity|]. split; [reflexivity|].
  split; [intros [| |] H; [contradiction|reflexivity|reflexivity]|].
  split.
  { intros p Hp k.
    repeat (apply elem_of_cons in Hp; destruct Hp as [->|Hp]);
      [| | | |apply elem_of_nil in Hp; contradiction];
      destruct k; simpl;
      (split; [vm_compute; reflexivity|split; [discriminate|reflexivity]]). }
  split; [vm_compute; discriminate|].
  split; [vm_compute; reflexivity|].
  split; [vm_compute; discriminate|].
  vm_compute. reflexivity.
Qed.

(** C10 (amended).  With every operation rounded, in a cell whose edge is
    a double in the normal range, for an array of [nparticles] positions
    inside the cell, no two of them closer than [2^-50] (a squared
    minimum-image separation of at least [2^-100]; neither a coordinate
    difference nor a force factor can then overflow): the displacement of
    [(j, i)] is the negation of that of [(i, j)], both pairs get the same
    force factor, and what the pair [(j, i)] adds to [forces[j]] of a
    zeroed array is the negation of what [(i, j)] adds to [forces[i]].
    Summed over all ordered pairs these additions cancel exactly, and
    for two particles the forces the kernel leaves in a zeroed array add
    up to the zero vector. *)
Theorem forces_sum_to_zero (rnd : Q -> Q) (g : globals) (nparticles : Z)
    (e L : Q) (ps : list vec3) :
  let n := Z.to_nat nparticles in
  let zeros := replicate n (V3 0 0 0) in
  rounding rnd ->
  normal_box L -> rnd L == L ->
  length ps = n ->
  (forall i p k, ps !! i = Some p -> 0 <= coord k p /\ coord k p < L) ->
  (forall i j, (i < n)%nat -> (j < n)%nat -> i <> j ->
     1 # 2 ^ 100
     <= Rounded.norm2 rnd (Rounded.displacement rnd L (ps !!! i) (ps !!! j))) ->
  (forall i j, (i < n)%nat -> (j < n)%nat -> i <> j ->
     let dij := Rounded.displacement rnd L (ps !!! i) (ps !!! j) in
     let dji := Rounded.displacement rnd L (ps !!! j) (ps !!! i) in
     veq dji (V3 (- c0 dij) (- c1 dij) (- c2 dij))
     /\ Rounded.lj_force_with_cutoff rnd (Rounded.norm2 rnd dji)
        == Rounded.lj_force_with_cutoff rnd (Rounded.norm2 rnd dij)
     /\ forall k,
          coord k ((Rounded.pair_body rnd g L ps j i (e, zeros)).2 !!! j)
          == - coord k ((Rounded.pair_body rnd g L ps i j (e, zeros)).2 !!! i))
  /\ (forall k,
        Qsum n (fun i => Qsum n (fun j =>
          if decide (i <> j)
          then coord k ((Rounded.pair_body rnd g L ps i j (e, zeros)).2 !!! i)
          else 0)) == 0)
  /\ (nparticles = 2%Z ->
      veq (total (Rounded.evaluate_lj_forces rnd g nparticles e L ps zeros).2)
          (V3 0 0 0)).
Proof.
  intros n zeros Hrnd HL HrL Hlen Hinside Hapart.
  pose proof (rnd_proper rnd Hrnd) as Hp.
  assert (Hpair : forall i j, (i < n)%nat -> (j < n)%nat -> i <> j ->
    forall k,
      coord k ((Rounded.pair_body rnd g L ps j i (e, zeros)).2 !!! j)
      == - coord k ((Rounded.pair_body rnd g L ps i j (e, zeros)).2 !!! i)).
  { intros i j Hi Hj Hne k. unfold zeros.
    rewrite (rounded_pair_body_zeroed rnd Hrnd g L e ps n j i k Hj)
      by congruence.
    rewrite (rounded_pair_body_zeroed rnd Hrnd g L e ps n i j k Hi Hne).
    rewrite <- (rnd_opp rnd Hrnd). apply Hp.
    rewrite (rounded_lj_force_with_cutoff_comp rnd Hrnd _ _
               (rounded_norm2_displacement_sym rnd Hrnd L
                  (ps !!! i) (ps !!! j) HL HrL)).
    rewrite (rounded_displacement_opp rnd Hrnd L (ps !!! i) (ps !!! j) k
               HL HrL).
    ring. }
  split.
  - intros i j Hi Hj Hne dij dji. split; [|split].
    + apply veq_coord. intros k. unfold dji, dij.
      rewrite (rounded_displacement_opp rnd Hrnd L _ _ k HL HrL).
      destruct k; reflexivity.
    + apply (rounded_lj_force_with_cutoff_comp rnd Hrnd).
      apply (rounded_norm2_displacement_sym rnd Hrnd); assumption.
    + apply Hpair; assumption.
  - split.
    { intros k.
      apply (Qsum_antisymmetric n (fun i j =>
        if decide (i <> j)
        then coord k ((Rounded.pair_body rnd g L ps i j (e, zeros)).2 !!! i)
        else 0)).
      intros i j Hi Hj.
      destruct (decide (i <> j)) as [Hne|Heq].
      - rewrite decide_True by congruence.
        pose proof (Hpair i j Hi Hj Hne k). lra.
      - rewrite decide_False by (intros H; apply Heq; congruence). ring. }
    intros E2. unfold zeros, n in *. subst nparticles.
    change (Z.to_nat 2) with 2%nat in *.
    destruct ps as [|p0 [|p1 [|p2 ps]]]; try discriminate Hlen.
    pose proof (Hpair 0%nat 1%nat ltac:(lia) ltac:(lia) ltac:(lia)) as H.
    apply veq_coord. intros k. specialize (H k).
    unfold Rounded.evaluate_lj_forces.
    change (Z.to_nat 2) with 2%nat.
    unfold for_loop. simpl fold_left.
    simpl in H. simpl snd. unfold total. simpl fold_right.
    destruct k; simpl in *; lra.
Qed.

Lemma forces_sum_to_zero_witness :
  rounding binary64
  /\ normal_box 20
  /\ veq (total (Rounded.evaluate_lj_forces binary64 globals_at_load 2 0 20
                   two_particles (replicate (Z.to_nat 2) (V3 0 0 0))).2)
         (V3 0 0 0).
Proof.
  assert (HL : normal_box 20) by (split; vm_compute; discriminate).
  split; [exact binary64_rounding|]. split; [exact HL|].
  refine (proj2 (proj2 (forces_sum_to_zero binary64 globals_at_load 2 0 20
                          two_particles binary64_rounding HL _ _ _ _)) _).
  - vm_compute. reflexivity.
  - reflexivity.
  - intros [|[|i]] p k H; simpl in H; try discriminate;
      injection H as <-; destruct k; split; simpl; lra.
  - intros [|[|i]] [|[|j]] Hi Hj Hne; simpl in Hi, Hj;
      try lia; try (exfalso; apply Hne; reflexivity);
      vm_compute; discriminate.
  - reflexivity.
Defined.

(** C10 as printed.  Three particles in line, at [x = 1], [x = 2] and
    [x = 3.5] in a cell of edge 20: no two coincide, and the forces that
    the kernel leaves in a zeroed array are [-24], [25.158...] and
    [-1.158...] along [x], whose sum is [3 * 2^-52], not zero.  The
    additions into [forces[1]] round. *)
Lemma three_particle_forces_do_not_cancel :
  let ps := [V3 1 1 1; V3 2 1 1; V3 (7 # 2) 1 1] in
  let fs := (Rounded.evaluate_lj_forces binary64 globals_at_load 3 0 20 ps
               (replicate 3 (V3 0 0 0))).2 in
  (forall i p k, ps !! i = Some p -> 0 <= coord k p /\ coord k p < 20)
  /\ (forall i j, (i < 3)%nat -> (j < 3)%nat -> i <> j ->
        ~ Rounded.norm2 binary64
            (Rounded.displacement binary64 20 (ps !!! i) (ps !!! j)) == 0)
  /\ c0 (total fs) == 3 # 2 ^ 52
  /\ ~ veq (total fs) (V3 0 0 0).
Proof.
  intros ps fs.
  split.
  { intros [|[|[|i]]] p k H; simpl in H; try discriminate;
      injection H as <-; destruct k; split; simpl; lra. }
  split; [|split].
  - intros [|[|[|i]]] [|[|[|j]]] Hi Hj Hne;
      try lia; try (exfalso; apply Hne; reflexivity);
      vm_compute; discriminate.
  - vm_compute. reflexivity.
  - intros (H0 & _). vm_compute in H0. discriminate.
Qed.

Lemma Qpower_neg (q : Q) (p : positive) : q ^ (Z.neg p) == (/ q) ^ (Z.pos p).
Proof.
  change (q ^ Z.neg p) with (/ (q ^ Z.pos p)).
  symmetry. apply Qinv_power.
Qed.

Lemma lj_force_is_f_LJ (r2 : Q) : lj_force r2 == f_LJ r2.
Proof.
  unfold f_LJ. rewrite !Qpower_neg, lj_force_formula. simpl. ring.
Qed.

Lemma lj_potential_is_V_LJ (r2 : Q) : lj_potential r2 == V_LJ r2.
Proof.
  unfold V_LJ. rewrite !Qpower_neg, lj_potential_formula. reflexivity.
Qed.

Lemma two_particle_energy (g : globals) (L : Q) (p0 p1 f0 f1 : vec3) :
  0 <= L ->
  (evaluate_lj_forces g 2 0 L [p0; p1] [f0; f1]).1
  == lj_potential_with_cutoff g (norm2 (displacement L p0 p1)).
Proof.
  intros HL.
  rewrite evaluate_lj_forces_loops by (simpl; lia).
  simpl fst. rewrite energy_rows_sum.
  change (Z.to_nat 2) with 2%nat.
  rewrite !Qsum_S, !Qsum_0. simpl.
  unfold pair_energy. simpl.
  rewrite (lj_potential_with_cutoff_comp g _ _
             (norm2_displacement_sym L p0 p1 HL)).
  ring.
Qed.

(** C2 (amended).  For an ordered pair [(i, j)], [i <> j], whose squared
    minimum-image separation [r2] is below the squared cutoff, the kernel
    adds [f(r2) * displacement] to [forces[i]], with
    [f(r2) = 24 r2^-1 (2 r2^-6 - r2^-3)], and adds
    [0.5 * (V_LJ(r2) - V_LJ(rc^2))] to the potential energy, with
    [V_LJ(r2) = 4 (r2^-3 r2^-3 - r2^-3)]; the shift is the one [initialize]
    stored.  For two particles in a cell of positive edge the total
    potential energy is one evaluation of [V_LJ(r2) - V_LJ(rc^2)]. *)
Theorem lj_pair_contribution (state : gmap string any) (g0 : globals)
    (L e : Q) (ps fs : list vec3) (i j : nat) (p0 p1 f0 f1 : vec3) :
  let g := (initialize state g0).2 in
  let d := displacement L (ps !!! i) (ps !!! j) in
  let r2 := norm2 d in
  let r2' := norm2 (displacement L p0 p1) in
  (i <> j -> r2 < lj_cutoff2 ->
     (pair_body g L ps i j (e, fs)).2
       = <[i := V3 (c0 (fs !!! i) + lj_force r2 * c0 d)
                   (c1 (fs !!! i) + lj_force r2 * c1 d)
                   (c2 (fs !!! i) + lj_force r2 * c2 d)]> fs
     /\ lj_force r2 == f_LJ r2
     /\ (pair_body g L ps i j (e, fs)).1
        == e + (1 # 2) * (V_LJ r2 - V_LJ lj_cutoff2))
  /\ (0 < L -> r2' < lj_cutoff2 ->
      (evaluate_lj_forces g 2 0 L [p0; p1] [f0; f1]).1
      == V_LJ r2' - V_LJ lj_cutoff2).
Proof.
  intros g d r2 r2'.
  assert (Hg : lj_potential_at_cutoff g = lj_potential lj_cutoff2)
    by reflexivity.
  split.
  - intros Hij Hr2. apply Qltb_lt in Hr2.
    rewrite pair_body_unfold, decide_True by exact Hij.
    split; [|split; [apply lj_force_is_f_LJ|]].
    + unfold pair_force, vadd. fold d. fold r2.
      unfold lj_force_with_cutoff. rewrite Hr2. reflexivity.
    + unfold pair_energy. fold d. fold r2.
      unfold lj_potential_with_cutoff. rewrite Hr2, Hg.
      simpl fst. rewrite !lj_potential_is_V_LJ. reflexivity.
  - intros HL Hr2'. apply Qltb_lt in Hr2'.
    rewrite two_particle_energy by lra. fold r2'.
    unfold lj_potential_with_cutoff. rewrite Hr2', Hg.
    rewrite !lj_potential_is_V_LJ. reflexivity.
Qed.

Lemma lj_pair_contribution_witness :
  ((0 <> 1)%nat
   /\ norm2 (displacement 20 (V3 1 1 1) (V3 3 1 1)) < lj_cutoff2
   /\ (pair_body (initialize ∅ globals_at_load).2 20 two_particles 0 1
         (0, [vzero; vzero])).1
      == 0 + (1 # 2)
             * (V_LJ (norm2 (displacement 20 (V3 1 1 1) (V3 3 1 1)))
                - V_LJ lj_cutoff2))
  /\ (0 < 20
      /\ (evaluate_lj_forces (initialize ∅ globals_at_load).2 2 0 20
            two_particles [vzero; vzero]).1
         == V_LJ (norm2 (displacement 20 (V3 1 1 1) (V3 3 1 1)))
            - V_LJ lj_cutoff2).
Proof.
  pose proof (lj_pair_contribution ∅ globals_at_load 20 0 two_particles
                [vzero; vzero] 0%nat 1%nat (V3 1 1 1) (V3 3 1 1) vzero vzero)
    as [Hpair Htwo].
  split.
  - split; [discriminate|]. split; [reflexivity|].
    refine (proj2 (proj2 (Hpair _ _))); [discriminate | reflexivity].
  - split; [reflexivity|].
    refine (Htwo _ _); reflexivity.
Defined.

(** C2 as printed.  With the potential [4 (r2^-6 r2^-6 - r2^-6)], the
    energy [V_LJ(r2) - V_LJ(rc^2)] of two particles two units apart is not
    what the kernel returns. *)
Lemma printed_potential_differs :
  ~ (evaluate_lj_forces (initialize ∅ globals_at_load).2 2 0 20
       two_particles [vzero; vzero]).1
    == V_LJ_as_printed (norm2 (displacement 20 (V3 1 1 1) (V3 3 1 1)))
       - V_LJ_as_printed lj_cutoff2.
Proof. vm_compute. discriminate. Qed.

(** Near the cutoff the shifted potential is bounded by the distance to
    the cutoff. *)
Lemma shifted_potential_bound (x : Q) :
  1 <= x -> x < lj_cutoff2 ->
  Qabs (lj_potential x - lj_potential lj_cutoff2) <= lj_cutoff2 - x.
Proof.
  intros H1 Hc.
  assert (Hc' : x < 25 # 4) by exact Hc.
  assert (Ec : lj_potential lj_cutoff2
               == 4 * ((4 # 25) ^ 3 * (4 # 25) ^ 3 - (4 # 25) ^ 3))
    by reflexivity.
  set (u := / x).
  assert (Hux : u * x == 1) by (unfold u; field; lra).
  assert (Hu0 : 0 < u) by (apply Qinv_lt_0_compat; lra).
  assert (Hu1 : u <= 1) by nra.
  assert (HD : u - (4 # 25) == u * (4 # 25) * ((25 # 4) - x)).
  { transitivity (u - (4 # 25) * (u * x)); [rewrite Hux|]; ring. }
  set (a2 := u * u). set (a3 := a2 * u). set (a4 := a3 * u).
  set (a5 := a4 * u). set (a6 := a5 * u).
  assert (H2 : 0 <= a2 <= 1) by (unfold a2; nra).
  assert (H3 : 0 <= a3 <= 1) by (unfold a3; nra).
  assert (H4 : 0 <= a4 <= 1) by (unfold a4; nra).
  assert (H5 : 0 <= a5 <= 1) by (unfold a5; nra).
  assert (H6 : 0 <= a6 <= 1) by (unfold a6; nra).
  set (B := a5 + (4 # 25) * a4 + (4 # 25) ^ 2 * a3 + (4 # 25) ^ 3 * a2
            + (4 # 25) ^ 4 * u + (4 # 25) ^ 5
            - (a2 + (4 # 25) * u + (4 # 25) ^ 2)).
  assert (HB : - (3 # 2) <= B <= 3 # 2).
  { unfold B. simpl. split; lra. }
  assert (HV : lj_potential x - lj_potential lj_cutoff2
               == 4 * (u - (4 # 25)) * B).
  { rewrite Ec, lj_potential_formula. fold u.
    unfold B, a6, a5, a4, a3, a2. ring. }
  rewrite HV, HD.
  set (t := (25 # 4) - x) in *.
  assert (Ht : 0 < t) by (unfold t; lra).
  assert (Hut : 0 <= u * t <= t) by nra.
  change lj_cutoff2 with (25 # 4). fold t.
  apply Qabs_Qle_condition.
  set (ut := u * t) in *.
  assert (Hpos : - ((3 # 2) * ut) <= ut * B <= (3 # 2) * ut) by nra.
  assert (Eprod : 4 * (u * (4 # 25) * t) * B == (16 # 25) * (ut * B))
    by (unfold ut; ring).
  rewrite Eprod. split; lra.
Qed.

(** C3.  A pair whose squared separation is at least the squared cutoff
    adds exactly zero to [forces[i]] and to the potential energy and
    leaves the other force vectors alone.  [initialize] stores
    [lj_potential(lj_cutoff2)], and [evaluate_forces] leaves it as stored;
    below the cutoff the pair potential is the potential minus that
    constant, which is zero at the cutoff and within [rc^2 - r2] of zero
    near it. *)
Theorem hard_cutoff_and_shift (state : gmap string any) (g0 g : globals)
    (L e : Q) (ps fs : list vec3) (i j : nat) :
  let d := displacement L (ps !!! i) (ps !!! j) in
  let r2 := norm2 d in
  let g1 := (initialize state g0).2 in
  (i <> j -> (i < length fs)%nat -> lj_cutoff2 <= r2 ->
     (lj_force_with_cutoff r2 = 0 /\ lj_potential_with_cutoff g r2 = 0)
     /\ (pair_body g L ps i j (e, fs)).1 == e
     /\ (exists v, (pair_body g L ps i j (e, fs)).2 !! i = Some v
                   /\ veq v (fs !!! i))
     /\ (forall k, k <> i ->
           (pair_body g L ps i j (e, fs)).2 !! k = fs !! k))
  /\ lj_potential_at_cutoff g1 = lj_potential lj_cutoff2
  /\ (evaluate_forces state g1).2 = g1
  /\ (forall x, x < lj_cutoff2 ->
        lj_potential_with_cutoff g1 x
        = lj_potential x - lj_potential lj_cutoff2)
  /\ lj_potential lj_cutoff2 - lj_potential_at_cutoff g1 == 0
  /\ (forall x, 1 <= x ->
        Qabs (lj_potential_with_cutoff g1 x) <= Qabs (lj_cutoff2 - x)).
Proof.
  intros d r2 g1. split.
  { intros Hij Hi Hr2.
    assert (Hcut : Qltb r2 lj_cutoff2 = false) by (apply Qltb_ge; exact Hr2).
    assert (Hf : lj_force_with_cutoff r2 = 0)
      by (unfold lj_force_with_cutoff; rewrite Hcut; reflexivity).
    assert (Hv : lj_potential_with_cutoff g r2 = 0)
      by (unfold lj_potential_with_cutoff; rewrite Hcut; reflexivity).
    rewrite pair_body_unfold, decide_True by exact Hij.
    unfold pair_energy, pair_force. fold d. fold r2. rewrite Hf, Hv.
    split; [split; reflexivity|]. split; [simpl; ring|]. split.
    - eexists. split; [apply list_lookup_insert_eq; exact Hi|].
      unfold veq, vadd. simpl. repeat split; ring.
    - intros k Hk. apply list_lookup_insert_ne. congruence. }
  split; [reflexivity|]. split; [reflexivity|]. split.
  { intros x Hx. unfold lj_potential_with_cutoff.
    apply Qltb_lt in Hx. rewrite Hx. reflexivity. }
  split; [simpl; ring|].
  intros x Hx. unfold lj_potential_with_cutoff.
  destruct (Qltb x lj_cutoff2) eqn:Ex.
  - apply Qltb_lt in Ex. simpl.
    rewrite (Qabs_pos (lj_cutoff2 - x)) by lra.
    apply shifted_potential_bound; assumption.
  - apply Qabs_nonneg.
Qed.

Lemma hard_cutoff_and_shift_witness :
  (0 <> 1)%nat /\ (0 < length [vzero; vzero])%nat
  /\ lj_cutoff2 <= norm2 (displacement 20 (V3 1 1 1) (V3 4 1 1))
  /\ (pair_body globals_at_load 20 [V3 1 1 1; V3 4 1 1] 0 1
        (0, [vzero; vzero])).1 == 0.
Proof.
  split; [discriminate|]. split; [simpl; lia|]. split; [discriminate|].
  refine (proj1 (proj2
    (proj1 (hard_cutoff_and_shift ∅ globals_at_load globals_at_load 20 0
              [V3 1 1 1; V3 4 1 1] [vzero; vzero] 0%nat 1%nat) _ _ _)));
    [discriminate | simpl; lia | discriminate].
Defined.

(** * The engine: the results *)

Lemma wrap_range (L q : Q) :
  0 < L -> - L <= q -> q < 2 * L -> 0 <= wrap L q /\ wrap L q < L.
Proof. intros HL Hlo Hhi. unfold wrap. cmp_cases; split; lra. Qed.

Lemma step_keeps_in_box (dt : Q) (s : t) :
  0 < box_size s ->
  length (positions s) = Z.to_nat (nparticles s) ->
  length (velocities s) = Z.to_nat (nparticles s) ->
  (forall i p k, positions s !! i = Some p ->
     0 <= coord k p /\ coord k p < box_size s) ->
  (forall i v k, velocities s !! i = Some v ->
     Qabs (coord k v * dt) <= box_size s) ->
  forall i p k, positions (step dt s) !! i = Some p ->
    0 <= coord k p /\ coord k p < box_size s.
Proof.
  intros HL Hp Hv Hbox Hmove i p k Hlook.
  rewrite (step_positions dt s Hp), list_lookup_imap in Hlook.
  destruct (positions s !! i) as [p0|] eqn:Ep; [|discriminate].
  injection Hlook as <-.
  destruct (lookup_lt_is_Some_2 (velocities s) i) as [v Ev].
  { rewrite Hv, <- Hp. apply (lookup_lt_Some _ _ _ Ep). }
  rewrite (list_lookup_total_correct _ _ _ Ev).
  pose proof (Hbox i p0 k Ep) as [Hlo Hhi].
  pose proof (Hmove i v k Ev) as Habs.
  apply Qabs_Qle_condition in Habs. destruct Habs as [Hm1 Hm2].
  destruct k; simpl in *; apply wrap_range; try exact HL; lra.
Qed.

Lemma step_lengths (dt : Q) (s : t) :
  length (positions s) = Z.to_nat (nparticles s) ->
  length (velocities s) = Z.to_nat (nparticles s) ->
  length (forces s) = Z.to_nat (nparticles s) ->
  length (positions (step dt s)) = Z.to_nat (nparticles (step dt s))
  /\ length (velocities (step dt s)) = Z.to_nat (nparticles (step dt s))
  /\ length (forces (step dt s)) = Z.to_nat (nparticles (step dt s)).
Proof.
  intros Hp Hv Hf.
  rewrite step_nparticles, step_positions, step_velocities, step_forces
    by assumption.
  rewrite !length_imap, length_replicate. auto.
Qed.

(** The state [run] returns is the state after [nsteps] steps. *)
Lemma run_state (nsteps : Z) (dt : Q) (s : t) :
  (run nsteps dt s).1 = for_loop (Z.to_nat nsteps) (fun _ => step dt) s.
Proof.
  unfold run.
  assert (H : forall n,
    (for_loop n (fun istep '(s, out) =>
       let s := step dt s in (s, out ++ [print_step istep s]))
       (s, [])).1
    = for_loop n (fun _ => step dt) s).
  { induction n as [|n IH]; [reflexivity|].
    rewrite !for_loop_S, <- IH.
    destruct (for_loop n _ (s, [])) as [s' out]. reflexivity. }
  specialize (H (Z.to_nat nsteps)).
  destruct (for_loop (Z.to_nat nsteps) _ (s, [])) as [s' out].
  exact H.
Qed.

Lemma rounded_step_keeps_in_box (rnd : Q -> Q) (dt : Q) (s : t) :
  rounding rnd ->
  normal_box (box_size s) -> rnd (box_size s) == box_size s ->
  well_formed s ->
  (forall i p k, positions s !! i = Some p ->
     rnd (coord k p) == coord k p
     /\ 0 <= coord k p /\ coord k p < box_size s) ->
  (forall i v k, velocities s !! i = Some v ->
     Qabs (rnd (coord k v * dt)) < box_size s) ->
  forall i p k, positions (Rounded.step rnd dt s) !! i = Some p ->
    rnd (coord k p) == coord k p
    /\ 0 <= coord k p /\ coord k p < box_size s.
Proof.
  intros Hrnd Hnb HrL (Hp & Hv & Hf) Hbox Hmove i p k Hlook.
  pose proof (normal_box_pos _ Hnb) as HL. destruct Hnb as [Hmin Hmax].
  rewrite (rounded_step_positions rnd dt s Hp), list_lookup_imap in Hlook.
  destruct (positions s !! i) as [p0|] eqn:Ep; [|discriminate].
  injection Hlook as <-.
  destruct (lookup_lt_is_Some_2 (velocities s) i) as [v Ev].
  { rewrite Hv, <- Hp. apply (lookup_lt_Some _ _ _ Ep). }
  rewrite (list_lookup_total_correct _ _ _ Ev).
  pose proof (Hbox i p0 k Ep) as (Hrp & Hlo & Hhi).
  pose proof (Hmove i v k Ev) as Habs.
  apply Qabs_Qlt_condition in Habs. destruct Habs as [Hm1 Hm2].
  assert (Hrd : rnd (rnd (coord k v * dt)) == rnd (coord k v * dt))
    by apply (rnd_idempotent rnd Hrnd).
  pose proof (rounded_drift_range rnd Hrnd (box_size s) (coord k p0)
                (rnd (coord k v * dt)) HL Hmax HrL Hrp Hrd Hlo Hhi Hm1 Hm2)
    as [Hs1 Hs2].
  assert (Hrs : rnd (rnd (coord k p0 + rnd (coord k v * dt)))
                == rnd (coord k p0 + rnd (coord k v * dt)))
    by apply (rnd_idempotent rnd Hrnd).
  pose proof (rounded_wrap_range rnd Hrnd (box_size s) _ HL Hmin HrL Hrs
                Hs1 Hs2)
    as Hin.
  pose proof (rounded_wrap_double rnd Hrnd (box_size s) _ Hrs) as Hdbl.
  destruct k; simpl in *; split; assumption.
Qed.

(** C6 (amended).  In a cell whose edge [L] is a double in the normal
    range, with every operation rounded: start from arrays of
    [nparticles] elements with every coordinate a double in [[0, L)]; if
    in each step of [run(nsteps, dt)] every displacement [v * dt] the
    program adds is smaller in magnitude than [L], every coordinate is in
    [[0, L)] when [run] returns.  A coordinate exactly at [L] wraps to
    [0]; one at [-eps], [0 < eps <= L], wraps to the rounded [L - eps]
    when that is below [L], and to [0] when it is not. *)
Theorem wrap_keeps_positions_in_box (rnd : Q -> Q) (nsteps : Z)
    (dt eps : Q) (s : t) :
  let L := box_size s in
  rounding rnd ->
  normal_box L -> rnd L == L ->
  (well_formed s ->
   (forall i p k, positions s !! i = Some p ->
      rnd (coord k p) == coord k p /\ 0 <= coord k p /\ coord k p < L) ->
   (forall m i v k, (m < Z.to_nat nsteps)%nat ->
      velocities (Rounded.run rnd (Z.of_nat m) dt s).1 !! i = Some v ->
      Qabs (rnd (coord k v * dt)) < L) ->
   forall i p k, positions (Rounded.run rnd nsteps dt s).1 !! i = Some p ->
     0 <= coord k p /\ coord k p < L)
  /\ Rounded.wrap rnd L L == 0
  /\ (0 < eps -> eps <= L ->
      (rnd (L - eps) < L -> Rounded.wrap rnd L (- eps) == rnd (L - eps))
      /\ (~ rnd (L - eps) < L -> Rounded.wrap rnd L (- eps) == 0)).
Proof.
  intros L Hrnd Hnb HrL. pose proof (normal_box_pos L Hnb) as HL.
  split; [|split].
  - intros Hwf Hbox Hmove i p k Hlook.
    rewrite rounded_run_state in Hlook.
    pose (P := fun (m : nat) (acc : t) =>
      acc = for_loop m (fun _ => Rounded.step rnd dt) s
      /\ box_size acc = L
      /\ well_formed acc
      /\ forall i p k, positions acc !! i = Some p ->
           rnd (coord k p) == coord k p
           /\ 0 <= coord k p /\ coord k p < L).
    assert (Hinv : P (Z.to_nat nsteps)
                     (for_loop (Z.to_nat nsteps)
                        (fun _ => Rounded.step rnd dt) s)).
    { apply (for_loop_invariant P); unfold P.
      - split; [reflexivity|]. split; [reflexivity|]. split; assumption.
      - intros m acc Hm (Eacc & EL & Hwf' & Hbox').
        split; [rewrite for_loop_S, <- Eacc; reflexivity|].
        split; [rewrite rounded_step_box_size; exact EL|].
        split; [apply rounded_step_well_formed; exact Hwf'|].
        rewrite <- EL.
        apply rounded_step_keeps_in_box; rewrite ?EL; try assumption.
        intros i' v k' Ev. apply (Hmove m i' v k' Hm).
        rewrite rounded_run_state, Nat2Z.id, <- Eacc. exact Ev. }
    destruct Hinv as (_ & _ & _ & Hin).
    destruct (Hin i p k Hlook) as (_ & H0 & H1). split; assumption.
  - unfold Rounded.wrap, Rounded.add, Rounded.sub.
    rewrite (proj2 (Qltb_ge L 0)) by lra.
    rewrite (proj2 (Qgeb_ge L L)) by lra.
    rewrite (rnd_proper rnd Hrnd (L - L) 0) by ring.
    apply (rnd_zero rnd Hrnd).
  - intros Heps0 Heps.
    unfold Rounded.wrap, Rounded.add, Rounded.sub.
    rewrite (proj2 (Qltb_lt (- eps) 0)) by lra.
    assert (E : rnd (- eps + L) == rnd (L - eps))
      by (apply (rnd_proper rnd Hrnd); ring).
    assert (Hle : rnd (L - eps) <= L).
    { apply (rnd_le_double rnd Hrnd); [exact HrL|lra]. }
    split.
    + intros Hlt. rewrite (proj2 (Qgeb_lt (rnd (- eps + L)) L)) by lra.
      exact E.
    + intros Hnlt. rewrite (proj2 (Qgeb_ge (rnd (- eps + L)) L)) by lra.
      rewrite (rnd_proper rnd Hrnd (rnd (- eps + L) - L) 0) by lra.
      apply (rnd_zero rnd Hrnd).
Qed.

Lemma wrap_keeps_positions_in_box_witness :
  rounding binary64
  /\ normal_box (box_size moving)
  /\ (forall i p k,
        positions (Rounded.run binary64 1 (5 # 1000) moving).1 !! i = Some p ->
        0 <= coord k p /\ coord k p < box_size moving)
  /\ Rounded.wrap binary64 (box_size moving) (box_size moving) == 0.
Proof.
  assert (HL : normal_box (box_size moving))
    by (split; vm_compute; discriminate).
  assert (HrL : binary64 (box_size moving) == box_size moving)
    by (vm_compute; reflexivity).
  pose proof (wrap_keeps_positions_in_box binary64 1 (5 # 1000) (1 # 10)
                moving binary64_rounding HL HrL) as (Hrun & HwrapL & _).
  split; [exact binary64_rounding|]. split; [exact HL|].
  split; [|exact HwrapL].
  refine (Hrun _ _ _).
  - repeat split.
  - intros [|[|i]] p k H; simpl in H; try discriminate;
      injection H as <-; destruct k; simpl;
      (split; [vm_compute; reflexivity|split; [discriminate|reflexivity]]).
  - intros [|m] [|[|i]] v k Hm H; try (simpl in Hm; lia);
      simpl in H; try discriminate;
      injection H as <-; destruct k; vm_compute; reflexivity.
Defined.

(** C6 as printed.  In a cell of edge 1, a particle at the largest double
    below 1 that moves by exactly one box length ([v = 0.5], [dt = 2])
    ends the step at [1.0], which is the box size and not inside
    [[0, 1)]: the sum [p + v * dt] rounds to [2.0].  And in a cell of edge
    20 the coordinate [-2^-60] wraps to [0], not to [20 - 2^-60]: the sum
    rounds to [20.0], which the second test of the wrap sends to [0]. *)
Lemma wrap_can_leave_a_particle_at_box_size :
  let s := Make 1 0 0 1 [V3 (1 - (1 # 2 ^ 53)) (1 # 2) (1 # 2)]
             [V3 (1 # 2) 0 0] [vzero] in
  (forall i p k, positions s !! i = Some p ->
     binary64 (coord k p) == coord k p
     /\ 0 <= coord k p /\ coord k p < box_size s)
  /\ (forall i v k, velocities s !! i = Some v ->
        Qabs (binary64 (coord k v * 2)) <= box_size s)
  /\ ~ (forall i p k,
          positions (Rounded.run binary64 1 2 s).1 !! i = Some p ->
          0 <= coord k p /\ coord k p < box_size s)
  /\ Rounded.wrap binary64 20 (- (1 # 2 ^ 60)) == 0
  /\ ~ Rounded.wrap binary64 20 (- (1 # 2 ^ 60)) == 20 - (1 # 2 ^ 60)
  /\ ~ Rounded.wrap binary64 20 (- (1 # 2 ^ 60))
       == binary64 (20 - (1 # 2 ^ 60)).
Proof.
  intros s. split; [|split; [|split; [|split; [|split]]]].
  - intros [|i] p k H; simpl in H; [|discriminate].
    injection H as <-. destruct k; simpl;
      (split; [vm_compute; reflexivity|split; [discriminate|reflexivity]]).
  - intros [|i] v k H; simpl in H; [|discriminate].
    injection H as <-. destruct k; vm_compute; discriminate.
  - intros H.
    assert (Hlook : positions (Rounded.run binary64 1 2 s).1 !! 0%nat
                    = Some (Rounded.wrap3 binary64 1
                              (Rounded.drift binary64 2
                                 (V3 (1 - (1 # 2 ^ 53)) (1 # 2) (1 # 2))
                                 (V3 (1 # 2) 0 0)))) by reflexivity.
    destruct (H 0%nat _ Axis0 Hlook) as [_ Hlt].
    vm_compute in Hlt. discriminate.
  - vm_compute. reflexivity.
  - vm_compute. discriminate.
  - vm_compute. discriminate.
Qed.

(** The numbers of the three counterexamples, as the machine's doubles:
    the two squared separations of C5, the coordinates the wrap leaves
    in C6, and the three forces of C10. *)
Example counterexamples_on_the_machine :
  let r2 := fun pi pj =>
    Rounded.norm2 binary64 (Rounded.displacement binary64 8 pi pj) in
  let fs := (Rounded.evaluate_lj_forces binary64 globals_at_load 3 0 20
               [V3 1 1 1; V3 2 1 1; V3 (7 # 2) 1 1]
               (replicate 3 (V3 0 0 0))).2 in
  r2 (V3 (5 # 2) 1 1) (V3 (1 # 2 ^ 51) 1 1)
  == double_value 0x1.8fffffffffffep+2%float
  /\ r2 (V3 ((11 # 2) + (1 # 2 ^ 50)) 1 1) (V3 (1 # 2 ^ 51) 1 1)
     == double_value 6.25%float
  /\ Rounded.wrap binary64 1
       (Rounded.add binary64 (1 - (1 # 2 ^ 53))
          (Rounded.mul binary64 (1 # 2) 2))
     == double_value (0x1.fffffffffffffp-1 + 0.5 * 2 - 1)%float
  /\ Rounded.wrap binary64 20 (- (1 # 2 ^ 60))
     == double_value (- 0x1p-60 + 20 - 20)%float
  /\ c0 (fs !!! 0%nat) == double_value (-24)%float
  /\ c0 (fs !!! 1%nat) == double_value 0x1.9287493d52b19p+4%float
  /\ c0 (fs !!! 2%nat) == double_value (- 0x1.287493d52b18dp+0)%float.
Proof. vm_compute. repeat split. Qed.

(** C7.  In one step, particle [i] moves by its velocity of before the
    step times [dt] (and is wrapped); the kinetic energy is the sum of
    [0.5 * v * v] over the velocity components of before the step; and the
    new velocity of particle [i] is its velocity of before the step plus
    [dt] times the force vector the step leaves for it. *)
Theorem step_update_order (dt : Q) (s : t) (i : nat) (p v : vec3) :
  length (positions s) = Z.to_nat (nparticles s) ->
  length (velocities s) = Z.to_nat (nparticles s) ->
  length (forces s) = Z.to_nat (nparticles s) ->
  positions s !! i = Some p ->
  velocities s !! i = Some v ->
  positions (step dt s) !! i
    = Some (wrap3 (box_size s)
              (V3 (c0 p + c0 v * dt) (c1 p + c1 v * dt) (c2 p + c2 v * dt)))
  /\ kinetic_energy (step dt s) == half_squares (velocities s)
  /\ (exists f, forces (step dt s) !! i = Some f
      /\ velocities (step dt s) !! i
         = Some (V3 (c0 v + c0 f * dt) (c1 v + c1 f * dt) (c2 v + c2 f * dt))).
Proof.
  intros Hp Hv Hf Ep Ev.
  split; [|split].
  - rewrite (step_positions dt s Hp), list_lookup_imap, Ep.
    rewrite (list_lookup_total_correct _ _ _ Ev). reflexivity.
  - apply step_kinetic_energy. exact Hv.
  - destruct (lookup_lt_is_Some_2 (forces (step dt s)) i) as [f Ef].
    { rewrite (step_forces dt s Hf), length_replicate, <- Hv.
      apply (lookup_lt_Some _ _ _ Ev). }
    exists f. split; [exact Ef|].
    rewrite (step_velocities dt s Hv), list_lookup_imap, Ev.
    rewrite (list_lookup_total_correct _ _ _ Ef). reflexivity.
Qed.

Lemma step_update_order_witness :
  positions moving !! 0%nat = Some (V3 1 1 1)
  /\ velocities moving !! 0%nat = Some (V3 1 0 0)
  /\ kinetic_energy (step (1 # 2) moving) == half_squares (velocities moving).
Proof.
  split; [reflexivity|]. split; [reflexivity|].
  refine (proj1 (proj2
    (step_update_order (1 # 2) moving 0 (V3 1 1 1) (V3 1 0 0) _ _ _ _ _)));
    reflexivity.
Defined.

Lemma run_iterations (nsteps : Z) (dt : Q) (s : t) :
  iterations (run nsteps dt s).2 = Z.to_nat nsteps.
Proof.
  unfold run.
  pose proof (for_loop_invariant
    (fun k (st : t * list output) => iterations st.2 = k)
    (Z.to_nat nsteps)
    (fun istep '(s, out) =>
       let s := step dt s in (s, out ++ [print_step istep s]))
    (s, [])) as Hinv.
  destruct (for_loop _ _ _) as [s' out]. simpl in *.
  unfold iterations in *.
  rewrite List.filter_app, length_app. simpl.
  rewrite Hinv; [lia|reflexivity|].
  intros i [s0 out0] _ H. simpl in *.
  rewrite List.filter_app, length_app, H. simpl. lia.
Qed.

(** C4 (amended).  Nothing validates the cutoff against the cell: for
    every cell size, every particle count and every generator, construction
    returns a simulation of that cell size and particle count, and [run]
    performs all of its [nsteps] steps on it. *)
Theorem run_performs_every_step {engine : Type} (mt19937 : Z -> engine)
    (random_vel : engine -> Q * engine) (L : Q) (n nsteps : Z) (dt : Q) :
  let s := MDSimulation.MDSimulation mt19937 random_vel L n in
  box_size s = L
  /\ nparticles s = n
  /\ length (positions s) = Z.to_nat n
  /\ iterations (run nsteps dt s).2 = Z.to_nat nsteps.
Proof.
  intros s. split; [reflexivity|]. split; [reflexivity|]. split.
  - unfold s. rewrite construct_positions, length_map, length_seq.
    reflexivity.
  - apply run_iterations.
Qed.

(** C4 as printed.  A cell of edge 4 is smaller than twice the cutoff, and
    the program constructs the simulation and runs its step all the same. *)
Lemma small_cell_is_not_rejected :
  (1 # 2) * 4 < lj_cutoff
  /\ iterations (run 1 (5 # 1000) (create 4 2)).2 = 1%nat.
Proof. split; [reflexivity|]. apply run_iterations. Qed.

(** C1.  The program as it is: [evaluate_forces] returns its handle and
    the plugin's globals as it got them, and a step of [run] leaves every
    force vector and the potential energy at zero, whatever the positions.
    For [MDSimulation(6.0, 2)] and [run(1, 0.005)] the kernel, run on the
    positions of after the step, gives a potential energy and a force on
    particle 0 that are not zero. *)
Theorem run_skips_force_evaluation :
  (forall state g, evaluate_forces state g = (state, g))
  /\ (forall dt s,
        length (forces s) = Z.to_nat (nparticles s) ->
        forces (step dt s) = replicate (Z.to_nat (nparticles s)) (V3 0 0 0)
        /\ potential_energy (step dt s) = 0)
  /\ (let s := (run 1 (5 # 1000) (create 6 2)).1 in
      forces s = [V3 0 0 0; V3 0 0 0]
      /\ potential_energy s = 0
      /\ let r := evaluate_lj_forces (initialize ∅ globals_at_load).2
                    (nparticles s) (potential_energy s) (box_size s)
                    (positions s) (forces s) in
         ~ r.1 == 0 /\ ~ c0 (r.2 !!! 0%nat) == 0).
Proof.
  split; [reflexivity|]. split.
  - intros dt s Hf. split; [apply step_forces; exact Hf|].
    apply step_potential_energy.
  - vm_compute. repeat split; discriminate.
Qed.

(** * Further properties of the program *)

(** ** The periodic wrap and the minimum image *)

(** X1.  With every operation rounded, in a cell whose edge [L] is a
    double in the normal range, the wrap of [run] brings a double [q]
    into [[0, L)] exactly when [q] is in [[-L, 2L)]: one box length
    outside the cell is brought back, anything farther is not. *)
Theorem wrap_single_image (rnd : Q -> Q) (L q : Q) :
  rounding rnd ->
  normal_box L -> rnd L == L -> rnd q == q ->
  (0 <= Rounded.wrap rnd L q /\ Rounded.wrap rnd L q < L)
  <-> (- L <= q /\ q < 2 * L).
Proof.
  intros Hrnd Hnb HrL Hrq. pose proof (normal_box_pos L Hnb) as HL.
  destruct Hnb as [Hmin _]. split.
  - intros [H0 H1].
    destruct (rounded_wrap_outside rnd Hrnd L q HL HrL Hrq) as [Hlow Hhigh].
    split.
    + destruct (Qlt_le_dec q (- L)) as [H|H]; [|exact H].
      specialize (Hlow H). lra.
    + destruct (Qlt_le_dec q (2 * L)) as [H|H]; [exact H|].
      specialize (Hhigh H). lra.
  - intros [H0 H1]. apply rounded_wrap_range; assumption.
Qed.

Lemma wrap_single_image_witness :
  rounding binary64 /\ normal_box 20
  /\ ((0 <= Rounded.wrap binary64 20 (-3) /\ Rounded.wrap binary64 20 (-3) < 20)
      <-> (- (20) <= -3 /\ -3 < 2 * 20)).
Proof.
  assert (HL : normal_box 20) by (split; vm_compute; discriminate).
  split; [exact binary64_rounding|]. split; [exact HL|].
  refine (wrap_single_image binary64 20 (-3) binary64_rounding HL _ _).
  - vm_compute. reflexivity.
  - vm_compute. reflexivity.
Defined.

Lemma minimum_image_half_box (L d : Q) :
  0 < L -> - (3 # 2) * L <= d -> d <= (3 # 2) * L ->
  - (1 # 2) * L <= minimum_image L d /\ minimum_image L d <= (1 # 2) * L.
Proof.
  intros HL Hlo Hhi.
  assert (HL0 : 0 <= L) by lra.
  destruct (minimum_image_cases L d HL0) as [[H E]|[[H E]|[H E]]];
    rewrite E; split; lra.
Qed.



(** ** The Lennard-Jones functions *)

Lemma Qinv_recip (x : Q) : 0 < x -> 0 < / x /\ / x * x == 1.
Proof.
  intros Hx. split; [apply Qinv_lt_0_compat; exact Hx|].
  field. lra.
Qed.

Lemma Qcube_pos (u : Q) : 0 < u -> 0 < u * u * u.
Proof.
  intros Hu. assert (0 < u * u) by (apply Qmult_lt_0_compat; exact Hu).
  apply Qmult_lt_0_compat; assumption.
Qed.

(** X3.  For a positive squared separation [r2], [lj_force] is positive
    (the pair is pushed apart) when [r2^3 < 2], negative (pulled together)
    when [r2^3 > 2], and with the cutoff it is never positive beyond
    [r2^3 > 2]. *)
Theorem lj_force_sign (r2 : Q) :
  0 < r2 ->
  (r2 * r2 * r2 < 2 -> 0 < lj_force r2)
  /\ (2 < r2 * r2 * r2 -> lj_force r2 < 0)
  /\ (2 < r2 * r2 * r2 -> lj_force_with_cutoff r2 <= 0).
Proof.
  intros Hr.
  destruct (Qinv_recip r2 Hr) as [Hu Hur].
  set (u := / r2) in *.
  assert (Hu3 : 0 < u * u * u) by (apply Qcube_pos; exact Hu).
  assert (Hu4 : 0 < 24 * u * (u * u * u) * (u * u * u))
    by (repeat apply Qmult_lt_0_compat; try assumption; reflexivity).
  assert (Ef : lj_force r2
               == 24 * u * (u * u * u) * (u * u * u) * (2 - r2 * r2 * r2)).
  { rewrite lj_force_formula. fold u. simpl.
    transitivity (24 * u * (u * u * u)
                  * (2 * (u * u * u) - (u * r2) * (u * r2) * (u * r2)));
      [rewrite Hur|]; ring. }
  assert (Hpos : r2 * r2 * r2 < 2 -> 0 < lj_force r2).
  { intros H. rewrite Ef. apply Qmult_lt_0_compat; [exact Hu4 | lra]. }
  assert (Hneg : 2 < r2 * r2 * r2 -> lj_force r2 < 0).
  { intros H. rewrite Ef.
    assert (0 < 24 * u * (u * u * u) * (u * u * u) * (r2 * r2 * r2 - 2))
      by (apply Qmult_lt_0_compat; [exact Hu4 | lra]).
    lra. }
  split; [exact Hpos|]. split; [exact Hneg|].
  intros H. unfold lj_force_with_cutoff.
  destruct (Qltb r2 lj_cutoff2); [|discriminate].
  apply Qlt_le_weak, Hneg, H.
Qed.

Lemma lj_force_sign_witness :
  0 < 9 # 4 /\ 2 < (9 # 4) * (9 # 4) * (9 # 4) /\ lj_force (9 # 4) < 0.
Proof.
  split; [reflexivity|]. split; [reflexivity|].
  refine (proj1 (proj2 (lj_force_sign (9 # 4) _)) _); reflexivity.
Defined.

(** X4.  For a positive squared separation [r2], [lj_potential] is never
    below [-1], is [0] at [r2 = 1], positive below it and negative above
    it. *)
Theorem lj_potential_well (r2 : Q) :
  0 < r2 ->
  - (1) <= lj_potential r2
  /\ lj_potential 1 == 0
  /\ (r2 < 1 -> 0 < lj_potential r2)
  /\ (1 < r2 -> lj_potential r2 < 0).
Proof.
  intros Hr.
  destruct (Qinv_recip r2 Hr) as [Hu Hur].
  set (u := / r2) in *.
  assert (Hu3 : 0 < u * u * u) by (apply Qcube_pos; exact Hu).
  assert (Hu6 : 0 < 4 * (u * u * u) * (u * u * u))
    by (repeat apply Qmult_lt_0_compat; try assumption; reflexivity).
  assert (EV : lj_potential r2
               == 4 * (u * u * u) * (u * u * u) * (1 - r2 * r2 * r2)).
  { rewrite lj_potential_formula. fold u. simpl.
    transitivity (4 * (u * u * u)
                  * ((u * u * u) - (u * r2) * (u * r2) * (u * r2)));
      [rewrite Hur|]; ring. }
  assert (Esq : lj_potential r2 + 1
                == (2 * (u * u * u) - 1) * (2 * (u * u * u) - 1)).
  { rewrite lj_potential_formula. fold u. simpl. ring. }
  split; [|split; [reflexivity|split]].
  - set (w := 2 * (u * u * u) - 1) in Esq.
    assert (0 <= w * w) by nra.
    lra.
  - intros H. rewrite EV. apply Qmult_lt_0_compat; [exact Hu6|].
    assert (r2 * r2 < 1) by nra. nra.
  - intros H. rewrite EV.
    assert (1 < r2 * r2) by nra.
    assert (1 < r2 * r2 * r2) by nra.
    assert (0 < 4 * (u * u * u) * (u * u * u) * (r2 * r2 * r2 - 1))
      by (apply Qmult_lt_0_compat; [exact Hu6 | lra]).
    lra.
Qed.

Lemma lj_potential_well_witness :
  0 < 9 # 4 /\ - (1) <= lj_potential (9 # 4).
Proof.
  split; [reflexivity|].
  refine (proj1 (lj_potential_well (9 # 4) _)); reflexivity.
Defined.





(** ** The kernel as a whole *)

Lemma kernel_energy (g : globals) (nparticles : Z) (e L : Q)
    (ps fs : list vec3) :
  let n := Z.to_nat nparticles in
  (n <= length fs)%nat ->
  (evaluate_lj_forces g nparticles e L ps fs).1
  == e + Qsum n (fun i => Qsum n (fun j =>
           if decide (i <> j) then pair_energy g L ps i j else 0)).
Proof.
  intros n Hn. rewrite evaluate_lj_forces_loops by exact Hn.
  apply energy_rows_sum.
Qed.

Lemma kernel_forces_lookup (g : globals) (nparticles : Z) (e L : Q)
    (ps fs : list vec3) (i : nat) :
  let n := Z.to_nat nparticles in
  (n <= length fs)%nat ->
  (evaluate_lj_forces g nparticles e L ps fs).2 !! i
  = if decide (i < n)%nat
    then Some (force_row L ps i n (fs !!! i))
    else fs !! i.
Proof.
  intros n Hn. rewrite evaluate_lj_forces_loops by exact Hn. fold n.
  simpl snd.
  assert (Hlen : length (imap (fun i v => force_row L ps i n v) (take n fs))
                 = n) by (rewrite length_imap, length_take; lia).
  destruct (decide (i < n)%nat) as [Hi|Hi].
  - rewrite lookup_app_l by lia.
    rewrite list_lookup_imap, lookup_take_lt by exact Hi.
    destruct (lookup_lt_is_Some_2 fs i) as [v Hv]; [lia|].
    rewrite Hv, (list_lookup_total_correct _ _ _ Hv). reflexivity.
  - rewrite lookup_app_r by lia.
    rewrite Hlen, lookup_drop. f_equal. lia.
Qed.

Lemma kernel_forces_length (g : globals) (nparticles : Z) (e L : Q)
    (ps fs : list vec3) :
  (Z.to_nat nparticles <= length fs)%nat ->
  length (evaluate_lj_forces g nparticles e L ps fs).2 = length fs.
Proof.
  intros Hn. rewrite evaluate_lj_forces_loops by exact Hn. simpl snd.
  rewrite length_app, length_imap, length_take, length_drop. lia.
Qed.

Lemma lookup_total_of_lookup (l l' : list vec3) (i : nat) :
  l !! i = l' !! i -> l !!! i = l' !!! i.
Proof. intros H. rewrite !list_lookup_total_alt, H. reflexivity. Qed.

Lemma kernel_force_coord (g : globals) (nparticles : Z) (e L : Q)
    (ps fs : list vec3) (i : nat) (k : axis) :
  let n := Z.to_nat nparticles in
  (n <= length fs)%nat ->
  coord k ((evaluate_lj_forces g nparticles e L ps fs).2 !!! i)
  == coord k (fs !!! i)
     + (if decide (i < n)%nat
        then Qsum n (fun j => if decide (i <> j)
                              then coord k (pair_force L ps i j) else 0)
        else 0).
Proof.
  intros n Hn.
  pose proof (kernel_forces_lookup g nparticles e L ps fs i Hn) as Hlook.
  fold n in Hlook.
  destruct (decide (i < n)%nat) as [Hi|Hi].
  - rewrite (list_lookup_total_correct _ _ _ Hlook). apply force_row_coord.
  - rewrite (lookup_total_of_lookup _ _ _ Hlook). ring.
Qed.

(** X6.  The kernel adds to what it is given and resets nothing: for a
    force array of at least [nparticles] elements, the energy it returns
    is the energy passed in plus the energy it returns from zero, every
    force vector is the one passed in plus the one it returns from a zeroed
    array, the array keeps its length, and the elements from index
    [nparticles] on are left as they were. *)
Theorem kernel_accumulates (g : globals) (nparticles : Z) (e L : Q)
    (ps fs : list vec3) :
  let r := evaluate_lj_forces g nparticles e L ps fs in
  let r0 := evaluate_lj_forces g nparticles 0 L ps
              (replicate (length fs) (V3 0 0 0)) in
  (Z.to_nat nparticles <= length fs)%nat ->
  r.1 == e + r0.1
  /\ (forall i k, coord k (r.2 !!! i)
                  == coord k (fs !!! i) + coord k (r0.2 !!! i))
  /\ length r.2 = length fs
  /\ (forall i, (Z.to_nat nparticles <= i)%nat -> r.2 !! i = fs !! i).
Proof.
  intros r r0 Hn.
  assert (Hn0 : (Z.to_nat nparticles
                 <= length (replicate (length fs) (V3 0 0 0)))%nat)
    by (rewrite length_replicate; exact Hn).
  split; [|split; [|split]].
  - unfold r, r0. rewrite !kernel_energy by assumption. ring.
  - intros i k. unfold r, r0.
    rewrite !kernel_force_coord by assumption.
    assert (Ez : coord k (replicate (length fs) (V3 0 0 0) !!! i) == 0).
    { destruct (decide (i < length fs)%nat) as [Hi|Hi].
      - rewrite (list_lookup_total_correct _ _ _
                   (lookup_replicate_2 _ _ _ Hi)). destruct k; reflexivity.
      - rewrite list_lookup_total_alt, lookup_ge_None_2
          by (rewrite length_replicate; lia).
        destruct k; reflexivity. }
    rewrite Ez. ring.
  - apply kernel_forces_length. exact Hn.
  - intros i Hi. unfold r. rewrite kernel_forces_lookup by exact Hn.
    rewrite decide_False by lia. reflexivity.
Qed.

Lemma kernel_accumulates_witness :
  (Z.to_nat 2 <= length [V3 1 2 3; V3 0 0 1; V3 5 5 5])%nat
  /\ (evaluate_lj_forces globals_at_load 2 7 20 two_particles
        [V3 1 2 3; V3 0 0 1; V3 5 5 5]).2 !! 2%nat
     = [V3 1 2 3; V3 0 0 1; V3 5 5 5] !! 2%nat.
Proof.
  split; [simpl; lia|].
  refine (proj2 (proj2 (proj2
    (kernel_accumulates globals_at_load 2 7 20 two_particles
       [V3 1 2 3; V3 0 0 1; V3 5 5 5] _))) 2%nat _); simpl; lia.
Defined.

Lemma Qsum_scale (n : nat) (c : Q) (a : nat -> Q) :
  Qsum n (fun i => c * a i) == c * Qsum n a.
Proof.
  induction n as [|n IH]; [rewrite !Qsum_0; ring|].
  rewrite !Qsum_S, IH. ring.
Qed.

(** Half the sum over ordered pairs of a symmetric term is the sum over
    unordered pairs. *)
Lemma Qsum_symmetric_pairs (n : nat) (b : nat -> nat -> Q) :
  (forall i j, (i < n)%nat -> (j < n)%nat -> b i j == b j i) ->
  Qsum n (fun i => Qsum n (fun j =>
    if decide (i <> j) then (1 # 2) * b i j else 0))
  == Qsum n (fun i => Qsum i (fun j => b i j)).
Proof.
  induction n as [|n IH]; intros Hb; [reflexivity|].
  rewrite !Qsum_S.
  rewrite (Qsum_ext n _ (fun i =>
    Qsum n (fun j => if decide (i <> j) then (1 # 2) * b i j else 0)
    + (1 # 2) * b n i)).
  - rewrite Qsum_plus, IH by (intros; apply Hb; lia).
    rewrite decide_False by (intros H; apply H; reflexivity).
    rewrite (Qsum_ext n (fun j => if decide (n <> j)
                                  then (1 # 2) * b n j else 0)
                        (fun j => (1 # 2) * b n j)).
    + rewrite !Qsum_scale. change (fun j : nat => b n j) with (b n). ring.
    + intros j Hj. rewrite decide_True by lia. reflexivity.
  - intros i Hi. rewrite Qsum_S, decide_True by lia.
    rewrite (Hb i n) by lia. reflexivity.
Qed.

(** X7.  In a cell of positive edge, for a force array of at least
    [nparticles] elements, the energy the kernel adds is the cutoff
    potential summed once over the unordered pairs [j < i < nparticles]:
    the factor [0.5] undoes the double visit for any number of
    particles. *)
Theorem energy_counts_each_pair_once (g : globals) (nparticles : Z)
    (e L : Q) (ps fs : list vec3) :
  0 < L ->
  (Z.to_nat nparticles <= length fs)%nat ->
  (evaluate_lj_forces g nparticles e L ps fs).1
  == e + Qsum (Z.to_nat nparticles) (fun i => Qsum i (fun j =>
           lj_potential_with_cutoff g
             (norm2 (displacement L (ps !!! i) (ps !!! j))))).
Proof.
  intros HL Hn. rewrite kernel_energy by exact Hn.
  apply Qplus_inj_l. unfold pair_energy.
  apply (Qsum_symmetric_pairs (Z.to_nat nparticles) (fun i j =>
    lj_potential_with_cutoff g
      (norm2 (displacement L (ps !!! i) (ps !!! j))))).
  intros i j _ _. apply lj_potential_with_cutoff_comp.
  symmetry. apply norm2_displacement_sym. lra.
Qed.

Lemma energy_counts_each_pair_once_witness :
  0 < 20 /\ (Z.to_nat 3 <= length [vzero; vzero; vzero])%nat
  /\ (evaluate_lj_forces globals_at_load 3 0 20 three_particles
        [vzero; vzero; vzero]).1
     == 0 + Qsum (Z.to_nat 3) (fun i => Qsum i (fun j =>
              lj_potential_with_cutoff globals_at_load
                (norm2 (displacement 20 (three_particles !!! i)
                                        (three_particles !!! j))))).
Proof.
  split; [reflexivity|]. split; [simpl; lia|].
  refine (energy_counts_each_pair_once globals_at_load 3 0 20
            three_particles [vzero; vzero; vzero] _ _);
    [reflexivity | simpl; lia].
Defined.

Lemma Qsum_zero (n : nat) (a : nat -> Q) :
  (forall i, (i < n)%nat -> a i == 0) -> Qsum n a == 0.
Proof.
  intros H. induction n as [|n IH]; [reflexivity|].
  rewrite Qsum_S, IH, H by (intros; try apply H; lia). ring.
Qed.

(** X8.  With at most one particle the kernel returns its arguments as
    they are: a particle does not interact with itself or with its own
    periodic images.  For any number of particles, a particle that has no
    other particle within the cutoff gets no force, and if no pair is
    within the cutoff the energy is unchanged too. *)
Theorem kernel_is_local (g : globals) (nparticles : Z) (e L : Q)
    (ps fs : list vec3) :
  let n := Z.to_nat nparticles in
  let r := evaluate_lj_forces g nparticles e L ps fs in
  ((nparticles <= 1)%Z -> r = (e, fs))
  /\ ((n <= length fs)%nat ->
      forall i, (i < n)%nat ->
        (forall j, (j < n)%nat -> i <> j ->
           lj_cutoff2 <= norm2 (displacement L (ps !!! i) (ps !!! j))) ->
        forall k, coord k (r.2 !!! i) == coord k (fs !!! i))
  /\ ((n <= length fs)%nat ->
      (forall i j, (i < n)%nat -> (j < n)%nat -> i <> j ->
         lj_cutoff2 <= norm2 (displacement L (ps !!! i) (ps !!! j))) ->
      r.1 == e).
Proof.
  intros n r. split; [|split].
  - intros H1. unfold r, evaluate_lj_forces.
    destruct (Z.to_nat nparticles) as [|[|m]] eqn:En;
      [reflexivity | reflexivity | lia].
  - intros Hn i Hi Hfar k. unfold r.
    rewrite kernel_force_coord by exact Hn. fold n.
    rewrite decide_True by exact Hi.
    rewrite Qsum_zero; [ring|].
    intros j Hj. destruct (decide (i <> j)) as [Hij|_]; [|reflexivity].
    unfold pair_force, lj_force_with_cutoff.
    rewrite (proj2 (Qltb_ge _ _) (Hfar j Hj Hij)).
    destruct k; simpl; ring.
  - intros Hn Hfar. unfold r. rewrite kernel_energy by exact Hn. fold n.
    rewrite Qsum_zero; [ring|].
    intros i Hi. apply Qsum_zero. intros j Hj.
    destruct (decide (i <> j)) as [Hij|_]; [|reflexivity].
    unfold pair_energy, lj_potential_with_cutoff.
    rewrite (proj2 (Qltb_ge _ _) (Hfar i j Hi Hj Hij)). ring.
Qed.

Lemma kernel_is_local_witness :
  (1 <= 1)%Z
  /\ evaluate_lj_forces globals_at_load 1 5 20 [V3 1 1 1] [V3 2 0 0]
     = (5, [V3 2 0 0]).
Proof.
  split; [lia|].
  refine (proj1 (kernel_is_local globals_at_load 1 5 20
                   [V3 1 1 1] [V3 2 0 0]) _). lia.
Defined.

(** X9.  The kernel sees positions only through their differences: moving
    each of the [nparticles] particles by the same vector [t] changes
    neither the energy nor any force component it returns. *)
Theorem kernel_translation_invariant (g : globals) (nparticles : Z)
    (e L : Q) (ps ps' fs : list vec3) (t : vec3) :
  let n := Z.to_nat nparticles in
  (n <= length fs)%nat ->
  (forall i k, (i < n)%nat ->
     coord k (ps' !!! i) == coord k (ps !!! i) + coord k t) ->
  (evaluate_lj_forces g nparticles e L ps' fs).1
  == (evaluate_lj_forces g nparticles e L ps fs).1
  /\ forall i k,
       coord k ((evaluate_lj_forces g nparticles e L ps' fs).2 !!! i)
       == coord k ((evaluate_lj_forces g nparticles e L ps fs).2 !!! i).
Proof.
  intros n Hn Hshift.
  assert (Hd : forall i j, (i < n)%nat -> (j < n)%nat ->
    veq (displacement L (ps' !!! i) (ps' !!! j))
        (displacement L (ps !!! i) (ps !!! j))).
  { intros i j Hi Hj. unfold veq, displacement. simpl.
    pose proof (Hshift i Axis0 Hi) as Hi0.
    pose proof (Hshift j Axis0 Hj) as Hj0.
    pose proof (Hshift i Axis1 Hi) as Hi1.
    pose proof (Hshift j Axis1 Hj) as Hj1.
    pose proof (Hshift i Axis2 Hi) as Hi2.
    pose proof (Hshift j Axis2 Hj) as Hj2.
    simpl in *.
    repeat split; apply minimum_image_proper; try reflexivity; lra. }
  assert (Hr : forall i j, (i < n)%nat -> (j < n)%nat ->
    norm2 (displacement L (ps' !!! i) (ps' !!! j))
    == norm2 (displacement L (ps !!! i) (ps !!! j))).
  { intros i j Hi Hj. destruct (Hd i j Hi Hj) as (E0 & E1 & E2).
    unfold norm2. rewrite E0, E1, E2. reflexivity. }
  split.
  - rewrite !kernel_energy by exact Hn. apply Qplus_inj_l.
    apply Qsum_ext. intros i Hi. apply Qsum_ext. intros j Hj.
    destruct (decide (i <> j)); [|reflexivity].
    unfold pair_energy.
    rewrite (lj_potential_with_cutoff_comp g _ _ (Hr i j Hi Hj)).
    reflexivity.
  - intros i k. rewrite !kernel_force_coord by exact Hn.
    apply Qplus_inj_l. fold n.
    destruct (decide (i < n)%nat) as [Hi|_]; [|reflexivity].
    apply Qsum_ext. intros j Hj.
    destruct (decide (i <> j)); [|reflexivity].
    unfold pair_force. destruct (Hd i j Hi Hj) as (E0 & E1 & E2).
    destruct k; simpl; rewrite (Hr i j Hi Hj), ?E0, ?E1, ?E2; reflexivity.
Qed.

Lemma kernel_translation_invariant_witness :
  (Z.to_nat 2 <= length [vzero; vzero])%nat
  /\ (evaluate_lj_forces globals_at_load 2 0 20
        [V3 2 3 4; V3 4 3 4] [vzero; vzero]).1
     == (evaluate_lj_forces globals_at_load 2 0 20
           two_particles [vzero; vzero]).1.
Proof.
  split; [simpl; lia|].
  refine (proj1 (kernel_translation_invariant globals_at_load 2 0 20
                   two_particles [V3 2 3 4; V3 4 3 4] [vzero; vzero]
                   (V3 1 2 3) _ _)); [simpl; lia|].
  intros [|[|i]] [| |] Hi; try (simpl in Hi; lia); reflexivity.
Defined.

(** ** The integration loop as a whole *)

Lemma half_squares_nonneg (vs : list vec3) : 0 <= half_squares vs.
Proof.
  induction vs as [|v vs IH]; [discriminate|].
  unfold half_squares in *. simpl fold_right.
  set (a := c0 v). set (b := c1 v). set (c := c2 v).
  assert (0 <= a * a) by nra. assert (0 <= b * b) by nra.
  assert (0 <= c * c) by nra. lra.
Qed.

Lemma half_squares_veq (vs vs' : list vec3) :
  Forall2 veq vs vs' -> half_squares vs == half_squares vs'.
Proof.
  induction 1 as [|v v' vs vs' (E0 & E1 & E2) _ IH]; [reflexivity|].
  unfold half_squares in *. simpl fold_right.
  rewrite E0, E1, E2, IH. reflexivity.
Qed.

Lemma step_well_formed (dt : Q) (s : t) :
  well_formed s -> well_formed (step dt s).
Proof. intros (Hp & Hv & Hf). apply step_lengths; assumption. Qed.

(** A step leaves every velocity as it was: the forces it adds are the
    zeroed ones. *)
Lemma step_velocities_veq (dt : Q) (s : t) :
  well_formed s -> Forall2 veq (velocities (step dt s)) (velocities s).
Proof.
  intros (Hp & Hv & Hf).
  rewrite (step_velocities dt s Hv), (step_forces dt s Hf).
  apply Forall2_same_length_lookup. split; [apply length_imap|].
  intros i v' v Hv' Ev.
  rewrite list_lookup_imap, Ev in Hv'. injection Hv' as <-.
  assert (Ez : replicate (Z.to_nat (nparticles s)) (V3 0 0 0) !!! i
               = V3 0 0 0).
  { destruct (decide (i < Z.to_nat (nparticles s))%nat) as [Hi|Hi].
    - apply list_lookup_total_correct, lookup_replicate_2. exact Hi.
    - rewrite list_lookup_total_alt, lookup_ge_None_2
        by (rewrite length_replicate; lia).
      reflexivity. }
  rewrite Ez. unfold veq, kick. simpl. repeat split; ring.
Qed.

Lemma Forall2_veq_trans (l1 l2 l3 : list vec3) :
  Forall2 veq l1 l2 -> Forall2 veq l2 l3 -> Forall2 veq l1 l3.
Proof.
  intros H12. revert l3.
  induction H12 as [|a b l1 l2 (E0 & E1 & E2) _ IH]; intros l3 H23.
  - inversion H23. constructor.
  - inversion H23 as [|b' c l2' l3' (F0 & F1 & F2) Hrest]; subst.
    constructor; [|apply IH; exact Hrest].
    unfold veq. rewrite E0, E1, E2. auto.
Qed.

Lemma Forall2_veq_refl (l : list vec3) : Forall2 veq l l.
Proof.
  induction l as [|v l IH]; constructor; [|exact IH].
  unfold veq. repeat split; reflexivity.
Qed.

(** What the states of a run keep. *)
Lemma steps_invariant (dt : Q) (s : t) (m : nat) :
  well_formed s ->
  let s' := for_loop m (fun _ => step dt) s in
  well_formed s' /\ box_size s' = box_size s
  /\ nparticles s' = nparticles s
  /\ Forall2 veq (velocities s') (velocities s).
Proof.
  intros Hwf. induction m as [|m IH]; simpl.
  - split; [exact Hwf|]. split; [reflexivity|]. split; [reflexivity|].
    apply Forall2_veq_refl.
  - rewrite for_loop_S. destruct IH as (Hwf' & Hb & Hn & Hvs).
    split; [apply step_well_formed; exact Hwf'|].
    split; [rewrite step_box_size; exact Hb|].
    split; [rewrite step_nparticles; exact Hn|].
    eapply Forall2_veq_trans; [apply step_velocities_veq; exact Hwf'|].
    exact Hvs.
Qed.

Lemma steps_in_box (dt : Q) (s : t) (m : nat) :
  0 < box_size s -> well_formed s -> in_box s ->
  (forall i v k, velocities s !! i = Some v ->
     Qabs (coord k v * dt) <= box_size s) ->
  in_box (for_loop m (fun _ => step dt) s).
Proof.
  intros HL Hwf Hbox Hmove. induction m as [|m IH]; [exact Hbox|].
  rewrite for_loop_S.
  destruct (steps_invariant dt s m Hwf) as ((Hp & Hv & Hf) & Hb & Hn & Hvs).
  set (sm := for_loop m (fun _ => step dt) s) in *.
  assert (HLm : 0 < box_size sm) by (rewrite Hb; exact HL).
  assert (Hmovem : forall j v k', velocities sm !! j = Some v ->
            Qabs (coord k' v * dt) <= box_size sm).
  { intros j v k' Ev.
    destruct (Forall2_lookup_l _ _ _ _ _ Hvs Ev)
      as (v0 & Ev0 & (E0 & E1 & E2)).
    rewrite Hb.
    assert (Ec : coord k' v == coord k' v0) by (destruct k'; assumption).
    rewrite Ec. apply (Hmove j v0 k' Ev0). }
  intros i p k Hlook. rewrite step_box_size.
  exact (step_keeps_in_box dt sm HLm Hp Hv IH Hmovem i p k Hlook).
Qed.

(** X10.  As the program stands, [run] on a well-formed state keeps the
    state well-formed, keeps the cell size and the particle count, and
    leaves every velocity equal to its initial value. *)
Theorem run_is_free_flight (nsteps : Z) (dt : Q) (s : t) :
  well_formed s ->
  let s' := (run nsteps dt s).1 in
  well_formed s'
  /\ box_size s' = box_size s
  /\ nparticles s' = nparticles s
  /\ Forall2 veq (velocities s') (velocities s).
Proof.
  intros Hwf s'. unfold s'. rewrite run_state.
  destruct (steps_invariant dt s (Z.to_nat nsteps) Hwf) as (H1 & H2 & H3 & H4).
  split; [exact H1|]. split; [exact H2|]. split; [exact H3|exact H4].
Qed.

Lemma run_is_free_flight_witness :
  well_formed moving
  /\ Forall2 veq (velocities (run 3 (1 # 2) moving).1) (velocities moving).
Proof.
  assert (Hwf : well_formed moving) by (repeat split; reflexivity).
  split; [exact Hwf|].
  exact (proj2 (proj2 (proj2 (run_is_free_flight 3 (1 # 2) moving Hwf)))).
Defined.

(** Everything [run] prints, line by line. *)
Lemma run_output_list (nsteps : Z) (dt : Q) (s : t) :
  (run nsteps dt s).2
  = map (fun k => print_step k (for_loop (S k) (fun _ => step dt) s))
        (seq 0 (Z.to_nat nsteps))
    ++ [Completed].
Proof.
  unfold run.
  assert (H : forall n,
    for_loop n (fun istep '(s, out) =>
       let s := step dt s in (s, out ++ [print_step istep s])) (s, [])
    = (for_loop n (fun _ => step dt) s,
       map (fun k => print_step k (for_loop (S k) (fun _ => step dt) s))
           (seq 0 n))).
  { induction n as [|n IH]; [reflexivity|].
    rewrite for_loop_S, IH, seq_S, map_app. simpl.
    rewrite (for_loop_S n (fun _ => step dt) s). reflexivity. }
  rewrite H. reflexivity.
Qed.

(** Line [k] of a run on a well-formed state. *)
Lemma run_line (nsteps : Z) (dt : Q) (s : t) (k : nat) :
  well_formed s -> (k < Z.to_nat nsteps)%nat ->
  exists ke tot,
    (run nsteps dt s).2 !! k = Some (Iteration (Z.of_nat k) 0 ke tot)
    /\ ke == half_squares (velocities s)
    /\ tot == ke.
Proof.
  intros Hwf Hk. rewrite run_output_list.
  rewrite lookup_app_l by (rewrite length_map, length_seq; exact Hk).
  rewrite (lookup_map_seq (fun k => print_step k
             (for_loop (S k) (fun _ => step dt) s)) _ k Hk).
  rewrite for_loop_S.
  destruct (steps_invariant dt s k Hwf) as (Hwf' & _ & _ & Hvs).
  set (sk := for_loop k (fun _ => step dt) s) in *.
  assert (Eke : kinetic_energy (step dt sk) == half_squares (velocities s)).
  { destruct Hwf' as (_ & Hv & _).
    rewrite (step_kinetic_energy dt sk Hv). apply half_squares_veq, Hvs. }
  exists (kinetic_energy (step dt sk)),
         (potential_energy (step dt sk) + kinetic_energy (step dt sk)).
  unfold print_step. rewrite !step_potential_energy.
  split; [reflexivity|]. split; [exact Eke|ring].
Qed.

(** X11.  [run] prints one line per step, numbered from 0 in order, and
    then the closing line.  As the program stands, on a well-formed state
    every line reports potential energy [0], a kinetic energy equal to the
    sum of [0.5 * v * v] over the initial velocity components, which is
    never negative, and a total equal to the kinetic energy. *)
Theorem run_output_lines (nsteps : Z) (dt : Q) (s : t) :
  well_formed s ->
  let out := (run nsteps dt s).2 in
  let n := Z.to_nat nsteps in
  length out = S n
  /\ out !! n = Some Completed
  /\ forall k, (k < n)%nat ->
       exists ke tot,
         out !! k = Some (Iteration (Z.of_nat k) 0 ke tot)
         /\ ke == half_squares (velocities s)
         /\ tot == ke
         /\ 0 <= ke.
Proof.
  intros Hwf out n.
  assert (Hlen : length (map (fun k => print_step k
                   (for_loop (S k) (fun _ => step dt) s)) (seq 0 n)) = n)
    by (rewrite length_map, length_seq; reflexivity).
  split; [|split].
  - unfold out. rewrite run_output_list. fold n.
    rewrite length_app, Hlen. simpl. lia.
  - unfold out. rewrite run_output_list. fold n.
    rewrite lookup_app_r by lia. rewrite Hlen, Nat.sub_diag. reflexivity.
  - intros k Hk.
    destruct (run_line nsteps dt s k Hwf Hk) as (ke & tot & Hline & Eke & Et).
    exists ke, tot. split; [exact Hline|]. split; [exact Eke|].
    split; [exact Et|]. rewrite Eke. apply half_squares_nonneg.
Qed.

Lemma run_output_lines_witness :
  well_formed moving
  /\ length (run 3 (1 # 2) moving).2 = S (Z.to_nat 3).
Proof.
  assert (Hwf : well_formed moving) by (repeat split; reflexivity).
  split; [exact Hwf|].
  exact (proj1 (run_output_lines 3 (1 # 2) moving Hwf)).
Defined.

Lemma for_loop_constant_add {S : Type} (f : S -> S) (a b : nat) (s : S) :
  for_loop (a + b) (fun _ => f) s
  = for_loop b (fun _ => f) (for_loop a (fun _ => f) s).
Proof.
  induction b as [|b IH]; [rewrite Nat.add_0_r; reflexivity|].
  rewrite Nat.add_succ_r, !for_loop_S, IH. reflexivity.
Qed.

(** X12.  A run can be split.  For [a, b >= 0], running [a] steps and then
    [b] steps from the state reached gives the state of [a + b] steps, and
    line [k] of the second run carries the energies of line [a + k] of the
    whole run; only the step number starts again from 0. *)
Theorem run_splits (a b : Z) (dt : Q) (s : t) :
  (0 <= a)%Z -> (0 <= b)%Z ->
  (run (a + b) dt s).1 = (run b dt (run a dt s).1).1
  /\ forall k, (k < Z.to_nat b)%nat ->
       exists pe ke tot,
         (run b dt (run a dt s).1).2 !! k
           = Some (Iteration (Z.of_nat k) pe ke tot)
         /\ (run (a + b) dt s).2 !! (Z.to_nat a + k)%nat
            = Some (Iteration (a + Z.of_nat k) pe ke tot).
Proof.
  intros Ha Hb.
  assert (Eab : Z.to_nat (a + b) = (Z.to_nat a + Z.to_nat b)%nat) by lia.
  split.
  - rewrite !run_state, Eab. apply for_loop_constant_add.
  - intros k Hk. rewrite !run_output_list, run_state, Eab.
    set (f := fun _ : nat => step dt).
    set (sa := for_loop (Z.to_nat a) f s).
    set (sk := for_loop (S k) f sa).
    exists (potential_energy sk), (kinetic_energy sk),
           (potential_energy sk + kinetic_energy sk).
    split.
    + rewrite lookup_app_l by (rewrite length_map, length_seq; lia).
      rewrite (lookup_map_seq (fun k => print_step k (for_loop (S k) f sa))
                 (Z.to_nat b) k Hk).
      reflexivity.
    + rewrite lookup_app_l by (rewrite length_map, length_seq; lia).
      rewrite (lookup_map_seq (fun k => print_step k (for_loop (S k) f s))
                 (Z.to_nat a + Z.to_nat b) (Z.to_nat a + k)) by lia.
      replace (S (Z.to_nat a + k)) with (Z.to_nat a + S k)%nat by lia.
      unfold f at 1. rewrite for_loop_constant_add. fold f. fold sa. fold sk.
      unfold print_step. repeat f_equal. lia.
Qed.

Lemma run_splits_witness :
  (0 <= 1)%Z /\ (0 <= 2)%Z
  /\ (run (1 + 2) (1 # 2) moving).1
     = (run 2 (1 # 2) (run 1 (1 # 2) moving).1).1.
Proof.
  split; [lia|]. split; [lia|].
  refine (proj1 (run_splits 1 2 (1 # 2) moving _ _)); lia.
Defined.

(** ** The constructed simulation *)

Section ConstructedState.

Context {engine : Type}.
Variable mt19937 : Z -> engine.
Variable random_vel : engine -> Q * engine.

Local Abbreviation construct := (MDSimulation.MDSimulation mt19937 random_vel).

Lemma construct_well_formed (L : Q) (n : Z) : well_formed (construct L n).
Proof.
  unfold well_formed.
  rewrite construct_positions, construct_velocities, construct_forces.
  rewrite !length_map, !length_seq. auto.
Qed.

(** Particle [i < n] of the constructed state: its slot and position. *)
Lemma construct_position_lookup (L : Q) (n : Z) (i : nat) :
  (i < Z.to_nat n)%nat ->
  let p := ceil_cbrt n in
  exists ix iy iz,
    (0 < p)%Z
    /\ grid_slot p (Z.of_nat i) = (ix, iy, iz)
    /\ (0 <= ix < p /\ 0 <= iy < p /\ 0 <= iz < p)%Z
    /\ positions (construct L n) !! i
       = Some (grid_position (L / inject_Z (p + 1)) (ix, iy, iz)).
Proof.
  intros Hi p.
  destruct (ceil_cbrt_spec n ltac:(lia)) as (Hp & _ & Hn). fold p in Hp, Hn.
  destruct (grid_slot_spec p (Z.of_nat i) Hp ltac:(lia))
    as (ix & iy & iz & Eslot & Hrange & _).
  exists ix, iy, iz. split; [exact Hp|]. split; [exact Eslot|].
  split; [exact Hrange|].
  rewrite construct_positions, <- Eslot. fold p.
  apply (lookup_map_seq (fun i =>
    grid_position (L / inject_Z (p + 1)) (grid_slot p (Z.of_nat i)))).
  exact Hi.
Qed.

Lemma construct_in_box (L : Q) (n : Z) : 0 < L -> in_box (construct L n).
Proof.
  intros HL i p k Hlook.
  assert (Hi : (i < Z.to_nat n)%nat).
  { apply lookup_lt_Some in Hlook.
    destruct (construct_well_formed L n) as (Hp & _). rewrite Hp in Hlook.
    exact Hlook. }
  destruct (construct_position_lookup L n i Hi)
    as (ix & iy & iz & Hp & _ & (Hx & Hy & Hz) & Hpos).
  rewrite Hpos in Hlook. injection Hlook as <-.
  change (box_size (construct L n)) with L.
  destruct k; simpl.
  - destruct (grid_coordinate_inside L (ceil_cbrt n) ix HL Hx). split; lra.
  - destruct (grid_coordinate_inside L (ceil_cbrt n) iy HL Hy). split; lra.
  - destruct (grid_coordinate_inside L (ceil_cbrt n) iz HL Hz). split; lra.
Qed.



Hypothesis random_vel_range :
  forall g, - (1 # 2) <= (random_vel g).1 /\ (random_vel g).1 < 1 # 2.

(** X14.  The constructed state is well-formed, has zero forces and lies
    inside its cell; and if [|dt| <= 2 L], every position is inside the
    cell after any number of steps. *)
Theorem constructed_run_stays_in_box (L dt : Q) (n nsteps : Z) :
  0 < L -> Qabs dt <= 2 * L ->
  well_formed (construct L n)
  /\ forces (construct L n) = replicate (Z.to_nat n) (V3 0 0 0)
  /\ in_box (construct L n)
  /\ forall i p k,
       positions (run nsteps dt (construct L n)).1 !! i = Some p ->
       0 <= coord k p /\ coord k p < L.
Proof.
  intros HL Hdt.
  pose proof (construct_well_formed L n) as Hwf.
  pose proof (construct_in_box L n HL) as Hbox.
  split; [exact Hwf|]. split.
  { rewrite construct_forces. generalize 0%nat as k.
    induction (Z.to_nat n) as [|m IH]; intros k; simpl; [reflexivity|].
    f_equal. apply IH. }
  split; [exact Hbox|].
  rewrite run_state.
  assert (Hin : in_box (for_loop (Z.to_nat nsteps) (fun _ => step dt)
                          (construct L n))).
  { apply steps_in_box; [exact HL | exact Hwf | exact Hbox |].
    intros i v k Ev. change (box_size (construct L n)) with L.
    assert (Hi : (i < Z.to_nat n)%nat).
    { apply lookup_lt_Some in Ev.
      destruct Hwf as (_ & Hv & _). rewrite Hv in Ev. exact Ev. }
    rewrite construct_velocities in Ev.
    rewrite (lookup_map_seq (fun i =>
               random_velocity mt19937 random_vel (Z.of_nat i)) _ i Hi) in Ev.
    injection Ev as <-.
    pose proof (velocity_of_range mt19937 random_vel random_vel_range
                  (Z.of_nat i) k) as [Hlo Hhi].
    set (c := coord k (random_velocity mt19937 random_vel (Z.of_nat i))) in *.
    apply Qabs_Qle_condition in Hdt. destruct Hdt as [Hd1 Hd2].
    apply Qabs_Qle_condition. split; nra. }
  intros i p k Hlook. pose proof (Hin i p k Hlook) as Hb.
  destruct (steps_invariant dt (construct L n) (Z.to_nat nsteps) Hwf)
    as (_ & EL & _).
  rewrite EL in Hb. exact Hb.
Qed.

End ConstructedState.


Lemma constructed_run_stays_in_box_witness :
  0 < 6 /\ Qabs (5 # 1000) <= 2 * 6 /\ well_formed (create 6 2).
Proof.
  split; [reflexivity|]. split; [discriminate|].
  refine (proj1 (constructed_run_stays_in_box StdRandom.seed
                   (StdRandom.uniform_real (- (1 # 2)) (1 # 2))
                   uniform_real_range 6 (5 # 1000) 2 1 _ _));
    [reflexivity | discriminate].
Defined.

(** ** More on the geometry and on the potential *)

(** X15.  For a difference [d] of two coordinates inside a cell of
    positive edge [L], the component the kernel uses is a nearest periodic
    image: no [d + k L], [k] an integer, is smaller in magnitude. *)
Theorem minimum_image_is_nearest (L d : Q) (k : Z) :
  0 < L -> - L < d -> d < L ->
  minimum_image L d * minimum_image L d
  <= (d + inject_Z k * L) * (d + inject_Z k * L).
Proof.
  intros HL Hlo Hhi.
  assert (HL0 : 0 <= L) by lra.
  assert (Hz : forall j : Z, inject_Z j == 0 \/ 1 <= inject_Z j
                             \/ inject_Z j <= - (1)).
  { intros j. destruct (Z.eq_dec j 0%Z) as [->|Hj]; [left; reflexivity|].
    right. destruct (Z_lt_le_dec j 0%Z).
    - right. change (- (1)) with (inject_Z (-1)). rewrite <- Zle_Qle. lia.
    - left. change 1 with (inject_Z 1). rewrite <- Zle_Qle. lia. }
  assert (Hnear : forall m c : Q,
            - (1 # 2) * L <= m -> m <= (1 # 2) * L ->
            c == 0 \/ 1 <= c \/ c <= - (1) ->
            m * m <= (m + c * L) * (m + c * L)).
  { intros m c Hm Hm' [Hc|[Hc|Hc]].
    - rewrite Hc. ring_simplify. lra.
    - assert (L <= c * L) by nra.
      assert (0 <= m + c * L) by lra.
      assert (- (m + c * L) <= m) by lra. nra.
    - assert (c * L <= - L) by nra.
      assert (m + c * L <= 0) by lra.
      assert (m <= - (m + c * L)) by lra. nra. }
  destruct (minimum_image_half_box L d HL) as [Hm Hm']; [lra|lra|].
  destruct (minimum_image_cases L d HL0) as [[H E]|[[H E]|[H E]]].
  - assert (Ed : d + inject_Z k * L
                 == minimum_image L d + inject_Z (k + 1) * L).
    { assert (Ek : inject_Z (k + 1) == inject_Z k + 1)
        by (rewrite inject_Z_plus; reflexivity).
      rewrite E, Ek. ring. }
    rewrite Ed. apply Hnear; [exact Hm | exact Hm' | apply Hz].
  - assert (Ed : d + inject_Z k * L
                 == minimum_image L d + inject_Z (k - 1) * L).
    { assert (Ek : inject_Z (k - 1) == inject_Z k - 1)
        by (unfold Zminus; rewrite inject_Z_plus; reflexivity).
      rewrite E, Ek. ring. }
    rewrite Ed. apply Hnear; [exact Hm | exact Hm' | apply Hz].
  - assert (Ed : d + inject_Z k * L == minimum_image L d + inject_Z k * L)
      by (rewrite E; reflexivity).
    rewrite Ed. apply Hnear; [exact Hm | exact Hm' | apply Hz].
Qed.

Lemma minimum_image_is_nearest_witness :
  0 < 20 /\ - (20) < 18 /\ 18 < 20
  /\ minimum_image 20 18 * minimum_image 20 18
     <= (18 + inject_Z 3 * 20) * (18 + inject_Z 3 * 20).
Proof.
  split; [reflexivity|]. split; [reflexivity|]. split; [reflexivity|].
  refine (minimum_image_is_nearest 20 18 3 _ _ _); reflexivity.
Defined.



(** ** What [initialize] changes *)

Lemma kernel_forces_do_not_depend_on_globals (g g' : globals)
    (nparticles : Z) (e e' L : Q) (ps fs : list vec3) :
  (evaluate_lj_forces g nparticles e L ps fs).2
  = (evaluate_lj_forces g' nparticles e' L ps fs).2.
Proof.
  unfold evaluate_lj_forces.
  set (n := Z.to_nat nparticles). generalize n at 1 3 as m.
  assert (Hin : forall i k st st', st.2 = st'.2 ->
    (for_loop k (pair_body g L ps i) st).2
    = (for_loop k (pair_body g' L ps i) st').2).
  { intros i k. induction k as [|k IH]; intros st st' E; [exact E|].
    rewrite !for_loop_S. specialize (IH st st' E).
    destruct (for_loop k _ st) as [a fa], (for_loop k _ st') as [b fb].
    simpl in IH. subst fb. rewrite !pair_body_unfold.
    destruct (decide (i <> k)); reflexivity. }
  intros m. induction m as [|m IH]; [reflexivity|].
  rewrite !for_loop_S. apply Hin. exact IH.
Qed.

(** X17.  The constant that [initialize] stores changes only the energy.
    The forces the kernel returns are the same whatever the stored
    constant and whatever energy is passed in; and for a force array of at
    least [nparticles] elements the energy computed with the constant
    stored by [initialize] is the energy computed without it minus
    [0.5 * lj_potential(lj_cutoff2)] for every ordered pair within the
    cutoff. *)
Theorem initialize_changes_only_energy (state : gmap string any)
    (g0 : globals) (nparticles : Z) (e e' L : Q) (ps fs : list vec3) :
  let g1 := (initialize state g0).2 in
  (evaluate_lj_forces g1 nparticles e L ps fs).2
  = (evaluate_lj_forces globals_at_load nparticles e' L ps fs).2
  /\ ((Z.to_nat nparticles <= length fs)%nat ->
      (evaluate_lj_forces g1 nparticles e L ps fs).1
      == (evaluate_lj_forces globals_at_load nparticles e L ps fs).1
         - (1 # 2) * lj_potential lj_cutoff2
           * pairs_within_cutoff L ps (Z.to_nat nparticles)).
Proof.
  intros g1. split; [apply kernel_forces_do_not_depend_on_globals|].
  intros Hn. rewrite !kernel_energy by exact Hn.
  unfold pairs_within_cutoff.
  set (n := Z.to_nat nparticles).
  set (c := lj_potential lj_cutoff2).
  assert (Hrow : forall i m,
    Qsum m (fun j => if decide (i <> j) then pair_energy g1 L ps i j else 0)
    == Qsum m (fun j => if decide (i <> j)
                        then pair_energy globals_at_load L ps i j else 0)
       - (1 # 2) * c
         * Qsum m (fun j => if decide (i <> j)
             then if Qltb (norm2 (displacement L (ps !!! i) (ps !!! j)))
                          lj_cutoff2 then 1 else 0
             else 0)).
  { intros i m. induction m as [|m IH]; [rewrite !Qsum_0; ring|].
    rewrite !Qsum_S, IH.
    destruct (decide (i <> m)); [|ring].
    unfold pair_energy, lj_potential_with_cutoff.
    destruct (Qltb _ lj_cutoff2); simpl; fold c; ring. }
  assert (Hall : forall m,
    Qsum m (fun i => Qsum n (fun j =>
      if decide (i <> j) then pair_energy g1 L ps i j else 0))
    == Qsum m (fun i => Qsum n (fun j =>
         if decide (i <> j) then pair_energy globals_at_load L ps i j else 0))
       - (1 # 2) * c
         * Qsum m (fun i => Qsum n (fun j => if decide (i <> j)
             then if Qltb (norm2 (displacement L (ps !!! i) (ps !!! j)))
                          lj_cutoff2 then 1 else 0
             else 0))).
  { intros m. induction m as [|m IH]; [rewrite !Qsum_0; ring|].
    rewrite !Qsum_S, IH, Hrow. ring. }
  rewrite Hall. ring.
Qed.

Lemma initialize_changes_only_energy_witness :
  (Z.to_nat 2 <= length [vzero; vzero])%nat
  /\ (evaluate_lj_forces (initialize ∅ globals_at_load).2 2 0 20
        two_particles [vzero; vzero]).1
     == (evaluate_lj_forces globals_at_load 2 0 20
           two_particles [vzero; vzero]).1
        - (1 # 2) * lj_potential lj_cutoff2
          * pairs_within_cutoff 20 two_particles (Z.to_nat 2).
Proof.
  split; [simpl; lia|].
  refine (proj2 (initialize_changes_only_energy ∅ globals_at_load 2 0 0 20
                   two_particles [vzero; vzero]) _).
  simpl; lia.
Defined.

(** ** The kinetic energy of a constructed simulation *)

Lemma half_squares_bound (vs : list vec3) :
  (forall v, In v vs -> forall k,
     - (1 # 2) <= coord k v /\ coord k v <= 1 # 2) ->
  half_squares vs <= (3 # 8) * inject_Z (Z.of_nat (length vs)).
Proof.
  induction vs as [|v vs IH]; intros H; [discriminate|].
  assert (IH' : half_squares vs <= (3 # 8) * inject_Z (Z.of_nat (length vs)))
    by (apply IH; intros u Hu; apply H; right; exact Hu).
  assert (Elen : inject_Z (Z.of_nat (length (v :: vs)))
                 == inject_Z (Z.of_nat (length vs)) + 1).
  { simpl length. rewrite Nat2Z.inj_succ. unfold Z.succ.
    rewrite inject_Z_plus. reflexivity. }
  rewrite Elen. unfold half_squares in *. simpl fold_right.
  pose proof (H v (or_introl eq_refl) Axis0) as [? ?].
  pose proof (H v (or_introl eq_refl) Axis1) as [? ?].
  pose proof (H v (or_introl eq_refl) Axis2) as [? ?].
  simpl in *.
  set (a := c0 v) in *. set (b := c1 v) in *. set (c := c2 v) in *.
  assert (a * a <= 1 # 4) by nra.
  assert (b * b <= 1 # 4) by nra.
  assert (c * c <= 1 # 4) by nra.
  lra.
Qed.

Section ConstructedKinetic.

Context {engine : Type}.
Variable mt19937 : Z -> engine.
Variable random_vel : engine -> Q * engine.
Hypothesis random_vel_range :
  forall g, - (1 # 2) <= (random_vel g).1 /\ (random_vel g).1 < 1 # 2.

(** X18.  Every line that [run] prints for a constructed simulation of
    [n >= 0] particles reports potential energy [0] and a kinetic energy
    between [0] and [0.375 n]. *)
Theorem constructed_kinetic_energy_bound (L dt : Q) (n nsteps : Z)
    (k : nat) :
  (0 <= n)%Z -> (k < Z.to_nat nsteps)%nat ->
  exists ke tot,
    (run nsteps dt (MDSimulation.MDSimulation mt19937 random_vel L n)).2 !! k
      = Some (Iteration (Z.of_nat k) 0 ke tot)
    /\ 0 <= ke /\ ke <= (3 # 8) * inject_Z n.
Proof.
  intros Hn Hk.
  set (s := MDSimulation.MDSimulation mt19937 random_vel L n).
  pose proof (construct_well_formed mt19937 random_vel L n) as Hwf.
  fold s in Hwf.
  destruct (run_line nsteps dt s k Hwf Hk) as (ke & tot & Hline & Eke & _).
  exists ke, tot. split; [exact Hline|]. rewrite Eke.
  split; [apply half_squares_nonneg|].
  assert (Hlen : Z.of_nat (length (velocities s)) = n).
  { destruct Hwf as (_ & Hv & _). rewrite Hv.
    change (nparticles s) with n. lia. }
  rewrite <- Hlen. apply half_squares_bound.
  intros v Hv k'. unfold s in Hv. rewrite construct_velocities in Hv.
  apply in_map_iff in Hv. destruct Hv as (i & <- & _).
  destruct (velocity_of_range mt19937 random_vel random_vel_range
              (Z.of_nat i) k') as [Hlo Hhi].
  split; lra.
Qed.

End ConstructedKinetic.

Lemma constructed_kinetic_energy_bound_witness :
  (0 <= 2)%Z /\ (0 < Z.to_nat 1)%nat
  /\ exists ke tot,
       (run 1 (5 # 1000) (create 6 2)).2 !! 0%nat
         = Some (Iteration (Z.of_nat 0) 0 ke tot)
       /\ 0 <= ke /\ ke <= (3 # 8) * inject_Z 2.
Proof.
  split; [lia|]. split; [simpl; lia|].
  refine (constructed_kinetic_energy_bound StdRandom.seed
            (StdRandom.uniform_real (- (1 # 2)) (1 # 2))
            uniform_real_range 6 (5 # 1000) 2 1 0 _ _); [lia | simpl; lia].
Defined.
